(** * Remis La Union: the ride-dispatch server

    A shallow embedding of the socket.io dispatch core of the server: the fare
    calculator, the haversine distance, the two in-memory maps
    [activeDrivers] and [rideRequests], and the handlers that
    [io.on('connection')] registers on a socket for the events
    'driver-location', 'request-ride', 'accept-ride' and 'disconnect'.
    In the dispatch core a socket comes with its verified user id; the
    REST routes and the two authentication middlewares ([verifyToken] and
    the one of [io.use]) are embedded in the module [Rest], over any
    backend that answers the calls to supabase.

    JavaScript Numbers are IEEE 754 binary64 values; they are modelled with
    the executable specification of floating-point arithmetic of the
    standard library ([spec_float], precision 53, maximal exponent 1024).
    The haversine formula of the specification is read over these Numbers
    and over the real numbers of the standard library. *)

From Stdlib Require Import ZArith QArith List String Ascii Bool Lia.
From Stdlib Require Import Floats.SpecFloat.
From Stdlib Require Reals.
From Stdlib Require Import Lra.
Import ListNotations.

Local Open Scope Z_scope.

(* ================================================================= *)
(** ** JavaScript Numbers *)

Module Number.

Definition prec : Z := 53.
Definition emax : Z := 1024.

(** A Number is a binary64 floating-point datum. *)
Definition Number : Type := spec_float.

Definition add : Number -> Number -> Number := SFadd prec emax.
Definition sub : Number -> Number -> Number := SFsub prec emax.
Definition mul : Number -> Number -> Number := SFmul prec emax.
Definition div : Number -> Number -> Number := SFdiv prec emax.
Definition sqrt : Number -> Number := SFsqrt prec emax.
Definition neg : Number -> Number := SFopp.
Definition abs : Number -> Number := SFabs.

(** [x < y] and [x <= y] of JavaScript: false as soon as one side is NaN. *)
Definition ltb : Number -> Number -> bool := SFltb.
Definition leb : Number -> Number -> bool := SFleb.

(** An integer literal of the source ([50], [6371], ...). *)
Definition of_Z (n : Z) : Number := binary_normalize prec emax n 0 false.

(** The Number +0. *)
Definition pos_zero : Number := S754_zero false.

(** Neither NaN nor an infinity. *)
Definition is_finite (x : Number) : bool :=
  match x with
  | S754_zero _ | S754_finite _ _ _ => true
  | S754_infinity _ | S754_nan => false
  end.

(** A datum in the canonical form every binary64 value has. *)
Definition valid (x : Number) : bool := valid_binary prec emax x.

(** The exact rational value of a finite Number (0 for the others). *)
Definition to_Q (x : Number) : Q :=
  match x with
  | S754_finite s m e =>
      let n := if s then Z.neg m else Z.pos m in
      if 0 <=? e then inject_Z (n * 2 ^ e)
      else Qmake n (Z.to_pos (2 ^ (- e)))
  | _ => 0%Q
  end.

(** [Math.round]: NaN, the infinities and the integral Numbers are returned
    as they are; any other value [v] gives the integral Number closest to
    it, the one closer to +Infinity when two are equally close, that is
    [floor (v + 1/2)], with the sign of [v] on a zero result. *)
Definition Math_round (x : Number) : Number :=
  match x with
  | S754_finite s m e =>
      if 0 <=? e then x
      else
        let n := if s then Z.neg m else Z.pos m in
        let r := (2 * n + 2 ^ (- e)) / 2 ^ (1 - e) in
        if r =? 0 then S754_zero s else of_Z r
  | _ => x
  end.

(** The mantissa of a finite datum fits the 53 bits of the format. *)
Definition fits (x : Number) : Prop :=
  match x with
  | S754_finite _ m _ => Z.pos m < 2 ^ prec
  | _ => True
  end.

(** A zero, or a finite datum with a 53-bit mantissa and an exponent of at
    most [E]: a Number of magnitude below 2^(E+53). *)
Definition below (E : Z) (x : Number) : Prop :=
  match x with
  | S754_zero _ => True
  | S754_finite _ m e => Z.pos m < 2 ^ prec /\ e <= E
  | _ => False
  end.

(** [r] is an integral Number, the integer closest to [x] and the upper one
    of the two when [x] lies half way. *)
Definition round_half_up (x r : Number) : Prop :=
  exists n : Z,
    is_finite r = true /\
    (to_Q r == inject_Z n)%Q /\
    (inject_Z n - (1 # 2) <= to_Q x)%Q /\
    (to_Q x < inject_Z n + (1 # 2))%Q.

(** The literal [0.2]: the binary64 value closest to 1/5. *)
Definition lit_0_2 : Number := S754_finite false 0x1999999999999a (-55).

(** [Math.PI]: the binary64 value closest to pi. *)
Definition Math_PI : Number := S754_finite false 0x1921fb54442d18 (-51).

End Number.

Import Number.
Arguments of_Z : simpl never.

Declare Scope num_scope.
Delimit Scope num_scope with num.
Infix "+" := add : num_scope.
Infix "-" := sub : num_scope.
Infix "*" := mul : num_scope.
Infix "/" := div : num_scope.
Infix "<?" := ltb : num_scope.

(* ================================================================= *)
(** ** Calculator logic *)

Record Fare : Type := mkFare {
  base : Number;
  distance : Number;
  time : Number;
  commission : Number;
  total : Number
}.

Definition BASE_FARE : Number := of_Z 50.
Definition KM_RATE : Number := of_Z 10.
Definition TIME_RATE : Number := of_Z 2.
Definition COMMISSION_RATE : Number := lit_0_2.

Definition calculateFare (distanceKm durationMin : Number) : Fare :=
  let distanceCharge := (distanceKm * KM_RATE)%num in
  let timeCharge := (durationMin * TIME_RATE)%num in
  let subtotal := (BASE_FARE + distanceCharge + timeCharge)%num in
  let commission := (subtotal * COMMISSION_RATE)%num in
  let total := (subtotal + commission)%num in
  {| base := BASE_FARE;
     distance := distanceCharge;
     time := timeCharge;
     commission := commission;
     total := Math_round total |}.

(** The transcendental functions of [Math] are implementation-approximated:
    the language fixes them on a few special arguments only. The server is
    modelled over any implementation of them. *)
Class Libm : Type := {
  Math_sin : Number -> Number;
  Math_cos : Number -> Number;
  Math_atan2 : Number -> Number -> Number
}.

(** What the statements about distances assume of an implementation: the
    values the language fixes ([sin] of +0 is +0, [atan2] of +0 and 1 is
    +0), that [cos] of a finite number is a Number of magnitude at most 1,
    and that [sin] is odd. *)
Class LibmLaws `{Libm} : Prop := {
  sin_odd : forall x, Math_sin (neg x) = neg (Math_sin x);
  sin_pos_zero : Math_sin pos_zero = pos_zero;
  cos_range : forall x,
    is_finite x = true ->
    valid (Math_cos x) = true /\ leb (abs (Math_cos x)) (of_Z 1) = true;
  atan2_pos_zero : Math_atan2 pos_zero (of_Z 1) = pos_zero
}.

Section Geo.
Context `{Libm}.

Definition getDistance (lat1 lon1 lat2 lon2 : Number) : Number :=
  let R := of_Z 6371 in
  let dLat := ((lat2 - lat1) * Math_PI / of_Z 180)%num in
  let dLon := ((lon2 - lon1) * Math_PI / of_Z 180)%num in
  let a :=
    (Math_sin (dLat / of_Z 2) * Math_sin (dLat / of_Z 2) +
     Math_cos (lat1 * Math_PI / of_Z 180) * Math_cos (lat2 * Math_PI / of_Z 180) *
     Math_sin (dLon / of_Z 2) * Math_sin (dLon / of_Z 2))%num in
  let c := (of_Z 2 * Math_atan2 (sqrt a) (sqrt (of_Z 1 - a)))%num in
  (R * c)%num.

End Geo.

(* ================================================================= *)
(** ** The distance of the specification

    The specification describes the distance between two coordinates as the
    great-circle distance given by the haversine formula with Earth radius
    6371 km. The formula is written here once, over any arithmetic: a type
    of numbers with the integer literals, pi, the four operations, the
    square root and the functions sin, cos and atan2. It is read twice:
    over the Numbers of JavaScript, to be compared with [getDistance], and
    over the real numbers, to be compared with the length of an arc on a
    sphere. *)

Module Spec.

Record Arithmetic (T : Type) : Type := mkArithmetic {
  of_int : Z -> T;
  pi : T;
  add : T -> T -> T;
  sub : T -> T -> T;
  mul : T -> T -> T;
  div : T -> T -> T;
  sqrt : T -> T;
  sin : T -> T;
  cos : T -> T;
  atan2 : T -> T -> T
}.

Arguments of_int {T}.
Arguments pi {T}.
Arguments add {T}.
Arguments sub {T}.
Arguments mul {T}.
Arguments div {T}.
Arguments sqrt {T}.
Arguments sin {T}.
Arguments cos {T}.
Arguments atan2 {T}.

Section Haversine.
Context {T : Type} (A : Arithmetic T).

Local Notation "x + y" := (add A x y).
Local Notation "x - y" := (sub A x y).
Local Notation "x * y" := (mul A x y).
Local Notation "x / y" := (div A x y).

(** An angle given in degrees, in radians. *)
Definition radians (degrees : T) : T := degrees * pi A / of_int A 180.

(** The haversine formula on a sphere of the given radius, for two points
    given by latitude and longitude in degrees. With [phi] for a latitude
    and [lambda] for a longitude in radians:
    a = sin^2 (dphi / 2) + cos phi1 * cos phi2 * sin^2 (dlambda / 2),
    c = 2 * atan2 (sqrt a, sqrt (1 - a)) and d = radius * c. *)
Definition haversine (radius lat1 lon1 lat2 lon2 : T) : T :=
  let dphi := radians (lat2 - lat1) in
  let dlambda := radians (lon2 - lon1) in
  let a :=
    sin A (dphi / of_int A 2) * sin A (dphi / of_int A 2) +
    cos A (radians lat1) * cos A (radians lat2) *
    sin A (dlambda / of_int A 2) * sin A (dlambda / of_int A 2) in
  let c := of_int A 2 * atan2 A (sqrt A a) (sqrt A (of_int A 1 - a)) in
  radius * c.

Definition EARTH_RADIUS_KM : Z := 6371.

(** [distanceKm(a, b)] of the specification, [a] at [(lat1, lon1)] and [b]
    at [(lat2, lon2)]. *)
Definition distanceKm (lat1 lon1 lat2 lon2 : T) : T :=
  haversine (of_int A EARTH_RADIUS_KM) lat1 lon1 lat2 lon2.

End Haversine.

End Spec.

Section Binary64.
Context `{Libm}.

(** The arithmetic of the Numbers of JavaScript, with the functions of
    [Math]. *)
Definition binary64 : Spec.Arithmetic Number :=
  {| Spec.of_int := of_Z;
     Spec.pi := Math_PI;
     Spec.add := add;
     Spec.sub := sub;
     Spec.mul := mul;
     Spec.div := div;
     Spec.sqrt := sqrt;
     Spec.sin := Math_sin;
     Spec.cos := Math_cos;
     Spec.atan2 := Math_atan2 |}.

End Binary64.

(** The sphere: the arithmetic of the real numbers, and the length of the
    arc of a great circle between two points. *)
Module Sphere.
Import Reals.
Local Open Scope R_scope.

(** The angle of the point [(x, y)] of the plane, in the interval from -pi
    (excluded) to pi. *)
Definition atan2 (y x : R) : R :=
  if Rlt_dec 0 x then atan (y / x)
  else if Rlt_dec x 0 then
    if Rle_dec 0 y then atan (y / x) + PI else atan (y / x) - PI
  else if Rlt_dec 0 y then PI / 2
  else if Rlt_dec y 0 then - (PI / 2)
  else 0.

Definition reals : Spec.Arithmetic R :=
  {| Spec.of_int := IZR;
     Spec.pi := PI;
     Spec.add := Rplus;
     Spec.sub := Rminus;
     Spec.mul := Rmult;
     Spec.div := Rdiv;
     Spec.sqrt := sqrt;
     Spec.sin := sin;
     Spec.cos := cos;
     Spec.atan2 := atan2 |}.

Definition Vector : Type := R * R * R.

(** The point of the unit sphere at a latitude and a longitude given in
    degrees. *)
Definition place (lat lon : R) : Vector :=
  let phi := lat * PI / 180 in
  let lambda := lon * PI / 180 in
  (cos phi * cos lambda, cos phi * sin lambda, sin phi).

Definition dot (u v : Vector) : R :=
  let '(x, y, z) := u in
  let '(x', y', z') := v in
  x * x' + y * y' + z * z'.

(** The angle at the centre of the sphere between two of its points,
    between 0 and pi. *)
Definition central_angle (u v : Vector) : R := acos (dot u v).

(** The length of the arc of a great circle between the points [u] and [v]
    of the unit sphere, scaled to a sphere of the given radius. *)
Definition great_circle (radius : Z) (u v : Vector) : R :=
  IZR radius * central_angle u v.

End Sphere.

(* ================================================================= *)
(** ** The [Map] objects

    A JavaScript [Map] keeps its entries in insertion order, one per key:
    [set] on a key already present replaces the value where it stands, on a
    new key it appends; [forEach] visits the entries in that order. *)

Module JSMap.
Section Ops.
Context {V : Type}.

Definition t : Type := list (string * V).

Definition empty : t := [].

Fixpoint get (k : string) (m : t) : option V :=
  match m with
  | [] => None
  | (k', v) :: m' => if String.eqb k k' then Some v else get k m'
  end.

Fixpoint set (k : string) (v : V) (m : t) : t :=
  match m with
  | [] => [(k, v)]
  | (k', v') :: m' =>
      if String.eqb k k' then (k, v) :: m' else (k', v') :: set k v m'
  end.

Fixpoint delete (k : string) (m : t) : t :=
  match m with
  | [] => []
  | (k', v') :: m' =>
      if String.eqb k k' then m' else (k', v') :: delete k m'
  end.

Definition keys (m : t) : list string := map fst m.

(** The number of entries stored under [k]. *)
Definition count (k : string) (m : t) : nat :=
  List.length (filter (fun kv => String.eqb k (fst kv)) m).
End Ops.
Arguments t : clear implicits.
End JSMap.

(* ================================================================= *)
(** ** Data of the dispatch core *)

Definition SocketId : Type := string.
Definition UserId : Type := string.
Definition RequestId : Type := string.
Definition RideId : Type := Z.

(** A [{ lat, lng }] object. *)
Record Coord : Type := mkCoord { lat : Number; lng : Number }.

(** A connected socket: [socket.id] and the verified [socket.user.id]. *)
Record Socket : Type := mkSocket { id : SocketId; user_id : UserId }.

(** A value of [activeDrivers]. *)
Record Driver : Type := mkDriver {
  driverId : UserId;
  driver_lat : Number;
  driver_lng : Number
}.

(** A value of [rideRequests]. *)
Record Request : Type := mkRequest {
  passengerId : UserId;
  pickup : Coord;
  dropoff : Coord;
  fare : Fare;
  req_distance : Number;
  req_duration : Number
}.

(** The row handed to [supabase.from('rides').insert]. *)
Record RideRow : Type := mkRideRow {
  row_passenger_id : UserId;
  row_driver_id : UserId;
  row_pickup : Coord;
  row_dropoff : Coord;
  row_fare : Fare;
  row_status : string
}.

(** What the insert settles with: [{ data, error }]. [data] is [null] or an
    array of stored rows, of which the callback reads [data[0].id]. *)
Record Response : Type := mkResponse {
  data : option (list RideId);
  error : option string
}.

(** The messages the server emits. *)
Inductive Message : Type :=
| new_ride_request (requestId : RequestId) (pickup dropoff : Coord) (fare : Fare)
| request_sent (requestId : RequestId) (fare : Fare)
| ride_accepted (driverId : UserId) (driverLocation : Coord)
| ride_started (rideId : RideId).

(** [io.to(room).emit] addresses a room, [socket.emit] a socket. *)
Inductive Target : Type :=
| to_room (room : string)
| to_socket (sid : SocketId).

(** What a handler does to the outside and to the two maps, in program
    order. *)
Inductive Action : Type :=
| Emit (target : Target) (msg : Message)
| DbInsert (row : RideRow)
| DriversSet (k : SocketId) (d : Driver)
| DriversDelete (k : SocketId)
| RequestsSet (k : RequestId) (r : Request)
| RequestsDelete (k : RequestId).

(** A 'request-ride' handler suspended at its [await]: the variables its
    continuation closes over. *)
Record RouteAwait : Type := mkRouteAwait {
  ra_socket : Socket;
  ra_pickup : Coord;
  ra_dropoff : Coord;
  ra_distance : Number;
  ra_duration : Number
}.

(** An insert in flight: the variables its [then] callback closes over. *)
Record InsertThen : Type := mkInsertThen {
  it_socket : Socket;
  it_requestId : RequestId;
  it_request : Request;
  it_driver : Driver
}.

Record World : Type := mkWorld {
  activeDrivers : JSMap.t Driver;
  rideRequests : JSMap.t Request;
  awaiting : list RouteAwait;
  inserting : list InsertThen;
  trace : list Action
}.

Definition init : World :=
  {| activeDrivers := JSMap.empty;
     rideRequests := JSMap.empty;
     awaiting := [];
     inserting := [];
     trace := [] |}.

(* ================================================================= *)
(** ** Handlers

    A handler runs to completion on the event loop: it reads and writes the
    world, and completes normally or by throwing. *)

Inductive Completion (A : Type) : Type :=
| Normal (a : A)
| Throw (err : string).
Arguments Normal {A} a.
Arguments Throw {A} err.

Definition Handler (A : Type) : Type := World -> Completion A * World.

Definition ret {A} (a : A) : Handler A := fun w => (Normal a, w).

Definition bind {A B} (h : Handler A) (k : A -> Handler B) : Handler B :=
  fun w =>
    match h w with
    | (Normal a, w') => k a w'
    | (Throw err, w') => (Throw err, w')
    end.

Definition throw {A} (err : string) : Handler A := fun w => (Throw err, w).

Notation "x <- h ;; k" := (bind h (fun x => k))
  (at level 61, h at next level, right associativity).
Notation "h ;; k" := (bind h (fun _ => k))
  (at level 61, right associativity).

(** The world a handler leaves, however it completes. *)
Definition run {A} (h : Handler A) (w : World) : World := snd (h w).

Definition log (a : Action) (w : World) : World :=
  mkWorld (activeDrivers w) (rideRequests w) (awaiting w) (inserting w)
          (trace w ++ [a]).

Definition with_activeDrivers (m : JSMap.t Driver) (w : World) : World :=
  mkWorld m (rideRequests w) (awaiting w) (inserting w) (trace w).

Definition with_rideRequests (m : JSMap.t Request) (w : World) : World :=
  mkWorld (activeDrivers w) m (awaiting w) (inserting w) (trace w).

Definition with_awaiting (l : list RouteAwait) (w : World) : World :=
  mkWorld (activeDrivers w) (rideRequests w) l (inserting w) (trace w).

Definition with_inserting (l : list InsertThen) (w : World) : World :=
  mkWorld (activeDrivers w) (rideRequests w) (awaiting w) l (trace w).

(** [activeDrivers.get], [.set], [.delete] and [.forEach]. *)
Definition activeDrivers_get (k : SocketId) : Handler (option Driver) :=
  fun w => (Normal (JSMap.get k (activeDrivers w)), w).

Definition activeDrivers_set (k : SocketId) (d : Driver) : Handler unit :=
  fun w =>
    (Normal tt,
     log (DriversSet k d) (with_activeDrivers (JSMap.set k d (activeDrivers w)) w)).

Definition activeDrivers_delete (k : SocketId) : Handler unit :=
  fun w =>
    (Normal tt,
     log (DriversDelete k) (with_activeDrivers (JSMap.delete k (activeDrivers w)) w)).

Fixpoint for_each {V} (f : V -> string -> Handler unit) (m : JSMap.t V)
  : Handler unit :=
  match m with
  | [] => ret tt
  | (k, v) :: m' => f v k ;; for_each f m'
  end.

Definition activeDrivers_forEach (f : Driver -> SocketId -> Handler unit)
  : Handler unit :=
  fun w => for_each f (activeDrivers w) w.

(** [rideRequests.get], [.set] and [.delete]. *)
Definition rideRequests_get (k : RequestId) : Handler (option Request) :=
  fun w => (Normal (JSMap.get k (rideRequests w)), w).

Definition rideRequests_set (k : RequestId) (r : Request) : Handler unit :=
  fun w =>
    (Normal tt,
     log (RequestsSet k r) (with_rideRequests (JSMap.set k r (rideRequests w)) w)).

Definition rideRequests_delete (k : RequestId) : Handler unit :=
  fun w =>
    (Normal tt,
     log (RequestsDelete k) (with_rideRequests (JSMap.delete k (rideRequests w)) w)).

(** [io.to(room).emit(...)] and [socket.emit(...)]. *)
Definition emit (target : Target) (msg : Message) : Handler unit :=
  fun w => (Normal tt, log (Emit target msg) w).

(** [supabase.from('rides').insert(row).then(callback)]: the request goes
    out and the callback waits for it to settle. *)
Definition supabase_insert (row : RideRow) (callback : InsertThen)
  : Handler unit :=
  fun w =>
    (Normal tt, log (DbInsert row) (with_inserting (inserting w ++ [callback]) w)).

(** [await] in the 'request-ride' handler: the rest of the handler waits. *)
Definition await (continuation : RouteAwait) : Handler unit :=
  fun w => (Normal tt, with_awaiting (awaiting w ++ [continuation]) w).

Section Server.
Context `{Libm}.

Definition getRouteDistance (pickup dropoff : Coord) : Number * Number :=
  let distance :=
    getDistance (lat pickup) (lng pickup) (lat dropoff) (lng dropoff) in
  let duration := (distance * of_Z 2)%num in
  (distance, duration).

(** socket.on('driver-location') *)
Definition on_driver_location (socket : Socket) (lat lng : Number)
  : Handler unit :=
  activeDrivers_set (id socket)
    {| driverId := user_id socket; driver_lat := lat; driver_lng := lng |}.

(** socket.on('request-ride'), up to its [await]. *)
Definition on_request_ride (socket : Socket) (pickup dropoff : Coord)
  : Handler unit :=
  let '(distance, duration) := getRouteDistance pickup dropoff in
  await {| ra_socket := socket; ra_pickup := pickup; ra_dropoff := dropoff;
           ra_distance := distance; ra_duration := duration |}.

(** socket.on('request-ride'), from its [await] on. [requestId] is what
    [Math.random().toString(36).substr(2, 9)] evaluates to. *)
Definition request_ride_resume (k : RouteAwait) (requestId : RequestId)
  : Handler unit :=
  let socket := ra_socket k in
  let pickup := ra_pickup k in
  let dropoff := ra_dropoff k in
  let fare := calculateFare (ra_distance k) (ra_duration k) in
  rideRequests_set requestId
    {| passengerId := user_id socket; pickup := pickup; dropoff := dropoff;
       fare := fare; req_distance := ra_distance k;
       req_duration := ra_duration k |} ;;
  activeDrivers_forEach (fun driver driverSocketId =>
    let distanceToPickup :=
      getDistance (driver_lat driver) (driver_lng driver)
                  (lat pickup) (lng pickup) in
    if (distanceToPickup <? of_Z 5)%num
    then emit (to_room driverSocketId)
              (new_ride_request requestId pickup dropoff fare)
    else ret tt) ;;
  emit (to_socket (id socket)) (request_sent requestId fare).

(** socket.on('accept-ride'), up to the insert. *)
Definition on_accept_ride (socket : Socket) (requestId : RequestId)
  : Handler unit :=
  request <- rideRequests_get requestId ;;
  match request with
  | None => ret tt
  | Some request =>
      driver <- activeDrivers_get (id socket) ;;
      match driver with
      | None => ret tt
      | Some driver =>
          supabase_insert
            {| row_passenger_id := passengerId request;
               row_driver_id := driverId driver;
               row_pickup := pickup request;
               row_dropoff := dropoff request;
               row_fare := fare request;
               row_status := "accepted" |}
            {| it_socket := socket; it_requestId := requestId;
               it_request := request; it_driver := driver |}
      end
  end.

(** The [then] callback of the insert. Reading [data[0].id] throws a
    TypeError when [data] is [null] or an empty array. *)
Definition insert_then (k : InsertThen) (response : Response)
  : Handler unit :=
  let socket := it_socket k in
  let request := it_request k in
  let driver := it_driver k in
  match error response with
  | Some _ => ret tt
  | None =>
      emit (to_room (passengerId request))
           (ride_accepted (driverId driver)
              {| lat := driver_lat driver; lng := driver_lng driver |}) ;;
      match data response with
      | Some (rideId :: _) =>
          emit (to_socket (id socket)) (ride_started rideId) ;;
          rideRequests_delete (it_requestId k)
      | _ => throw "TypeError"
      end
  end.

(** socket.on('disconnect') *)
Definition on_disconnect (socket : Socket) : Handler unit :=
  activeDrivers_delete (id socket).

(** *** The event loop *)

(** What the loop can be given: the four socket events, the resumption of a
    'request-ride' handler with the request id it draws, and the settlement
    of an insert with the database's response. *)
Inductive Event : Type :=
| driver_location (socket : Socket) (lat lng : Number)
| request_ride (socket : Socket) (pickup dropoff : Coord)
| route_resolved (i : nat) (requestId : RequestId)
| accept_ride (socket : Socket) (requestId : RequestId)
| insert_settled (i : nat) (response : Response)
| disconnect (socket : Socket).

Fixpoint remove_nth {A} (i : nat) (l : list A) : list A :=
  match l, i with
  | [], _ => []
  | _ :: l', O => l'
  | x :: l', S i' => x :: remove_nth i' l'
  end.

(** One turn of the event loop: a socket event is handled, or a pending
    continuation (the [i]-th of its queue) is resumed. The loop is free to
    resume the continuations in any order and at any time; the order of the
    runtime (an awaited handler resumes before the next socket event, an
    insert settles when the database answers) is one of them. *)
Definition step (e : Event) (w : World) : World :=
  match e with
  | driver_location socket lat lng => run (on_driver_location socket lat lng) w
  | request_ride socket pickup dropoff =>
      run (on_request_ride socket pickup dropoff) w
  | route_resolved i requestId =>
      match nth_error (awaiting w) i with
      | Some k =>
          run (request_ride_resume k requestId)
              (with_awaiting (remove_nth i (awaiting w)) w)
      | None => w
      end
  | accept_ride socket requestId => run (on_accept_ride socket requestId) w
  | insert_settled i response =>
      match nth_error (inserting w) i with
      | Some k =>
          run (insert_then k response)
              (with_inserting (remove_nth i (inserting w)) w)
      | None => w
      end
  | disconnect socket => run (on_disconnect socket) w
  end.

Definition steps (es : list Event) (w : World) : World :=
  fold_left (fun w e => step e w) es w.

Inductive reachable : World -> Prop :=
| reachable_init : reachable init
| reachable_step e w : reachable w -> reachable (step e w).

End Server.

(* ================================================================= *)
(** ** Vocabulary of the statements *)

(** What a handler run from [w] appends to the trace. *)
Definition performed {A} (h : Handler A) (w : World) : list Action :=
  skipn (List.length (trace w)) (trace (run h w)).

Definition is_emit (a : Action) : bool :=
  match a with Emit _ _ => true | _ => false end.

Definition is_ledger_write (a : Action) : bool :=
  match a with RequestsSet _ _ | RequestsDelete _ => true | _ => false end.

(** No write to the ledger comes after an emission. *)
Fixpoint emits_after_ledger_writes (acts : list Action) : bool :=
  match acts with
  | [] => true
  | a :: rest =>
      (if is_emit a then forallb (fun b => negb (is_ledger_write b)) rest
       else true)
      && emits_after_ledger_writes rest
  end.

(** The rooms a 'new-ride-request' is emitted to, in order. A socket is in
    the room named by its own [socket.id]; the server joins no other room. *)
Definition notified (acts : list Action) : list string :=
  flat_map (fun a =>
              match a with
              | Emit (to_room room) (new_ride_request _ _ _ _) => [room]
              | _ => []
              end) acts.

(** A run of 'driver-location' events of one socket. *)
Definition report_all (socket : Socket) (reports : list (Number * Number))
    (w : World) : World :=
  fold_left (fun w r => run (on_driver_location socket (fst r) (snd r)) w)
            reports w.

(** An event is delivered at some time [now] of the clock. No handler of
    the dispatch core reads the clock. *)
Definition deliver `{Libm} (now : Z) (e : Event) (w : World) : World :=
  step e w.

(** Both maps hold one entry per key. *)
Definition well_formed (w : World) : Prop :=
  NoDup (JSMap.keys (activeDrivers w)) /\ NoDup (JSMap.keys (rideRequests w)).

Section Broadcast.
Context `{Libm}.

(** The test of the broadcast loop: [distanceToPickup < 5]. *)
Definition within_5km (pickup : Coord) (driver : Driver) : bool :=
  (getDistance (driver_lat driver) (driver_lng driver)
               (lat pickup) (lng pickup) <? of_Z 5)%num.

Definition broadcast (requestId : RequestId) (pickup dropoff : Coord)
    (fare : Fare) (drivers : JSMap.t Driver) : list Action :=
  map (fun kv => Emit (to_room (fst kv))
                      (new_ride_request requestId pickup dropoff fare))
      (filter (fun kv => within_5km pickup (snd kv)) drivers).

(** The entry 'request-ride' stores for the continuation [k]. *)
Definition request_of (k : RouteAwait) : Request :=
  {| passengerId := user_id (ra_socket k);
     pickup := ra_pickup k;
     dropoff := ra_dropoff k;
     fare := calculateFare (ra_distance k) (ra_duration k);
     req_distance := ra_distance k;
     req_duration := ra_duration k |}.
End Broadcast.

(** The row 'accept-ride' inserts for [request] and [driver]. *)
Definition row_of (request : Request) (driver : Driver) : RideRow :=
  {| row_passenger_id := passengerId request;
     row_driver_id := driverId driver;
     row_pickup := pickup request;
     row_dropoff := dropoff request;
     row_fare := fare request;
     row_status := "accepted" |}.

(* ================================================================= *)
(** ** Vocabulary of the statements about whole runs *)

Definition is_nan (x : Number) : bool :=
  match x with S754_nan => true | _ => false end.

(** The values the language fixes at NaN: [Math.sin(NaN)] and
    [Math.atan2(NaN, x)] are NaN. *)
Class LibmNaN `{Libm} : Prop := {
  sin_nan : Math_sin S754_nan = S754_nan;
  atan2_nan : forall x, Math_atan2 S754_nan x = S754_nan
}.

(** The value of the mantissa [m] at the exponent [e], scaled by 2^3000:
    an integer for every exponent of a binary64 product or sum. *)
Definition scaled (m e : Z) : Z := m * 2 ^ (e + 3000).

(** [x] is +Infinity or a finite positive Number, with a 53-bit mantissa
    and an exponent of the format, of value at least that of [mc] at
    [ec]. *)
Definition at_least (mc : positive) (ec : Z) (x : Number) : Prop :=
  match x with
  | S754_infinity false => True
  | S754_finite false m e =>
      Z.pos m < 2 ^ prec /\ -1074 <= e /\
      scaled (Z.pos mc) ec <= scaled (Z.pos m) e
  | _ => False
  end.

(** [x] is a zero, +Infinity, or a finite positive Number with an exponent
    of the format. *)
Definition positive_or_zero (x : Number) : Prop :=
  match x with
  | S754_zero _ | S754_infinity false => True
  | S754_finite false _ e => -1074 <= e
  | _ => False
  end.

(** The fare of a trip whose distance is NaN. *)
Definition NaN_fare : Fare :=
  {| base := of_Z 50; distance := S754_nan; time := S754_nan;
     commission := S754_nan; total := S754_nan |}.

(** 'driver-location' and 'disconnect': the events that write the
    registry. *)
Definition registry_event (e : Event) : bool :=
  match e with
  | driver_location _ _ _ | disconnect _ => true
  | _ => false
  end.

(** What the events [es], handled in this order from the start of the
    server, leave in the registry for the socket id [sid]: its last report,
    unless it disconnected since. *)
Definition last_report (sid : SocketId) (es : list Event) : option Driver :=
  fold_left
    (fun entry e =>
       match e with
       | driver_location socket lat lng =>
           if String.eqb (id socket) sid
           then Some {| driverId := user_id socket;
                        driver_lat := lat; driver_lng := lng |}
           else entry
       | disconnect socket =>
           if String.eqb (id socket) sid then None else entry
       | _ => entry
       end)
    es None.

Section Provenance.
Context `{Libm}.

(** [d] is what a 'driver-location' event of [es] stores under [sid]. *)
Definition reported (es : list Event) (sid : SocketId) (d : Driver) : Prop :=
  exists socket,
    In (driver_location socket (driver_lat d) (driver_lng d)) es /\
    id socket = sid /\ driverId d = user_id socket.

(** [r] is what a 'request-ride' event of [es] stores. *)
Definition requested (es : list Event) (r : Request) : Prop :=
  exists socket,
    In (request_ride socket (pickup r) (dropoff r)) es /\
    passengerId r = user_id socket /\
    req_distance r =
      getDistance (lat (pickup r)) (lng (pickup r))
                  (lat (dropoff r)) (lng (dropoff r)) /\
    req_duration r = (req_distance r * of_Z 2)%num /\
    fare r = calculateFare (req_distance r) (req_duration r).

(** Everything the world holds stems from the events handled so far. *)
Record grounded (es : list Event) (w : World) : Prop := {
  grounded_drivers : forall sid d,
    In (sid, d) (activeDrivers w) -> reported es sid d;
  grounded_awaiting : forall k,
    In k (awaiting w) -> requested es (request_of k);
  grounded_requests : forall rid r,
    In (rid, r) (rideRequests w) -> requested es r;
  grounded_inserting : forall k,
    In k (inserting w) ->
    requested es (it_request k) /\
    reported es (id (it_socket k)) (it_driver k);
  grounded_rows : forall row,
    In (DbInsert row) (trace w) ->
    exists r sid d, row = row_of r d /\ requested es r /\ reported es sid d
}.

(** Every 'ride-accepted' of the trace is addressed to the room named by
    the passenger of a request made in [es]. *)
Definition addressed (es : list Event) (w : World) : Prop :=
  forall target driver location,
    In (Emit target (ride_accepted driver location)) (trace w) ->
    exists r, requested es r /\ target = to_room (passengerId r).
End Provenance.

(** Every 'ride-accepted' of [acts] comes after the insert of a row for that
    passenger and that driver. *)
Definition accepted_after_insert (acts : list Action) : Prop :=
  forall pre post target driver location,
    acts = pre ++ Emit target (ride_accepted driver location) :: post ->
    exists row,
      In (DbInsert row) pre /\
      target = to_room (row_passenger_id row) /\
      row_driver_id row = driver.

(** Every insert in flight has been sent, and the trace is ordered as
    [accepted_after_insert] says. *)
Definition sent_and_ordered (w : World) : Prop :=
  (forall k, In k (inserting w) ->
             In (DbInsert (row_of (it_request k) (it_driver k))) (trace w)) /\
  accepted_after_insert (trace w).

(** The rooms a socket is in: socket.io puts a socket in the room named by
    its own id, and the server calls [join] nowhere. *)
Definition rooms (socket : Socket) : list string := [id socket].

(** The socket is among those an emission to [target] goes to. *)
Definition receives (socket : Socket) (target : Target) : bool :=
  match target with
  | to_room room => existsb (String.eqb room) (rooms socket)
  | to_socket sid => String.eqb sid (id socket)
  end.

(* ================================================================= *)
(** ** A concrete run

    Three drivers, a passenger and her request, used where a statement is
    evaluated on explicit data. *)

Module Scenario.
Local Open Scope string_scope.

Definition alice : Socket := {| id := "sock-alice"; user_id := "alice" |}.
Definition bob : Socket := {| id := "sock-bob"; user_id := "bob" |}.
Definition carol : Socket := {| id := "sock-carol"; user_id := "carol" |}.
Definition dave : Socket := {| id := "sock-dave"; user_id := "dave" |}.

(** A value of [Math.random().toString(36).substr(2, 9)]. *)
Definition k3j9x0q1z : RequestId := "k3j9x0q1z".

(** bob is at (1, 1), carol a hundredth of a degree east of him, dave a
    degree north. *)
Definition bob_entry : Driver :=
  {| driverId := "bob"; driver_lat := of_Z 1; driver_lng := of_Z 1 |}.
Definition carol_entry : Driver :=
  {| driverId := "carol"; driver_lat := of_Z 1;
     driver_lng := (of_Z 101 / of_Z 100)%num |}.
Definition dave_entry : Driver :=
  {| driverId := "dave"; driver_lat := of_Z 2; driver_lng := of_Z 1 |}.

(** The three drivers have reported a position; the ledger is empty. *)
Definition registered : World :=
  {| activeDrivers := [("sock-bob", bob_entry); ("sock-carol", carol_entry);
                       ("sock-dave", dave_entry)];
     rideRequests := [];
     awaiting := [];
     inserting := [];
     trace := [] |}.

(** alice's 'request-ride' from (1, 1) to (1, 1.09), waiting at its [await]
    with distance 10 and duration 20. *)
Definition route : RouteAwait :=
  {| ra_socket := alice;
     ra_pickup := mkCoord (of_Z 1) (of_Z 1);
     ra_dropoff := mkCoord (of_Z 1) (of_Z 109 / of_Z 100)%num;
     ra_distance := of_Z 10;
     ra_duration := of_Z 20 |}.

(** Another 'request-ride', of bob as a passenger, waiting at its [await]. *)
Definition route_of_bob : RouteAwait :=
  {| ra_socket := bob;
     ra_pickup := mkCoord (of_Z 2) (of_Z 2);
     ra_dropoff := mkCoord (of_Z 2) (of_Z 3);
     ra_distance := of_Z 111;
     ra_duration := of_Z 222 |}.

(** alice's request as the ledger holds it once the handler has resumed. *)
Definition trip : Request := request_of route.

(** The drivers have reported a position and the trip is in the ledger. *)
Definition pending : World :=
  {| activeDrivers := activeDrivers registered;
     rideRequests := [(k3j9x0q1z, trip)];
     awaiting := [];
     inserting := [];
     trace := [] |}.

(** The insert settles without error and returns the stored row. *)
Definition stored (rideId : RideId) : Response :=
  {| data := Some [rideId]; error := None |}.

(** A crude implementation of the transcendental functions, exact at the
    arguments the language fixes: sin x = x, cos x = 1, atan2 y x = y / x. *)
Definition small_angle : Libm :=
  {| Math_sin := fun x => x;
     Math_cos := fun _ => of_Z 1;
     Math_atan2 := fun y x => div y x |}.
End Scenario.

(* ================================================================= *)
(** ** The REST routes and the two authentication middlewares

    Supabase is outside the server. A route is modelled over any backend
    that answers [supabase.auth.getUser] and the table queries, one answer
    and one new backend state per call, and the calls a route makes are
    recorded in the order it makes them. *)

Declare Scope route_scope.
Delimit Scope route_scope with route.

Module Rest.
Local Open Scope string_scope.

(** [s.split(sep)] for a separator of one character. *)
Fixpoint split (sep : ascii) (s : string) : list string :=
  match s with
  | EmptyString => [EmptyString]
  | String c s' =>
      if Ascii.eqb c sep then EmptyString :: split sep s'
      else
        match split sep s' with
        | [] => [String c EmptyString]
        | word :: words => String c word :: words
        end
  end.

(** The JavaScript values the routes pass around: request bodies, rows,
    reply bodies. *)
#[warnings="-register-all"]
Inductive Value : Type :=
| Undefined
| Null
| Boolean (b : bool)
| Num (n : Number)
| Str (s : string)
| Date (ms : Z)
| Array (items : list Value)
| Object (fields : list (string * Value)).

(** [v[name]] for a name that is no built-in property: a TypeError on
    [undefined] and [null], [undefined] where the property is missing. *)
Definition get_property (v : Value) (name : string) : Completion Value :=
  match v with
  | Undefined | Null => Throw "TypeError"
  | Object fields =>
      match JSMap.get name fields with
      | Some x => Normal x
      | None => Normal Undefined
      end
  | _ => Normal Undefined
  end.

(** [v !== s] for a string [s]. *)
Definition strict_neq (v : Value) (s : string) : bool :=
  match v with
  | Str s' => negb (String.eqb s' s)
  | _ => true
  end.

(** An error object of supabase, or [new Error(message)]. *)
Record Error : Type := mkError { message : string }.

(** The [user] of [supabase.auth.getUser]. *)
Record User : Type := mkUser { id : UserId }.

(** [{ data: { user }, error }] *)
Record AuthResponse : Type := mkAuthResponse {
  auth_user : option User;
  auth_error : option Error
}.

(** [{ data, error }] of a table query. *)
Record DbResponse : Type := mkDbResponse {
  data : Value;
  error : option Error
}.

(** The table queries the routes build:
    [from(table).select('*').eq('id', id).single()],
    [from(table).update(values).eq('id', id).select().single()] and
    [from(table).select('*').or(filters).order(column, { ascending })]. *)
Inductive Query : Type :=
| select_single (table : string) (id : string)
| update_single (table : string) (values : list (string * Value)) (id : string)
| select_or_order (table filters column : string) (ascending : bool).

Inductive Call : Type :=
| Auth (token : string)
| Table (q : Query).

Class Supabase (DB : Type) : Type := {
  auth_getUser : string -> DB -> AuthResponse * DB;
  execute : Query -> DB -> DbResponse * DB
}.

(** [req]: the Authorization header, the parsed body, [req.params.id], and
    the [user] and [token] that [verifyToken] attaches. *)
Record Req : Type := mkReq {
  headers_authorization : option string;
  body : Value;
  params_id : string;
  user : option User;
  token : option string
}.

(** [res.status(status).json(json)]; [res.json] replies with status 200. *)
Record Reply : Type := mkReply { status : Z; json : Value }.

Section Routes.
Context {DB : Type} `{Supabase DB}.

(** The backend and the calls made to it so far. *)
Record Server : Type := mkServer { db : DB; calls : list Call }.

Definition Route (A : Type) : Type := Server -> Completion A * Server.

Definition ret {A} (a : A) : Route A := fun s => (Normal a, s).

Definition bind {A B} (h : Route A) (k : A -> Route B) : Route B :=
  fun s =>
    match h s with
    | (Normal a, s') => k a s'
    | (Throw err, s') => (Throw err, s')
    end.

Definition lift {A} (c : Completion A) : Route A := fun s => (c, s).

Notation "x <- h ;; k" := (bind h (fun x => k))
  (at level 61, h at next level, right associativity) : route_scope.
Local Open Scope route_scope.

(** [await supabase.auth.getUser(token)] *)
Definition supabase_auth_getUser (token : string) : Route AuthResponse :=
  fun s =>
    let '(r, db') := auth_getUser token (db s) in
    (Normal r, {| db := db'; calls := (calls s ++ [Auth token])%list |}).

(** [await supabase.from(...)...] *)
Definition supabase_from (q : Query) : Route DbResponse :=
  fun s =>
    let '(r, db') := execute q (db s) in
    (Normal r, {| db := db'; calls := (calls s ++ [Table q])%list |}).

Definition res_status_json (status : Z) (json : Value) : Route Reply :=
  ret {| status := status; json := json |}.

Definition res_json (json : Value) : Route Reply := res_status_json 200 json.

(** [req.user.id] *)
Definition req_user_id (req : Req) : Route UserId :=
  match user req with
  | Some u => ret (id u)
  | None => lift (Throw "TypeError")
  end.

(** [req.headers.authorization?.split(' ')[1]] *)
Definition bearer (authorization : option string) : option string :=
  match authorization with
  | None => None
  | Some header => nth_error (split " " header) 1
  end.

(** [!token] for a token that is a string or [undefined]. *)
Definition falsy (token : option string) : bool :=
  match token with
  | None | Some "" => true
  | Some _ => false
  end.

Definition verifyToken (req : Req) (next : Req -> Route Reply) : Route Reply :=
  match bearer (headers_authorization req) with
  | None | Some "" =>
      res_status_json 401 (Object [("error", Str "No token provided")])
  | Some token =>
      r <- supabase_auth_getUser token ;;
      match auth_error r with
      | Some _ => res_status_json 401 (Object [("error", Str "Invalid token")])
      | None =>
          next {| headers_authorization := headers_authorization req;
                  body := body req;
                  params_id := params_id req;
                  user := auth_user r;
                  token := Some token |}
      end
  end.

(** app.get('/profile') *)
Definition get_profile (req : Req) : Route Reply :=
  uid <- req_user_id req ;;
  r <- supabase_from (select_single "profiles" uid) ;;
  match error r with
  | Some e => res_status_json 400 (Object [("error", Str (message e))])
  | None => res_json (data r)
  end.

(** app.post('/switch-role') *)
Definition post_switch_role (req : Req) : Route Reply :=
  role <- lift (get_property (body req) "role") ;;
  uid <- req_user_id req ;;
  r <- supabase_from (update_single "profiles" [("current_role", role)] uid) ;;
  match error r with
  | Some e => res_status_json 400 (Object [("error", Str (message e))])
  | None => res_json (data r)
  end.

(** app.get('/rides') *)
Definition get_rides (req : Req) : Route Reply :=
  uid <- req_user_id req ;;
  r <- supabase_from
         (select_or_order "rides"
            ("passenger_id.eq." ++ uid ++ ",driver_id.eq." ++ uid)
            "created_at" false) ;;
  match error r with
  | Some e => res_status_json 400 (Object [("error", Str (message e))])
  | None => res_json (data r)
  end.

(** app.post('/rides/:id/complete'); [now] is what [new Date()] reads. *)
Definition post_rides_complete (now : Z) (req : Req) : Route Reply :=
  let id := params_id req in
  fetched <- supabase_from (select_single "rides" id) ;;
  match error fetched with
  | Some _ => res_status_json 404 (Object [("error", Str "Ride not found")])
  | None =>
      let ride := data fetched in
      driver_id <- lift (get_property ride "driver_id") ;;
      uid <- req_user_id req ;;
      if strict_neq driver_id uid
      then res_status_json 403 (Object [("error", Str "Not authorized")])
      else
        r <- supabase_from
               (update_single "rides"
                  [("status", Str "completed"); ("ended_at", Date now)] id) ;;
        match error r with
        | Some e => res_status_json 400 (Object [("error", Str (message e))])
        | None => res_json (data r)
        end
  end.

(** The routes [app] registers, each behind [verifyToken]. *)
Inductive Endpoint : Type :=
| GET_profile
| POST_switch_role
| GET_rides
| POST_rides_complete.

Definition app (now : Z) (endpoint : Endpoint) (req : Req) : Route Reply :=
  verifyToken req
    match endpoint with
    | GET_profile => get_profile
    | POST_switch_role => post_switch_role
    | GET_rides => get_rides
    | POST_rides_complete => post_rides_complete now
    end.

(** What [next] is called with by the middleware of [io.use]. *)
Inductive Admission : Type :=
| refused (err : Error)
| admitted (socket_user : option User).

(** io.use: [token] is [socket.handshake.auth.token]. *)
Definition io_use (token : option string) : Route Admission :=
  match token with
  | None | Some "" => ret (refused {| message := "Authentication required" |})
  | Some token =>
      r <- supabase_auth_getUser token ;;
      match auth_error r with
      | Some e => ret (refused e)
      | None => ret (admitted (auth_user r))
      end
  end.

(** A connection attempt: the middleware, then, for an admitted socket, the
    'connection' listener, which reads [socket.user.id] and registers the
    handlers of the dispatch core on the socket. *)
Definition connect (socket_id : SocketId) (token : option string)
  : Route (option Socket) :=
  a <- io_use token ;;
  match a with
  | refused _ => ret None
  | admitted None => lift (Throw "TypeError")
  | admitted (Some u) => ret (Some (mkSocket socket_id (id u)))
  end.

(** The calls a route adds to those already made. *)
Definition issued {A} (h : Route A) (s : Server) : list Call :=
  skipn (List.length (calls s)) (calls (snd (h s))).

End Routes.
Arguments Server DB : clear implicits.
Arguments Route DB A : clear implicits.

(** The query reads or writes rows of the user [uid] alone: the profile
    row with that id, of which it writes [current_role] only, or the rides
    that name the user as passenger or as driver. *)
Definition scoped_to (uid : UserId) (q : Query) : Prop :=
  match q with
  | select_single table id => table = "profiles" /\ id = uid
  | update_single table values id =>
      table = "profiles" /\ id = uid /\ map fst values = ["current_role"]
  | select_or_order table filters _ _ =>
      table = "rides" /\
      filters = "passenger_id.eq." ++ uid ++ ",driver_id.eq." ++ uid
  end.

(** The header the app sends with a request to a route: the template
    [`Bearer ${token}`], where [token] is a string or [undefined]. *)
Definition Authorization (token : option string) : string :=
  "Bearer " ++ match token with Some t => t | None => "undefined" end.

(** No character of [s] is a space. *)
Definition no_space (s : string) : bool :=
  forallb (fun c => negb (Ascii.eqb c " ")) (list_ascii_of_string s).

End Rest.

(** A backend held in memory, for the statements evaluated on explicit
    data: the users by token and the rides by id. *)
Module RestScenario.
Import Rest.
Local Open Scope string_scope.

Record Tables : Type := mkTables {
  sessions : list (string * User);
  rides : list (string * Value)
}.

Definition lookup_user (token : string) (t : Tables) : AuthResponse * Tables :=
  match JSMap.get token (sessions t) with
  | Some u => ({| auth_user := Some u; auth_error := None |}, t)
  | None =>
      ({| auth_user := None;
          auth_error := Some {| message := "invalid JWT" |} |}, t)
  end.

Definition run_query (q : Query) (t : Tables) : DbResponse * Tables :=
  match q with
  | select_single "rides" id =>
      match JSMap.get id (rides t) with
      | Some ride => ({| data := ride; error := None |}, t)
      | None =>
          ({| data := Null; error := Some {| message := "no rows" |} |}, t)
      end
  | update_single "rides" values id =>
      match JSMap.get id (rides t) with
      | Some (Object fields) =>
          let ride :=
            Object (fold_left (fun fs kv => JSMap.set (fst kv) (snd kv) fs)
                              values fields) in
          ({| data := ride; error := None |},
           {| sessions := sessions t; rides := JSMap.set id ride (rides t) |})
      | _ => ({| data := Null; error := Some {| message := "no rows" |} |}, t)
      end
  | _ => ({| data := Array []; error := None |}, t)
  end.

Definition memory : Supabase Tables :=
  {| auth_getUser := lookup_user; execute := run_query |}.

(** bob holds the token "t-bob" and drives the ride "r1" of alice. *)
Definition tables : Tables :=
  {| sessions := [("t-bob", mkUser "bob"); ("t-carol", mkUser "carol")];
     rides := [("r1", Object [("id", Str "r1");
                              ("passenger_id", Str "alice");
                              ("driver_id", Str "bob");
                              ("status", Str "accepted")])] |}.

Definition start : Server Tables := {| db := tables; calls := [] |}.

(** A request that carries [token] the way the app sends it. *)
Definition request (token : option string) (ride : string) : Req :=
  {| headers_authorization := Some (Authorization token);
     body := Object [("role", Str "driver")];
     params_id := ride;
     user := None;
     token := None |}.
End RestScenario.

(* ================================================================= *)
(** ** Properties of Numbers *)

Module NumberFacts.

Lemma neg_involutive x : neg (neg x) = x.
Proof. destruct x; simpl; now rewrite ?negb_involutive. Qed.

Lemma binary_round_aux_neg s m e l :
  binary_round_aux prec emax (negb s) m e l
  = neg (binary_round_aux prec emax s m e l).
Proof.
  unfold binary_round_aux.
  destruct (shr_fexp prec emax m e l) as [mrs' e'].
  destruct (shr_fexp prec emax _ e' loc_Exact) as [mrs'' e''].
  destruct (shr_m mrs''); [reflexivity| |reflexivity].
  now destruct (e'' <=? emax - prec).
Qed.

Lemma binary_round_neg s m e :
  binary_round prec emax (negb s) m e = neg (binary_round prec emax s m e).
Proof.
  unfold binary_round. destruct (shl_align _ _ _).
  apply binary_round_aux_neg.
Qed.

Lemma binary_normalize_opp m e :
  m <> 0 ->
  binary_normalize prec emax (- m) e false
  = neg (binary_normalize prec emax m e false).
Proof.
  destruct m; [congruence| |]; intros _; simpl.
  - apply (binary_round_neg false).
  - rewrite <- (binary_round_neg true). reflexivity.
Qed.

Lemma mul_neg_l x y : mul (neg x) y = neg (mul x y).
Proof.
  destruct x as [sx|sx| |sx mx ex], y as [sy|sy| |sy my ey]; simpl;
    try reflexivity; try (now rewrite <- negb_xorb_l).
  rewrite <- negb_xorb_l. apply binary_round_aux_neg.
Qed.

Lemma mul_comm x y : mul x y = mul y x.
Proof.
  destruct x as [sx|sx| |sx mx ex], y as [sy|sy| |sy my ey]; simpl;
    try reflexivity; try (now rewrite xorb_comm).
  now rewrite xorb_comm, Pos.mul_comm, Z.add_comm.
Qed.

Lemma mul_neg_r x y : mul x (neg y) = neg (mul x y).
Proof. now rewrite mul_comm, mul_neg_l, mul_comm. Qed.

Lemma mul_neg_neg x y : mul (neg x) (neg y) = mul x y.
Proof. now rewrite mul_neg_l, mul_neg_r, neg_involutive. Qed.

Lemma div_neg_l x y : div (neg x) y = neg (div x y).
Proof.
  destruct x as [sx|sx| |sx mx ex], y as [sy|sy| |sy my ey]; simpl;
    try reflexivity; try (now rewrite <- negb_xorb_l).
  destruct (SFdiv_core_binary prec emax (Z.pos mx) ex (Z.pos my) ey) as [[mz ez] lz].
  rewrite <- negb_xorb_l. apply binary_round_aux_neg.
Qed.

Lemma sub_swap x y :
  sub y x = neg (sub x y) \/ (sub x y = pos_zero /\ sub y x = pos_zero).
Proof.
  destruct x as [sx|sx| |sx mx ex], y as [sy|sy| |sy my ey]; simpl;
    try (left; reflexivity);
    try (destruct sx, sy; simpl; auto; fail).
  rewrite (Z.min_comm ey ex).
  set (a := cond_Zopp sx _). set (b := cond_Zopp sy _).
  destruct (Z.eq_dec (a - b) 0) as [E|E].
  - right. replace (b - a) with 0 by lia. rewrite E. now split.
  - left. replace (b - a) with (- (a - b)) by lia.
    now apply binary_normalize_opp.
Qed.

Lemma sub_diag x : is_finite x = true -> sub x x = pos_zero.
Proof.
  destruct x as [s|s| |s m e]; simpl; try discriminate; intros _.
  - now destruct s.
  - now rewrite Z.sub_diag.
Qed.


(** The two irrational-looking constants are the binary64 values of the
    language: 0.2 is what 2 / 10 rounds to, and [Math.PI] agrees with pi to
    15 decimal places. *)
Lemma lit_0_2_is_2_over_10 : lit_0_2 = div (of_Z 2) (of_Z 10).
Proof. vm_compute. reflexivity. Qed.

Lemma Math_PI_digits :
  (3141592653589793 # 1000000000000000 <= to_Q Math_PI)%Q /\
  (to_Q Math_PI < 3141592653589794 # 1000000000000000)%Q.
Proof. split; vm_compute; [discriminate | reflexivity]. Qed.

(** *** Digits *)

Lemma digits2_pos_size p : digits2_pos p = Pos.size p.
Proof. induction p; simpl; congruence. Qed.

Lemma digits_gt p : Z.pos p < 2 ^ Z.pos (digits2_pos p).
Proof.
  rewrite digits2_pos_size. pose proof (Pos.size_gt p) as Hp.
  apply Pos2Z.pos_lt_pos in Hp. now rewrite Pos2Z.inj_pow in Hp.
Qed.

Lemma digits_le p : 2 ^ Z.pos (digits2_pos p) <= 2 * Z.pos p.
Proof.
  rewrite digits2_pos_size. pose proof (Pos.size_le p) as Hp.
  apply Pos2Z.pos_le_pos in Hp. now rewrite Pos2Z.inj_pow in Hp.
Qed.

Lemma Zdigits2_bound m k :
  0 <= m -> 0 <= k -> (Zdigits2 m <= k <-> m < 2 ^ k).
Proof.
  intros Hm Hk. destruct m as [|p|p]; [| |lia]; simpl.
  - split; intros _; [apply Z.pow_pos_nonneg|]; lia.
  - pose proof (digits_gt p) as Hgt. pose proof (digits_le p) as Hle.
    split; intros Hb.
    + eapply Z.lt_le_trans; [exact Hgt|].
      apply Z.pow_le_mono_r; lia.
    + destruct (Z_le_gt_dec (Z.pos (digits2_pos p)) k) as [|Hgt']; [assumption|].
      exfalso.
      assert (2 ^ (k + 1) <= 2 ^ Z.pos (digits2_pos p))
        by (apply Z.pow_le_mono_r; lia).
      rewrite Z.pow_add_r in H by lia. lia.
Qed.

Lemma Zdigits2_nonneg m : 0 <= Zdigits2 m.
Proof. destruct m; simpl; lia. Qed.

(** *** Shifting to the right *)

Lemma shr_1_div2 mrs :
  0 <= shr_m mrs -> shr_m (shr_1 mrs) = shr_m mrs / 2.
Proof.
  destruct mrs as [m r s]. simpl. intros Hm.
  destruct m as [|[p|p|]|p]; simpl; try lia; try reflexivity.
  - rewrite Pos2Z.inj_xI. apply Z.div_unique with 1; lia.
  - rewrite Pos2Z.inj_xO. apply Z.div_unique with 0; lia.
Qed.

Lemma iter_shr_1_div p mrs :
  0 <= shr_m mrs ->
  shr_m (iter_pos shr_1 p mrs) = shr_m mrs / 2 ^ Z.pos p.
Proof.
  revert mrs. induction p as [p IH|p IH|]; intros mrs Hm; simpl iter_pos.
  - assert (E : 2 ^ Z.pos p~1 = 2 * 2 ^ Z.pos p * 2 ^ Z.pos p).
    { rewrite Pos2Z.inj_xI, <- Z.mul_assoc, <- Z.pow_add_r, <- Z.pow_succ_r by lia.
      f_equal. lia. }
    assert (H1 : 0 <= shr_m (shr_1 mrs))
      by (rewrite shr_1_div2 by assumption; apply Z.div_pos; lia).
    assert (H2 : 0 <= shr_m (iter_pos shr_1 p (shr_1 mrs)))
      by (rewrite IH by assumption; apply Z.div_pos; [|apply Z.pow_pos_nonneg]; lia).
    rewrite IH, IH, shr_1_div2 by assumption.
    rewrite !Z.div_div by (try apply Z.pow_pos_nonneg; lia).
    rewrite E. f_equal. lia.
  - assert (E : 2 ^ Z.pos p~0 = 2 ^ Z.pos p * 2 ^ Z.pos p).
    { rewrite Pos2Z.inj_xO, <- Z.pow_add_r by lia. f_equal. lia. }
    assert (H2 : 0 <= shr_m (iter_pos shr_1 p mrs))
      by (rewrite IH by assumption; apply Z.div_pos; [|apply Z.pow_pos_nonneg]; lia).
    rewrite IH, IH by assumption.
    rewrite !Z.div_div by (try apply Z.pow_pos_nonneg; lia).
    now rewrite E.
  - rewrite shr_1_div2 by assumption. reflexivity.
Qed.

(** What [shr_fexp] leaves: the mantissa divided by a power of two. *)
Lemma shr_fexp_spec m e l :
  0 <= m ->
  let n := fexp prec emax (Zdigits2 m + e) - e in
  shr_m (fst (shr_fexp prec emax m e l)) = m / 2 ^ Z.max 0 n /\
  snd (shr_fexp prec emax m e l) = e + Z.max 0 n.
Proof.
  intros Hm n. unfold shr_fexp, shr. fold n.
  assert (Hrec : shr_m (shr_record_of_loc m l) = m)
    by (destruct l as [|[]]; reflexivity).
  destruct n as [|p|p]; simpl fst; simpl snd.
  - rewrite Hrec. simpl. rewrite Z.div_1_r. lia.
  - rewrite iter_shr_1_div by lia. rewrite Hrec.
    rewrite Z.max_r by lia. split; reflexivity.
  - rewrite Hrec. simpl. rewrite Z.div_1_r. lia.
Qed.

Lemma shr_fexp_digits m e l :
  0 <= m ->
  0 <= shr_m (fst (shr_fexp prec emax m e l)) < 2 ^ prec.
Proof.
  intros Hm. destruct (shr_fexp_spec m e l Hm) as [-> _].
  set (n := fexp prec emax (Zdigits2 m + e) - e).
  assert (Hp : 0 < 2 ^ Z.max 0 n) by (apply Z.pow_pos_nonneg; lia).
  split; [apply Z.div_pos; lia|].
  apply Z.div_lt_upper_bound; [assumption|].
  rewrite <- Z.pow_add_r by (unfold prec; lia).
  pose proof (Zdigits2_nonneg m) as Hd.
  apply (Zdigits2_bound m (Z.max 0 n + prec)); [assumption|unfold prec; lia|].
  subst n. unfold fexp, emin, prec, emax. lia.
Qed.


(** *** Rounding keeps 53 bits *)

Lemma round_nearest_even_nonneg m l : 0 <= m -> 0 <= round_nearest_even m l.
Proof.
  intros Hm. destruct l as [|[]]; simpl; try lia.
  destruct (Z.even m); lia.
Qed.

Lemma binary_round_aux_fits s m e l :
  0 <= m -> fits (binary_round_aux prec emax s m e l).
Proof.
  intros Hm. unfold binary_round_aux.
  destruct (shr_fexp prec emax m e l) as [mrs' e'] eqn:E1.
  pose proof (shr_fexp_digits m e l Hm) as [Hm' _]. rewrite E1 in Hm'.
  simpl in Hm'.
  set (m1 := round_nearest_even (shr_m mrs') (loc_of_shr_record mrs')).
  assert (Hm1 : 0 <= m1) by now apply round_nearest_even_nonneg.
  pose proof (shr_fexp_digits m1 e' loc_Exact Hm1) as Hd.
  destruct (shr_fexp prec emax m1 e' loc_Exact) as [mrs'' e''].
  cbn [fst] in Hd. destruct (shr_m mrs'') as [|p|p]; try exact I.
  destruct (e'' <=? emax - prec); [apply Hd | exact I].
Qed.

Lemma mul_fits x y : fits (mul x y).
Proof.
  destruct x as [sx|sx| |sx mx ex], y as [sy|sy| |sy my ey]; simpl; try exact I.
  apply binary_round_aux_fits. lia.
Qed.

Lemma binary_normalize_fits m e : fits (binary_normalize prec emax m e false).
Proof.
  destruct m as [|p|p]; simpl; [exact I| |];
    unfold binary_round; destruct (shl_align _ _ _);
    apply binary_round_aux_fits; lia.
Qed.

Lemma add_fits x y : fits x -> fits y -> fits (add x y).
Proof.
  destruct x as [sx|sx| |sx mx ex], y as [sy|sy| |sy my ey]; simpl;
    intros Hx Hy; try exact I; try assumption.
  - now destruct sx, sy.
  - now destruct sx, sy.
  - apply binary_normalize_fits.
Qed.

Lemma of_Z_fits n : fits (of_Z n).
Proof. apply binary_normalize_fits. Qed.

(** *** Integers are represented exactly *)

Lemma iter_xO_spec m k :
  Z.pos (Pos.iter xO m k) = Z.pos m * 2 ^ Z.pos k /\
  digits2_pos (Pos.iter xO m k) = (digits2_pos m + k)%positive.
Proof.
  induction k as [|k IH] using Pos.peano_ind.
  - simpl. split; [lia|]. now rewrite Pos.add_1_r.
  - rewrite Pos.iter_succ. destruct IH as [IH1 IH2]. split.
    + rewrite Pos2Z.inj_xO, IH1, Pos2Z.inj_succ, Z.pow_succ_r by lia. lia.
    + simpl. rewrite IH2. lia.
Qed.

Lemma shr_fexp_noshift m e l :
  fexp prec emax (Zdigits2 m + e) - e <= 0 ->
  shr_fexp prec emax m e l = (shr_record_of_loc m l, e).
Proof.
  intros Hn. unfold shr_fexp, shr.
  destruct (fexp prec emax (Zdigits2 m + e) - e); try reflexivity. lia.
Qed.

Lemma binary_round_aux_canonical s m e :
  fexp prec emax (Z.pos (digits2_pos m) + e) = e ->
  e <= emax - prec ->
  binary_round_aux prec emax s (Z.pos m) e loc_Exact = S754_finite s m e.
Proof.
  intros Hc He. unfold binary_round_aux.
  assert (Hn : fexp prec emax (Zdigits2 (Z.pos m) + e) - e <= 0)
    by (cbn [Zdigits2]; rewrite Hc; lia).
  rewrite (shr_fexp_noshift _ _ _ Hn). cbn [shr_record_of_loc shr_m
    loc_of_shr_record round_nearest_even].
  rewrite (shr_fexp_noshift _ _ _ Hn). cbn [shr_record_of_loc shr_m].
  apply Z.leb_le in He. now rewrite He.
Qed.

Lemma of_Z_exact n :
  n <> 0 -> Z.abs n < 2 ^ prec ->
  is_finite (of_Z n) = true /\ (to_Q (of_Z n) == inject_Z n)%Q.
Proof.
  intros Hn Hb.
  assert (Hgen : forall s p,
             Z.pos p < 2 ^ prec ->
             is_finite (binary_round prec emax s p 0) = true /\
             (to_Q (binary_round prec emax s p 0)
              == inject_Z (if s then Z.neg p else Z.pos p))%Q).
  { intros s p Hp.
    assert (Hd : Z.pos (digits2_pos p) <= prec)
      by (apply (Zdigits2_bound (Z.pos p) prec); [lia|unfold prec; lia|exact Hp]).
    unfold binary_round, shl_align.
    assert (Hf : fexp prec emax (Z.pos (digits2_pos p) + 0)
                 = Z.pos (digits2_pos p) - prec)
      by (unfold fexp, emin, prec, emax in *; lia).
    rewrite Hf.
    destruct (Z.pos (digits2_pos p) - prec - 0) as [|k|k] eqn:Ek.
    - rewrite binary_round_aux_canonical
        by (unfold fexp, emin, prec, emax in *; lia).
      split; [reflexivity|]. simpl. rewrite Z.mul_1_r. reflexivity.
    - unfold prec in *. lia.
    - destruct (iter_xO_spec p k) as [Hv Hdig].
      rewrite binary_round_aux_canonical
        by (rewrite ?Hdig; unfold fexp, emin, prec, emax in *; lia).
      split; [reflexivity|].
      unfold to_Q.
      destruct (0 <=? Z.pos (digits2_pos p) - prec) eqn:El;
        [apply Z.leb_le in El; lia|].
      assert (Hk : - (Z.pos (digits2_pos p) - prec) = Z.pos k) by lia.
      rewrite Hk. unfold Qeq. simpl Qnum. simpl Qden.
      assert (Hpow : 0 < 2 ^ Z.pos k) by (apply Z.pow_pos_nonneg; lia).
      rewrite Z2Pos.id by assumption.
      destruct s; rewrite ?Pos2Z.opp_pos in *; lia. }
  unfold of_Z, binary_normalize.
  destruct n as [|p|p]; [congruence| |].
  - apply (Hgen false p). lia.
  - apply (Hgen true p). lia.
Qed.


(** *** [Math.round] *)

Lemma Math_round_half_up x :
  is_finite x = true -> fits x -> round_half_up x (Math_round x).
Proof.
  destruct x as [s|s| |s m e]; try discriminate; intros _ Hfit.
  - exists 0. simpl. repeat split; try reflexivity; unfold Qle, Qlt; simpl; lia.
  - unfold Math_round, round_half_up. simpl in Hfit.
    set (M := if s then Z.neg m else Z.pos m).
    assert (HM : Z.abs M < 2 ^ prec) by (subst M; destruct s; simpl; lia).
    destruct (0 <=? e) eqn:Ee.
    + exists (M * 2 ^ e). unfold to_Q. rewrite Ee. fold M.
      repeat split; try reflexivity; unfold Qle, Qlt; simpl; lia.
    + apply Z.leb_gt in Ee.
      set (P := 2 ^ (- e)).
      assert (HP : 2 <= P).
      { subst P. change 2 with (2 ^ 1) at 1. apply Z.pow_le_mono_r; lia. }
      assert (E2 : 2 ^ (1 - e) = 2 * P).
      { subst P. replace (1 - e) with (Z.succ (- e)) by lia.
        apply Z.pow_succ_r. lia. }
      rewrite E2.
      set (r := (2 * M + P) / (2 * P)).
      pose proof (Z.div_mod (2 * M + P) (2 * P) ltac:(lia)) as Hdm.
      pose proof (Z.mod_pos_bound (2 * M + P) (2 * P) ltac:(lia)) as Hmod.
      fold r in Hdm.
      assert (Hlo : (2 * r - 1) * P <= 2 * M) by lia.
      assert (Hhi : 2 * M < (2 * r + 1) * P) by lia.
      assert (Hx : to_Q (S754_finite s m e) = M # Z.to_pos P).
      { unfold to_Q. fold M. destruct (0 <=? e) eqn:E'; [|reflexivity].
        apply Z.leb_le in E'. lia. }
      assert (Hden : Z.pos (Z.to_pos P) = P) by (apply Z2Pos.id; lia).
      assert (Hineq : forall n, n = r ->
                (inject_Z n - (1 # 2) <= M # Z.to_pos P)%Q /\
                (M # Z.to_pos P < inject_Z n + (1 # 2))%Q).
      { intros n ->. unfold Qle, Qlt, Qminus, Qplus, Qopp, inject_Z.
        simpl Qnum. simpl Qden. rewrite Hden. lia. }
      destruct (r =? 0) eqn:Er.
      * apply Z.eqb_eq in Er. exists 0. rewrite Hx.
        split; [reflexivity|]. split; [reflexivity|].
        apply Hineq. now symmetry.
      * apply Z.eqb_neq in Er. exists r. rewrite Hx.
        assert (Hr : Z.abs r < 2 ^ prec).
        { unfold prec in *. nia. }
        destruct (of_Z_exact r Er Hr) as [Hfin Hval].
        split; [assumption|]. split; [assumption|].
        now apply Hineq.
Qed.


(** *** Rounding without overflow *)

Lemma round_nearest_even_le m l : round_nearest_even m l <= m + 1.
Proof.
  destruct l as [|[]]; simpl; try lia. destruct (Z.even m); lia.
Qed.

(** What rounding returns for a value below 2^(B+1) given with exponent at most E. *)
Lemma binary_round_aux_bounds s m e l B E :
  0 <= m -> Zdigits2 m + e <= B -> e <= E -> B <= 1023 -> E <= 971 ->
  below (Z.max E (Z.max (B - 52) (-1074)))
        (binary_round_aux prec emax s m e l).
Proof.
  unfold below. intros Hm Hd He HB HE.
  pose proof (binary_round_aux_fits s m e l Hm) as Hfit.
  unfold binary_round_aux in *.
  destruct (shr_fexp_spec m e l Hm) as [Hm' He'].
  destruct (shr_fexp prec emax m e l) as [mrs' e']. cbn [fst snd] in Hm', He'.
  set (N := Z.max 0 (fexp prec emax (Zdigits2 m + e) - e)) in *.
  pose proof (Zdigits2_nonneg m) as Hd0.
  assert (HN : 0 <= N) by lia.
  assert (HeN : e' <= Z.max E (Z.max (B - 53) (-1074)))
    by (subst e' N; unfold fexp, emin, prec, emax; lia).
  assert (Hmb : m < 2 ^ (B - e))
    by (apply (proj1 (Zdigits2_bound m (B - e) Hm ltac:(lia))); lia).
  assert (HpN : 0 < 2 ^ N) by (apply Z.pow_pos_nonneg; lia).
  set (K := Z.max 0 (B - e')).
  assert (Hm'0 : 0 <= shr_m mrs') by (rewrite Hm'; apply Z.div_pos; lia).
  assert (Hm'K : shr_m mrs' < 2 ^ K).
  { rewrite Hm'. destruct (Z_le_gt_dec 0 (B - e')) as [Hk|Hk].
    - subst K. rewrite Z.max_r by lia.
      apply Z.div_lt_upper_bound; [assumption|].
      rewrite <- Z.pow_add_r by lia.
      replace (N + (B - e')) with (B - e) by lia. assumption.
    - subst K. rewrite Z.max_l by lia. rewrite Z.div_small; [simpl; lia|].
      split; [assumption|]. eapply Z.lt_le_trans; [exact Hmb|].
      apply Z.pow_le_mono_r; lia. }
  set (m1 := round_nearest_even (shr_m mrs') (loc_of_shr_record mrs')) in *.
  assert (Hm1 : 0 <= m1) by now apply round_nearest_even_nonneg.
  assert (Hm1K : m1 < 2 ^ (K + 1)).
  { pose proof (round_nearest_even_le (shr_m mrs') (loc_of_shr_record mrs')) as Hr.
    fold m1 in Hr. rewrite Z.pow_add_r by lia. change (2 ^ 1) with 2.
    assert (0 < 2 ^ K) by (apply Z.pow_pos_nonneg; lia). lia. }
  assert (Hd1 : Zdigits2 m1 <= K + 1)
    by (apply (proj2 (Zdigits2_bound m1 (K + 1) Hm1 ltac:(lia))); assumption).
  destruct (shr_fexp_spec m1 e' loc_Exact Hm1) as [Hm'' He''].
  destruct (shr_fexp prec emax m1 e' loc_Exact) as [mrs'' e''].
  cbn [fst snd] in Hm'', He''.
  assert (He''b : e'' <= Z.max E (Z.max (B - 52) (-1074))).
  { subst e''. pose proof (Zdigits2_nonneg m1).
    unfold fexp, emin, prec, emax. lia. }
  assert (H0 : 0 <= shr_m mrs'').
  { rewrite Hm''. apply Z.div_pos; [assumption|].
    apply Z.pow_pos_nonneg; lia. }
  destruct (shr_m mrs'') as [|p|p]; [exact I| |lia].
  assert (Hle : (e'' <=? emax - prec) = true)
    by (apply Z.leb_le; unfold emax, prec; lia).
  rewrite Hle in *. split; [exact Hfit | exact He''b].
Qed.

(** A valid Number of magnitude at most a positive [y] has at most the
    exponent of [y]. *)
Lemma leb_exponent x my ey :
  valid x = true -> leb (abs x) (S754_finite false my ey) = true ->
  below ey x.
Proof.
  unfold below.
  destruct x as [s|s| |s m e]; try (intros; exact I); try discriminate.
  intros Hv Hle. unfold valid, valid_binary, bounded, canonical_mantissa in Hv.
  apply andb_prop in Hv as [Hc _]. apply Z.eqb_eq in Hc.
  unfold leb, SFleb, abs, SFabs, SFcompare in Hle.
  assert (Hd : Zdigits2 (Z.pos m) <= prec)
    by (cbn [Zdigits2]; unfold fexp, emin, prec, emax in *; lia).
  split.
  - apply (proj1 (Zdigits2_bound (Z.pos m) prec ltac:(lia) ltac:(unfold prec; lia))).
    exact Hd.
  - destruct (e ?= ey) eqn:Ec; [| |discriminate].
    + apply Z.compare_eq in Ec. lia.
    + change (e < ey) in Ec. lia.
Qed.

Lemma below_mono E E' x : E <= E' -> below E x -> below E' x.
Proof. destruct x; simpl; try tauto. lia. Qed.

Lemma below_is_finite E x : below E x -> is_finite x = true.
Proof. now destruct x. Qed.

Lemma mul_bounds x y Ex Ey :
  below Ex x -> below Ey y -> Ex + Ey <= 900 ->
  below (Z.max (Ex + Ey + 54) (-1074)) (mul x y).
Proof.
  unfold below. intros Hx Hy Hsum.
  destruct x as [sx|sx| |sx mx ex], y as [sy|sy| |sy my ey];
    try contradiction; try exact I.
  destruct Hx as [Hmx Hex], Hy as [Hmy Hey].
  unfold mul, SFmul.
  assert (Hprod : Z.pos (mx * my) < 2 ^ (prec + prec)).
  { rewrite Z.pow_add_r, Pos2Z.inj_mul by (unfold prec; lia).
    apply Z.mul_lt_mono_nonneg; lia. }
  pose proof (proj2 (Zdigits2_bound (Z.pos (mx * my)) (prec + prec)
                       ltac:(lia) ltac:(unfold prec; lia)) Hprod) as Hdig.
  pose proof (binary_round_aux_bounds (xorb sx sy) (Z.pos (mx * my)) (ex + ey)
                loc_Exact (Ex + Ey + 106) (Ex + Ey)
                ltac:(lia) ltac:(unfold prec in Hdig; lia) ltac:(lia)
                ltac:(lia) ltac:(lia)) as Hb.
  destruct (binary_round_aux _ _ _ _ _ _); try exact Hb.
  destruct Hb as [Hb1 Hb2]. split; [exact Hb1 | lia].
Qed.

Lemma div_bounds x my ey Ex :
  below Ex x -> Ex - ey <= 900 ->
  is_finite (div x (S754_finite false my ey)) = true.
Proof.
  unfold below. intros Hx Hsum.
  destruct x as [sx|sx| |sx mx ex]; try contradiction; try reflexivity.
  destruct Hx as [Hmx Hex].
  unfold div, SFdiv, SFdiv_core_binary.
  set (e' := Z.min _ _).
  assert (He' : e' <= ex - ey) by (subst e'; lia).
  set (s := ex - ey - e').
  assert (Hs : 0 <= s) by (subst s; lia).
  set (m' := match s with Z.pos _ => Z.shiftl (Z.pos mx) s | 0 => Z.pos mx | Z.neg _ => 0 end).
  assert (Hm' : m' = Z.pos mx * 2 ^ s).
  { subst m'. destruct s as [|p|p] eqn:Es; [simpl; lia| |lia].
    apply Z.shiftl_mul_pow2. lia. }
  pose proof (Z.div_eucl_eq m' (Z.pos my) ltac:(lia)) as Hdiv.
  pose proof (Z.mod_pos_bound m' (Z.pos my) ltac:(lia)) as Hmod.
  unfold Z.modulo in Hmod.
  destruct (Z.div_eucl m' (Z.pos my)) as [q r].
  assert (Hp : 0 < 2 ^ s) by (apply Z.pow_pos_nonneg; lia).
  assert (Hq0 : 0 <= q) by nia.
  assert (Hqm : q <= m') by nia.
  assert (Hqb : q < 2 ^ (prec + s)).
  { rewrite Z.pow_add_r by (unfold prec; lia). nia. }
  pose proof (proj2 (Zdigits2_bound q (prec + s) Hq0 ltac:(unfold prec; lia)) Hqb)
    as Hdig.
  pose proof (binary_round_aux_bounds (xorb sx false) q e' (new_location (Z.pos my) r)
                (Ex - ey + 53) (Ex - ey)
                Hq0 ltac:(unfold prec in Hdig; lia) ltac:(lia)
                ltac:(lia) ltac:(lia)) as Hb.
  destruct (binary_round_aux _ _ _ _ _ _); first [reflexivity | contradiction].
Qed.

Lemma shl_align_spec m e e' :
  snd (shl_align m e e') = Z.min e e' /\
  Z.pos (fst (shl_align m e e')) = Z.pos m * 2 ^ (e - Z.min e e') /\
  Z.pos (digits2_pos (fst (shl_align m e e'))) + Z.min e e'
  = Z.pos (digits2_pos m) + e.
Proof.
  unfold shl_align. destruct (e' - e) as [|d|d] eqn:Ed; cbn [fst snd].
  - rewrite Z.min_l by lia. rewrite Z.sub_diag. simpl. lia.
  - rewrite Z.min_l by lia. rewrite Z.sub_diag. simpl. lia.
  - destruct (iter_xO_spec m d) as [Hv Hd].
    rewrite Z.min_r by lia.
    rewrite Hv, Hd. replace (e - e') with (Z.pos d) by lia. lia.
Qed.

Lemma binary_normalize_bounds M e B E :
  Z.abs M < 2 ^ (B - e) -> e <= E -> e <= B -> B <= 1023 -> E <= 971 ->
  below (Z.max E (Z.max (B - 52) (-1074))) (binary_normalize prec emax M e false).
Proof.
  intros HM He HeB HB HE.
  assert (Hgen : forall s p,
             Z.pos p < 2 ^ (B - e) ->
             below (Z.max E (Z.max (B - 52) (-1074)))
                   (binary_round prec emax s p e)).
  { intros s p Hp. unfold binary_round.
    destruct (shl_align_spec p e (fexp prec emax (Z.pos (digits2_pos p) + e)))
      as (Hs & _ & Hd).
    destruct (shl_align p e _) as [mz ez]. cbn [fst snd] in Hs, Hd.
    pose proof (proj2 (Zdigits2_bound (Z.pos p) (B - e) ltac:(lia) ltac:(lia)) Hp)
      as Hdig.
    cbn [Zdigits2] in Hdig.
    pose proof (binary_round_aux_bounds s (Z.pos mz) ez loc_Exact B E
                  ltac:(lia) ltac:(cbn [Zdigits2]; lia) ltac:(lia) HB HE) as Hb.
    exact Hb. }
  destruct M as [|p|p]; [exact I| |]; apply Hgen; lia.
Qed.

Lemma add_bounds x y Ex Ey :
  below Ex x -> below Ey y -> Z.max Ex Ey <= 900 ->
  below (Z.max (Z.max Ex Ey + 2) (-1074)) (add x y).
Proof.
  intros Hx Hy Hmax.
  destruct x as [sx|sx| |sx mx ex], y as [sy|sy| |sy my ey];
    try contradiction.
  - simpl. now destruct sx, sy.
  - eapply below_mono; [|exact Hy]. lia.
  - eapply below_mono; [|exact Hx]. lia.
  - destruct Hx as [Hmx Hex], Hy as [Hmy Hey].
    unfold add, SFadd. set (ez := Z.min ex ey).
    destruct (shl_align_spec mx ex ez) as (_ & Ax & _).
    destruct (shl_align_spec my ey ez) as (_ & Ay & _).
    rewrite (Z.min_r ex ez) in Ax by (subst ez; lia).
    rewrite (Z.min_r ey ez) in Ay by (subst ez; lia).
    set (mx' := fst (shl_align mx ex ez)) in *.
    set (my' := fst (shl_align my ey ez)) in *.
    set (top := Z.max ex ey).
    assert (Hpx : 0 < 2 ^ (ex - ez)) by (apply Z.pow_pos_nonneg; subst ez; lia).
    assert (Hpy : 0 < 2 ^ (ey - ez)) by (apply Z.pow_pos_nonneg; subst ez; lia).
    assert (Hlx : 2 ^ (ex - ez) <= 2 ^ (top - ez))
      by (apply Z.pow_le_mono_r; subst ez top; lia).
    assert (Hly : 2 ^ (ey - ez) <= 2 ^ (top - ez))
      by (apply Z.pow_le_mono_r; subst ez top; lia).
    assert (Hsum : Z.abs (cond_Zopp sx (Z.pos mx') + cond_Zopp sy (Z.pos my'))
                   < 2 ^ (top + 54 - ez)).
    { replace (top + 54 - ez) with (1 + prec + (top - ez))
        by (unfold prec; lia).
      rewrite !Z.pow_add_r by (unfold prec; subst ez top; lia).
      change (2 ^ 1) with 2.
      assert (Z.pos mx' < 2 ^ prec * 2 ^ (top - ez)) by nia.
      assert (Z.pos my' < 2 ^ prec * 2 ^ (top - ez)) by nia.
      destruct sx, sy; unfold cond_Zopp; lia. }
    pose proof (binary_normalize_bounds _ ez (top + 54) top Hsum
                  ltac:(subst ez top; lia) ltac:(subst ez top; lia)
                  ltac:(subst top; lia) ltac:(subst top; lia)) as Hb.
    eapply below_mono; [|exact Hb]. subst top. lia.
Qed.

Lemma leb_90_is_finite x :
  leb (abs x) (of_Z 90) = true -> is_finite x = true.
Proof. now destruct x as [s|[]| |s m e]. Qed.

(** Every valid latitude between -90 and 90 degrees is finite in radians. *)
Lemma radians_finite lat :
  valid lat = true -> leb (abs lat) (of_Z 90) = true ->
  is_finite (lat * Math_PI / of_Z 180)%num = true.
Proof.
  intros Hv Hle.
  change (of_Z 90) with (S754_finite false 6333186975989760 (-46)) in Hle.
  pose proof (leb_exponent lat _ _ Hv Hle) as Hlat.
  assert (Hpi : below (-51) Math_PI) by (split; reflexivity).
  pose proof (mul_bounds lat Math_PI (-46) (-51) Hlat Hpi ltac:(lia)) as Hm.
  change (of_Z 180) with (S754_finite false 6333186975989760 (-45)).
  apply (div_bounds _ _ _ (Z.max (-46 + -51 + 54) (-1074))); [exact Hm | lia].
Qed.

End NumberFacts.

Import NumberFacts.

(* ================================================================= *)
(** ** The fare *)

Lemma total_fits distanceKm durationMin :
  let subtotal :=
    (BASE_FARE + distanceKm * KM_RATE + durationMin * TIME_RATE)%num in
  fits (subtotal + subtotal * COMMISSION_RATE)%num.
Proof.
  cbv zeta. apply add_fits; [|apply mul_fits].
  apply add_fits; [|apply mul_fits].
  apply add_fits; [apply of_Z_fits | apply mul_fits].
Qed.

(** Distances and durations up to a billion do not overflow the fare. *)
Lemma total_finite distanceKm durationMin :
  valid distanceKm = true -> valid durationMin = true ->
  leb (abs distanceKm) (of_Z 1000000000) = true ->
  leb (abs durationMin) (of_Z 1000000000) = true ->
  let subtotal :=
    (BASE_FARE + distanceKm * KM_RATE + durationMin * TIME_RATE)%num in
  is_finite (subtotal + subtotal * COMMISSION_RATE)%num = true.
Proof.
  intros Hvd Hvt Hd Ht. cbv zeta.
  change (of_Z 1000000000)
    with (S754_finite false 8388608000000000 (-23)) in Hd, Ht.
  pose proof (leb_exponent _ _ _ Hvd Hd) as Bd.
  pose proof (leb_exponent _ _ _ Hvt Ht) as Bt.
  assert (Bkm : below (-49) KM_RATE) by (split; reflexivity).
  assert (Btime : below (-51) TIME_RATE) by (split; reflexivity).
  assert (Bbase : below (-47) BASE_FARE) by (split; reflexivity).
  assert (Brate : below (-55) COMMISSION_RATE) by (split; reflexivity).
  pose proof (mul_bounds _ _ _ _ Bd Bkm ltac:(lia)) as B1.
  pose proof (mul_bounds _ _ _ _ Bt Btime ltac:(lia)) as B2.
  pose proof (add_bounds _ _ _ _ Bbase B1 ltac:(lia)) as B3.
  pose proof (add_bounds _ _ _ _ B3 B2 ltac:(lia)) as B4.
  pose proof (mul_bounds _ _ _ _ B4 Brate ltac:(lia)) as B5.
  pose proof (add_bounds _ _ _ _ B4 B5 ltac:(lia)) as B6.
  exact (below_is_finite _ _ B6).
Qed.

(** C2: for all Numbers [distanceKm] and [durationMin] (the non-negative
    ones among them), [calculateFare] returns base 50, distance charge
    [distanceKm * 10], time charge [durationMin * 2], commission
    [subtotal * 0.2] and total [Math.round (subtotal + commission)], all in
    binary64 arithmetic. Whenever [subtotal + commission] is finite, the
    total is the integer closest to it, the upper one on a tie; it is finite
    for all distances and durations of magnitude up to a billion. The
    literal 0.2 is the Number 2/10 rounds to. For 10 km and 20 minutes the
    subtotal is 190, the commission 38 and the total 228. *)
Theorem calculateFare_breakdown :
  (forall distanceKm durationMin,
      let distanceCharge := (distanceKm * of_Z 10)%num in
      let timeCharge := (durationMin * of_Z 2)%num in
      let subtotal := (of_Z 50 + distanceCharge + timeCharge)%num in
      let commission := (subtotal * lit_0_2)%num in
      calculateFare distanceKm durationMin =
      {| base := of_Z 50;
         distance := distanceCharge;
         time := timeCharge;
         commission := commission;
         total := Math_round (subtotal + commission)%num |} /\
      (is_finite (subtotal + commission)%num = true ->
       round_half_up (subtotal + commission)%num
                     (total (calculateFare distanceKm durationMin))) /\
      (valid distanceKm = true -> valid durationMin = true ->
       leb (abs distanceKm) (of_Z 1000000000) = true ->
       leb (abs durationMin) (of_Z 1000000000) = true ->
       is_finite (subtotal + commission)%num = true)) /\
  lit_0_2 = (of_Z 2 / of_Z 10)%num /\
  (of_Z 50 + of_Z 10 * of_Z 10 + of_Z 20 * of_Z 2)%num = of_Z 190 /\
  calculateFare (of_Z 10) (of_Z 20) =
  {| base := of_Z 50;
     distance := of_Z 100;
     time := of_Z 40;
     commission := of_Z 38;
     total := of_Z 228 |}.
Proof.
  split; [|repeat split; vm_compute; reflexivity].
  intros distanceKm durationMin. cbv zeta. split; [reflexivity|]. split.
  - intros Hfin. unfold calculateFare. cbn [total].
    apply Math_round_half_up; [exact Hfin|].
    apply (total_fits distanceKm durationMin).
  - apply total_finite.
Qed.

(** C2 at work on the 10 km, 20 minute trip: the unrounded total is finite
    and the total is an integral Number. *)
Lemma calculateFare_breakdown_witness :
  is_finite (of_Z 190 + of_Z 190 * lit_0_2)%num = true /\
  round_half_up (of_Z 190 + of_Z 190 * lit_0_2)%num (of_Z 228).
Proof.
  split; [reflexivity|].
  exact (proj1 (proj2 (proj1 calculateFare_breakdown (of_Z 10) (of_Z 20)))
               (eq_refl true)).
Defined.

(* ================================================================= *)
(** ** The distance *)

Section GeoFacts.
Context `{LibmLaws}.

Lemma half_angle_swap a b :
  let h x y := ((y - x) * Math_PI / of_Z 180 / of_Z 2)%num in
  h b a = neg (h a b) \/ h b a = h a b.
Proof.
  cbv zeta. destruct (sub_swap b a) as [E|[E1 E2]].
  - left. now rewrite E, mul_neg_l, !div_neg_l.
  - right. now rewrite E1, E2.
Qed.

Lemma sin_product_swap u u' P :
  u' = neg u \/ u' = u ->
  (P * Math_sin u' * Math_sin u')%num = (P * Math_sin u * Math_sin u)%num.
Proof.
  intros [->| ->]; [|reflexivity].
  now rewrite sin_odd, !mul_neg_r, mul_neg_l, neg_involutive.
Qed.

Lemma sin_square_swap u u' :
  u' = neg u \/ u' = u ->
  (Math_sin u' * Math_sin u')%num = (Math_sin u * Math_sin u)%num.
Proof.
  intros [->| ->]; [|reflexivity].
  now rewrite sin_odd, mul_neg_neg.
Qed.

Lemma getDistance_sym lat1 lon1 lat2 lon2 :
  getDistance lat1 lon1 lat2 lon2 = getDistance lat2 lon2 lat1 lon1.
Proof.
  unfold getDistance.
  rewrite (sin_square_swap _ _ (half_angle_swap lat2 lat1)).
  rewrite (sin_product_swap _ _ _ (half_angle_swap lon2 lon1)).
  now rewrite (mul_comm (Math_cos (lat1 * Math_PI / of_Z 180)%num)).
Qed.

Lemma getDistance_same lat lon :
  is_finite lat = true -> is_finite lon = true ->
  is_finite (lat * Math_PI / of_Z 180)%num = true ->
  getDistance lat lon lat lon = pos_zero.
Proof.
  intros Hlat Hlon Hrad. unfold getDistance.
  rewrite !sub_diag by assumption.
  change (pos_zero * Math_PI / of_Z 180 / of_Z 2)%num with pos_zero.
  rewrite sin_pos_zero.
  destruct (cos_range _ Hrad) as [Hv Hle].
  change (of_Z 1) with (S754_finite false 4503599627370496 (-52)) in Hle.
  pose proof (leb_exponent _ _ _ Hv Hle) as Hc.
  pose proof (mul_bounds _ _ (-52) (-52) Hc Hc ltac:(lia)) as Hfin.
  set (P := (Math_cos (lat * Math_PI / of_Z 180)
             * Math_cos (lat * Math_PI / of_Z 180))%num) in *.
  assert (Ha : (pos_zero * pos_zero + P * pos_zero * pos_zero)%num = pos_zero).
  { destruct P as [s|s| |s m e]; try contradiction; now destruct s. }
  rewrite Ha.
  change (sqrt pos_zero) with pos_zero.
  change (of_Z 1 - pos_zero)%num with (of_Z 1).
  replace (sqrt (of_Z 1)) with (of_Z 1) by (vm_compute; reflexivity).
  rewrite atan2_pos_zero. reflexivity.
Qed.

End GeoFacts.

Lemma small_angle_laws : @LibmLaws Scenario.small_angle.
Proof.
  split.
  - reflexivity.
  - reflexivity.
  - intros x _. split; reflexivity.
  - reflexivity.
Qed.

(** The haversine formula over the real numbers gives the length of the
    arc of a great circle. *)
Module SphereFacts.
Import Reals Sphere.
Local Open Scope R_scope.

Lemma atan2_sin_cos h :
  0 <= h <= PI / 2 -> atan2 (sin h) (cos h) = h.
Proof.
  intros [H0 H1]. unfold atan2.
  destruct (Req_dec h (PI / 2)) as [->|Hne].
  - rewrite cos_PI2, sin_PI2.
    destruct (Rlt_dec 0 0) as [F|_]; [lra|].
    destruct (Rlt_dec 0 1) as [_|F]; [reflexivity|lra].
  - assert (Hc : 0 < cos h) by (apply cos_gt_0; lra).
    destruct (Rlt_dec 0 (cos h)) as [_|F]; [|contradiction].
    change (sin h / cos h) with (tan h). apply atan_tan. lra.
Qed.

Lemma place_is_unit lat lon : dot (place lat lon) (place lat lon) = 1.
Proof.
  unfold dot, place. cbv zeta.
  set (p := lat * PI / 180). set (l := lon * PI / 180).
  pose proof (sin2_cos2 p) as Hp. pose proof (sin2_cos2 l) as Hl.
  unfold Rsqr in *. nra.
Qed.

Lemma dot_of_places_range lat1 lon1 lat2 lon2 :
  -1 <= dot (place lat1 lon1) (place lat2 lon2) <= 1.
Proof.
  pose proof (place_is_unit lat1 lon1) as H1.
  pose proof (place_is_unit lat2 lon2) as H2.
  revert H1 H2. unfold dot.
  destruct (place lat1 lon1) as [[x y] z].
  destruct (place lat2 lon2) as [[x' y'] z'].
  intros H1 H2.
  pose proof (Rle_0_sqr (x - x')). pose proof (Rle_0_sqr (y - y')).
  pose proof (Rle_0_sqr (z - z')). pose proof (Rle_0_sqr (x + x')).
  pose proof (Rle_0_sqr (y + y')). pose proof (Rle_0_sqr (z + z')).
  unfold Rsqr in *. lra.
Qed.

Lemma sin_half_squared x : sin (x / 2) * sin (x / 2) = (1 - cos x) / 2.
Proof.
  replace x with (2 * (x / 2)) at 3 by field.
  rewrite cos_2a_sin. field.
Qed.

(** The quantity [a] of the formula is half of one minus the cosine of the
    central angle. *)
Lemma haversine_a_dot lat1 lon1 lat2 lon2 :
  let dphi := (lat2 - lat1) * PI / 180 in
  let dlambda := (lon2 - lon1) * PI / 180 in
  sin (dphi / 2) * sin (dphi / 2) +
  cos (lat1 * PI / 180) * cos (lat2 * PI / 180) *
  sin (dlambda / 2) * sin (dlambda / 2) =
  (1 - dot (place lat1 lon1) (place lat2 lon2)) / 2.
Proof.
  cbv zeta. unfold dot, place. cbv zeta.
  set (p1 := lat1 * PI / 180). set (p2 := lat2 * PI / 180).
  set (l1 := lon1 * PI / 180). set (l2 := lon2 * PI / 180).
  replace ((lat2 - lat1) * PI / 180) with (p2 - p1) by (unfold p1, p2; field).
  replace ((lon2 - lon1) * PI / 180) with (l2 - l1) by (unfold l1, l2; field).
  rewrite !Rmult_assoc, !sin_half_squared, !cos_minus. field.
Qed.

Lemma atan2_of_roots a :
  0 <= a <= 1 ->
  2 * atan2 (sqrt a) (sqrt (1 - a)) = acos (1 - 2 * a).
Proof.
  intros Ha.
  set (t := acos (1 - 2 * a)).
  assert (Ht : 0 <= t <= PI) by apply acos_bound.
  assert (Hc : cos t = 1 - 2 * a) by (apply cos_acos; lra).
  set (h := t / 2).
  assert (Hh : 0 <= h <= PI / 2) by (unfold h; lra).
  assert (Hs : sin h * sin h = a).
  { unfold h. rewrite sin_half_squared, Hc. field. }
  assert (Hk : cos h * cos h = 1 - a).
  { pose proof (sin2_cos2 h) as E. unfold Rsqr in E. lra. }
  assert (Hs0 : 0 <= sin h) by (apply sin_ge_0; lra).
  assert (Hc0 : 0 <= cos h) by (apply cos_ge_0; lra).
  rewrite <- Hk, <- Hs at 1. rewrite !sqrt_square by assumption.
  rewrite atan2_sin_cos by assumption. unfold h. field.
Qed.

Lemma haversine_great_circle radius lat1 lon1 lat2 lon2 :
  Spec.haversine reals (IZR radius) lat1 lon1 lat2 lon2 =
  great_circle radius (place lat1 lon1) (place lat2 lon2).
Proof.
  unfold Spec.haversine, Spec.radians, great_circle, central_angle.
  cbn [reals Spec.of_int Spec.pi Spec.add Spec.sub Spec.mul Spec.div
       Spec.sqrt Spec.sin Spec.cos Spec.atan2].
  pose proof (dot_of_places_range lat1 lon1 lat2 lon2) as Hd.
  rewrite haversine_a_dot.
  rewrite atan2_of_roots by lra.
  f_equal. f_equal. field.
Qed.

End SphereFacts.



(* ================================================================= *)
(** ** Properties of the maps *)

Module JSMapFacts.
Import JSMap.
Section Facts.
Context {V : Type}.
Implicit Types (m : JSMap.t V) (k : string) (v : V).

Lemma get_set_eq k v m : get k (set k v m) = Some v.
Proof.
  induction m as [|[k' v'] m IH]; simpl.
  - now rewrite String.eqb_refl.
  - destruct (String.eqb k k') eqn:E; simpl.
    + now rewrite String.eqb_refl.
    + now rewrite E.
Qed.

Lemma get_set_neq k k' v m : k <> k' -> get k' (set k v m) = get k' m.
Proof.
  intros Hne. induction m as [|[k0 v0] m IH]; simpl.
  - destruct (String.eqb k' k) eqn:E; [|reflexivity].
    apply String.eqb_eq in E. congruence.
  - destruct (String.eqb k k0) eqn:E; simpl.
    + apply String.eqb_eq in E. subst k0.
      destruct (String.eqb k' k) eqn:E'; [|reflexivity].
      apply String.eqb_eq in E'. congruence.
    + now rewrite IH.
Qed.

Lemma keys_set_present k v m :
  get k m <> None -> keys (set k v m) = keys m.
Proof.
  unfold keys. induction m as [|[k' v'] m IH]; simpl; intros Hg.
  - congruence.
  - destruct (String.eqb k k') eqn:E; simpl.
    + apply String.eqb_eq in E. now subst.
    + now rewrite IH.
Qed.

Lemma keys_set_absent k v m :
  get k m = None -> keys (set k v m) = keys m ++ [k].
Proof.
  unfold keys. induction m as [|[k' v'] m IH]; simpl; intros Hg.
  - reflexivity.
  - destruct (String.eqb k k') eqn:E; [discriminate|].
    simpl. now rewrite IH.
Qed.

Lemma get_None_notin k m : get k m = None <-> ~ In k (keys m).
Proof.
  unfold keys. induction m as [|[k' v'] m IH]; simpl.
  - tauto.
  - destruct (String.eqb k k') eqn:E.
    + apply String.eqb_eq in E. subst. split; [discriminate|tauto].
    + apply String.eqb_neq in E. rewrite IH. intuition congruence.
Qed.

Lemma NoDup_set k v m : NoDup (keys m) -> NoDup (keys (set k v m)).
Proof.
  intros Hnd. destruct (get k m) eqn:E.
  - rewrite keys_set_present; [assumption | congruence].
  - rewrite keys_set_absent by assumption.
    apply NoDup_app; [assumption | repeat constructor; simpl; tauto |].
    intros x Hx [<-|[]]. now apply get_None_notin in E.
Qed.

Lemma keys_delete_incl k m x : In x (keys (delete k m)) -> In x (keys m).
Proof.
  unfold keys. induction m as [|[k' v'] m IH]; simpl; [tauto|].
  destruct (String.eqb k k'); simpl; tauto.
Qed.

Lemma NoDup_delete k m : NoDup (keys m) -> NoDup (keys (delete k m)).
Proof.
  unfold keys. induction m as [|[k' v'] m IH]; simpl; intros Hnd.
  - constructor.
  - inversion Hnd as [|? ? Hnotin Hnd']; subst.
    destruct (String.eqb k k'); [assumption|].
    simpl. constructor; [|now apply IH].
    intros Hin. apply Hnotin. now apply (keys_delete_incl k).
Qed.

Lemma get_delete_eq k m : NoDup (keys m) -> get k (delete k m) = None.
Proof.
  unfold keys. induction m as [|[k' v'] m IH]; simpl; intros Hnd.
  - reflexivity.
  - inversion Hnd as [|? ? Hnotin Hnd']; subst.
    destruct (String.eqb k k') eqn:E; simpl.
    + apply String.eqb_eq in E. subst. now apply get_None_notin.
    + rewrite E. now apply IH.
Qed.

Lemma get_delete_neq k k' m : k <> k' -> get k' (delete k m) = get k' m.
Proof.
  intros Hne. induction m as [|[k0 v0] m IH]; simpl; [reflexivity|].
  destruct (String.eqb k k0) eqn:E; simpl.
  - apply String.eqb_eq in E. subst k0.
    destruct (String.eqb k' k) eqn:E'; [|reflexivity].
    apply String.eqb_eq in E'. congruence.
  - now rewrite IH.
Qed.

Lemma get_In k v m : get k m = Some v -> In (k, v) m.
Proof.
  induction m as [|[k' v'] m IH]; simpl; [discriminate|].
  destruct (String.eqb k k') eqn:E.
  - apply String.eqb_eq in E. intros [= ->]. subst. now left.
  - intros Hg. right. now apply IH.
Qed.

Lemma In_get k v m : NoDup (keys m) -> In (k, v) m -> get k m = Some v.
Proof.
  unfold keys. induction m as [|[k' v'] m IH]; simpl; intros Hnd Hin.
  - contradiction.
  - inversion Hnd as [|? ? Hnotin Hnd']; subst.
    destruct Hin as [[= -> ->]|Hin].
    + now rewrite String.eqb_refl.
    + destruct (String.eqb k k') eqn:E; [|now apply IH].
      apply String.eqb_eq in E. subst k'. exfalso. apply Hnotin.
      change k with (fst (k, v)). now apply in_map.
Qed.

Lemma count_notin k m : ~ In k (keys m) -> count k m = 0%nat.
Proof.
  unfold keys, count. induction m as [|[k' v'] m IH]; simpl; intros Hn.
  - reflexivity.
  - destruct (String.eqb k k') eqn:E.
    + apply String.eqb_eq in E. subst. tauto.
    + apply IH. tauto.
Qed.

Lemma count_set k v m : NoDup (keys m) -> count k (set k v m) = 1%nat.
Proof.
  unfold keys. induction m as [|[k' v'] m IH]; simpl; intros Hnd.
  - unfold count. simpl. now rewrite String.eqb_refl.
  - inversion Hnd as [|? ? Hnotin Hnd']; subst.
    destruct (String.eqb k k') eqn:E.
    + apply String.eqb_eq in E. subst k'.
      unfold count. simpl. rewrite String.eqb_refl. simpl.
      f_equal. now apply count_notin.
    + unfold count in *. simpl. rewrite E. now apply IH.
Qed.
End Facts.
End JSMapFacts.

(* ================================================================= *)
(** ** What each handler does *)

Lemma skipn_length_app {A} (l l' : list A) : skipn (List.length l) (l ++ l') = l'.
Proof. induction l; simpl; auto. Qed.

Lemma performed_of_trace {A} (h : Handler A) w acts :
  trace (run h w) = trace w ++ acts -> performed h w = acts.
Proof. unfold performed. intros ->. apply skipn_length_app. Qed.

Lemma accept_ride_no_request w socket requestId :
  JSMap.get requestId (rideRequests w) = None ->
  on_accept_ride socket requestId w = (Normal tt, w).
Proof.
  intros Hg. unfold on_accept_ride, bind, rideRequests_get. now rewrite Hg.
Qed.

Lemma accept_ride_no_driver w socket requestId :
  JSMap.get (id socket) (activeDrivers w) = None ->
  on_accept_ride socket requestId w = (Normal tt, w).
Proof.
  intros Hg. unfold on_accept_ride, bind, rideRequests_get, activeDrivers_get.
  destruct (JSMap.get requestId (rideRequests w)); [|reflexivity].
  now rewrite Hg.
Qed.

Lemma accept_ride_inserts w socket requestId request driver :
  JSMap.get requestId (rideRequests w) = Some request ->
  JSMap.get (id socket) (activeDrivers w) = Some driver ->
  on_accept_ride socket requestId w =
  (Normal tt,
   log (DbInsert (row_of request driver))
       (with_inserting
          (inserting w ++ [mkInsertThen socket requestId request driver]) w)).
Proof.
  intros Hr Hd.
  unfold on_accept_ride, bind, rideRequests_get, activeDrivers_get.
  now rewrite Hr, Hd.
Qed.

Lemma insert_then_success w k response rideId rest :
  error response = None ->
  data response = Some (rideId :: rest) ->
  insert_then k response w =
  (Normal tt,
   mkWorld (activeDrivers w)
           (JSMap.delete (it_requestId k) (rideRequests w))
           (awaiting w) (inserting w)
           (trace w ++
            [Emit (to_room (passengerId (it_request k)))
                  (ride_accepted (driverId (it_driver k))
                     (mkCoord (driver_lat (it_driver k))
                              (driver_lng (it_driver k))));
             Emit (to_socket (id (it_socket k))) (ride_started rideId);
             RequestsDelete (it_requestId k)])).
Proof.
  intros He Hd. unfold insert_then. rewrite He, Hd.
  unfold bind, emit, rideRequests_delete, log, with_rideRequests. simpl.
  now rewrite <- !app_assoc.
Qed.

Section HandlerFacts.
Context `{Libm}.

Lemma for_each_broadcast requestId pickup dropoff fare drivers w :
  for_each
    (fun driver driverSocketId =>
       if (getDistance (driver_lat driver) (driver_lng driver)
                       (lat pickup) (lng pickup) <? of_Z 5)%num
       then emit (to_room driverSocketId)
                 (new_ride_request requestId pickup dropoff fare)
       else ret tt)
    drivers w =
  (Normal tt,
   mkWorld (activeDrivers w) (rideRequests w) (awaiting w) (inserting w)
           (trace w ++ broadcast requestId pickup dropoff fare drivers)).
Proof.
  set (f := fun (driver : Driver) (driverSocketId : string) => _).
  revert w. induction drivers as [|[sid d] drivers IH]; intros w.
  - cbn [for_each]. unfold ret, broadcast. cbn [filter map].
    rewrite app_nil_r. now destruct w.
  - cbn [for_each]. unfold bind, broadcast. cbn [filter map snd].
    unfold f at 1. unfold within_5km at 1.
    destruct (getDistance _ _ _ _ <? of_Z 5)%num.
    + unfold emit. rewrite IH. unfold log, broadcast. cbn.
      now rewrite <- app_assoc.
    + unfold ret. now rewrite IH.
Qed.

Lemma request_ride_resume_run k requestId w :
  request_ride_resume k requestId w =
  (Normal tt,
   mkWorld (activeDrivers w)
           (JSMap.set requestId (request_of k) (rideRequests w))
           (awaiting w) (inserting w)
           (trace w ++
            RequestsSet requestId (request_of k) ::
            broadcast requestId (ra_pickup k) (ra_dropoff k)
                      (calculateFare (ra_distance k) (ra_duration k))
                      (activeDrivers w) ++
            [Emit (to_socket (id (ra_socket k)))
                  (request_sent requestId
                     (calculateFare (ra_distance k) (ra_duration k)))])).
Proof.
  unfold request_ride_resume, bind, rideRequests_set, activeDrivers_forEach.
  rewrite for_each_broadcast. unfold emit, log, with_rideRequests. simpl.
  fold (request_of k). now rewrite <- !app_assoc.
Qed.

Lemma step_well_formed e w : well_formed w -> well_formed (step e w).
Proof.
  intros [Hd Hr]. destruct e as [s la lo|s p d|i rid|s rid|i resp|s]; simpl.
  - split; simpl; [now apply JSMapFacts.NoDup_set | assumption].
  - unfold on_request_ride. destruct (getRouteDistance p d). now split.
  - destruct (nth_error (awaiting w) i); [|now split].
    unfold run. rewrite request_ride_resume_run. simpl.
    split; [assumption | now apply JSMapFacts.NoDup_set].
  - unfold run, on_accept_ride, bind, rideRequests_get, activeDrivers_get.
    destruct (JSMap.get rid (rideRequests w)); [|now split].
    destruct (JSMap.get (id s) (activeDrivers w)); now split.
  - destruct (nth_error (inserting w) i) as [k|]; [|now split].
    unfold run, insert_then.
    destruct (error resp); [now split|].
    destruct (data resp) as [[|r rest]|]; simpl; try now split.
    split; [assumption | now apply JSMapFacts.NoDup_delete].
  - split; simpl; [now apply JSMapFacts.NoDup_delete | assumption].
Qed.

Lemma reachable_well_formed w : reachable w -> well_formed w.
Proof.
  induction 1 as [|e w _ IH].
  - split; constructor.
  - now apply step_well_formed.
Qed.
End HandlerFacts.

(* ================================================================= *)
(** ** The accept race *)

(** C3 (as stated, refuted): a registered driver accepts a request id the
    ledger does not hold. The handler completes normally and leaves the world
    as it was: no error, and nothing at all, is reported to the caller. *)
Lemma accept_unknown_request_reports_nothing :
  let caller := Scenario.bob in
  let w := run (on_driver_location caller (of_Z 1) (of_Z 1)) init in
  on_accept_ride caller Scenario.k3j9x0q1z w = (Normal tt, w) /\
  performed (on_accept_ride caller Scenario.k3j9x0q1z) w = [] /\
  ~ (exists target msg,
        In (Emit target msg)
           (performed (on_accept_ride caller Scenario.k3j9x0q1z) w)).
Proof.
  cbv zeta. split; [reflexivity|]. split; [reflexivity|].
  intros [target [msg Hin]]. exact Hin.
Qed.

(** C3 (amended): 'accept-ride' for a request id that is not in the ledger
    (never created, or removed by an earlier claim) returns silently: the
    handler completes normally, the whole world (registry, ledger, pending
    inserts) is unchanged, and nothing is emitted or inserted, so no
    connection, the caller included, is notified. *)
Theorem accept_ride_unknown_request_is_silent w socket requestId :
  JSMap.get requestId (rideRequests w) = None ->
  on_accept_ride socket requestId w = (Normal tt, w) /\
  run (on_accept_ride socket requestId) w = w /\
  performed (on_accept_ride socket requestId) w = [].
Proof.
  intros Hg. pose proof (accept_ride_no_request w socket requestId Hg) as E.
  split; [assumption|]. split.
  - unfold run. now rewrite E.
  - apply performed_of_trace. unfold run. rewrite E. simpl.
    now rewrite app_nil_r.
Qed.

(** The amended C3 at work on the empty ledger. *)
Lemma accept_ride_unknown_request_is_silent_witness :
  JSMap.get Scenario.k3j9x0q1z (rideRequests init) = None /\
  run (on_accept_ride Scenario.bob Scenario.k3j9x0q1z) init = init.
Proof.
  split; [reflexivity|].
  apply (accept_ride_unknown_request_is_silent
           init Scenario.bob Scenario.k3j9x0q1z).
  reflexivity.
Defined.

(** C9: 'accept-ride' from a socket with no entry in [activeDrivers] does
    nothing, whatever the request id: the world is unchanged (the request, if
    there is one, stays in the ledger; no insert is queued) and the handler
    performs no action (no insert, no emission). *)
Theorem accept_ride_unregistered_driver_is_noop w socket requestId :
  JSMap.get (id socket) (activeDrivers w) = None ->
  run (on_accept_ride socket requestId) w = w /\
  performed (on_accept_ride socket requestId) w = [] /\
  JSMap.get requestId (rideRequests (run (on_accept_ride socket requestId) w))
  = JSMap.get requestId (rideRequests w).
Proof.
  intros Hg. pose proof (accept_ride_no_driver w socket requestId Hg) as E.
  assert (Hrun : run (on_accept_ride socket requestId) w = w)
    by (unfold run; now rewrite E).
  split; [assumption|]. split.
  - apply performed_of_trace. rewrite Hrun. now rewrite app_nil_r.
  - now rewrite Hrun.
Qed.

(** C9 at work: the trip is in the ledger and alice's socket has reported
    no position. *)
Lemma accept_ride_unregistered_driver_is_noop_witness :
  JSMap.get (id Scenario.alice) (activeDrivers Scenario.pending) = None /\
  JSMap.get Scenario.k3j9x0q1z (rideRequests Scenario.pending)
  = Some Scenario.trip /\
  run (on_accept_ride Scenario.alice Scenario.k3j9x0q1z) Scenario.pending
  = Scenario.pending.
Proof.
  split; [reflexivity|]. split; [reflexivity|].
  apply (accept_ride_unregistered_driver_is_noop
           Scenario.pending Scenario.alice Scenario.k3j9x0q1z).
  reflexivity.
Defined.

(** C5 (as stated, refuted): bob's insert for the trip settles with the
    stored row 7. The callback emits 'ride-accepted' and 'ride-started'
    first and deletes the ledger entry last: the emissions precede the
    write to the ledger. *)
Lemma notifications_precede_ledger_delete :
  let k := mkInsertThen Scenario.bob Scenario.k3j9x0q1z Scenario.trip
                        Scenario.bob_entry in
  performed (insert_then k (Scenario.stored 7)) Scenario.pending =
  [Emit (to_room (passengerId Scenario.trip))
        (ride_accepted (driverId Scenario.bob_entry)
                       (mkCoord (of_Z 1) (of_Z 1)));
   Emit (to_socket (id Scenario.bob)) (ride_started 7);
   RequestsDelete Scenario.k3j9x0q1z] /\
  emits_after_ledger_writes
    (performed (insert_then k (Scenario.stored 7)) Scenario.pending) = false.
Proof. cbv zeta. split; reflexivity. Qed.

(** C5 (amended): when the insert settles without error and returns a row,
    its callback emits 'ride-accepted' to the room named by the passenger's
    id, then 'ride-started' to the accepting socket, and only then deletes
    the request from the ledger; the three happen in this order within the
    one callback, which changes nothing else. *)
Theorem insert_then_emits_then_deletes w k response rideId rest :
  error response = None ->
  data response = Some (rideId :: rest) ->
  performed (insert_then k response) w =
  [Emit (to_room (passengerId (it_request k)))
        (ride_accepted (driverId (it_driver k))
           (mkCoord (driver_lat (it_driver k)) (driver_lng (it_driver k))));
   Emit (to_socket (id (it_socket k))) (ride_started rideId);
   RequestsDelete (it_requestId k)] /\
  rideRequests (run (insert_then k response) w)
  = JSMap.delete (it_requestId k) (rideRequests w) /\
  activeDrivers (run (insert_then k response) w) = activeDrivers w /\
  inserting (run (insert_then k response) w) = inserting w /\
  awaiting (run (insert_then k response) w) = awaiting w.
Proof.
  intros He Hd.
  pose proof (insert_then_success w k response rideId rest He Hd) as E.
  split.
  - apply performed_of_trace. unfold run. now rewrite E.
  - unfold run. rewrite E. simpl. auto.
Qed.

(** The amended C5 at work on bob's insert for the trip. *)
Lemma insert_then_emits_then_deletes_witness :
  error (Scenario.stored 7) = None /\
  data (Scenario.stored 7) = Some [7] /\
  rideRequests
    (run (insert_then
            (mkInsertThen Scenario.bob Scenario.k3j9x0q1z Scenario.trip
                          Scenario.bob_entry)
            (Scenario.stored 7))
         Scenario.pending)
  = JSMap.delete Scenario.k3j9x0q1z (rideRequests Scenario.pending).
Proof.
  split; [reflexivity|]. split; [reflexivity|].
  apply (insert_then_emits_then_deletes
           Scenario.pending
           (mkInsertThen Scenario.bob Scenario.k3j9x0q1z Scenario.trip
                         Scenario.bob_entry)
           (Scenario.stored 7) 7 []); reflexivity.
Defined.

(** C1 (the code departs from it): two registered drivers accept the same
    request before either insert has settled. Both pass the two guards, both
    inserts go out, and when they settle both callbacks run in full: two
    rows are inserted, the passenger's room gets 'ride-accepted' twice and
    each driver gets 'ride-started'. *)
Theorem accept_race_two_winners `{Libm} w s1 s2 requestId request d1 d2 r1 r2 :
  JSMap.get requestId (rideRequests w) = Some request ->
  JSMap.get (id s1) (activeDrivers w) = Some d1 ->
  JSMap.get (id s2) (activeDrivers w) = Some d2 ->
  inserting w = [] ->
  trace
    (steps [accept_ride s1 requestId; accept_ride s2 requestId;
            insert_settled 0 (Scenario.stored r1);
            insert_settled 0 (Scenario.stored r2)] w)
  = trace w ++
    [DbInsert (row_of request d1);
     DbInsert (row_of request d2);
     Emit (to_room (passengerId request))
          (ride_accepted (driverId d1) (mkCoord (driver_lat d1) (driver_lng d1)));
     Emit (to_socket (id s1)) (ride_started r1);
     RequestsDelete requestId;
     Emit (to_room (passengerId request))
          (ride_accepted (driverId d2) (mkCoord (driver_lat d2) (driver_lng d2)));
     Emit (to_socket (id s2)) (ride_started r2);
     RequestsDelete requestId].
Proof.
  intros Hr H1 H2 Hi. unfold steps. cbn [fold_left].
  assert (E1 : step (accept_ride s1 requestId) w =
               log (DbInsert (row_of request d1))
                   (with_inserting
                      [mkInsertThen s1 requestId request d1] w)).
  { cbn [step]. unfold run.
    rewrite (accept_ride_inserts _ _ _ _ _ Hr H1). now rewrite Hi. }
  rewrite E1. clear E1.
  set (w1 := log _ _).
  assert (E2 : step (accept_ride s2 requestId) w1 =
               log (DbInsert (row_of request d2))
                   (with_inserting
                      [mkInsertThen s1 requestId request d1;
                       mkInsertThen s2 requestId request d2] w1)).
  { cbn [step]. unfold run.
    now rewrite (accept_ride_inserts w1 s2 requestId request d2 Hr H2). }
  rewrite E2. clear E2. subst w1. cbn.
  now rewrite <- !app_assoc.
Qed.

(** C1 at work: bob and carol both accept alice's trip before either
    insert settles; rows 7 and 8 are both stored and both drivers are told
    the ride has started. *)
Lemma accept_race_two_winners_witness :
  JSMap.get Scenario.k3j9x0q1z (rideRequests Scenario.pending)
  = Some Scenario.trip /\
  JSMap.get (id Scenario.bob) (activeDrivers Scenario.pending)
  = Some Scenario.bob_entry /\
  JSMap.get (id Scenario.carol) (activeDrivers Scenario.pending)
  = Some Scenario.carol_entry /\
  inserting Scenario.pending = [] /\
  trace
    (@steps Scenario.small_angle
       [accept_ride Scenario.bob Scenario.k3j9x0q1z;
        accept_ride Scenario.carol Scenario.k3j9x0q1z;
        insert_settled 0 (Scenario.stored 7);
        insert_settled 0 (Scenario.stored 8)] Scenario.pending)
  = trace Scenario.pending ++
    [DbInsert (row_of Scenario.trip Scenario.bob_entry);
     DbInsert (row_of Scenario.trip Scenario.carol_entry);
     Emit (to_room (passengerId Scenario.trip))
          (ride_accepted (driverId Scenario.bob_entry)
             (mkCoord (driver_lat Scenario.bob_entry)
                      (driver_lng Scenario.bob_entry)));
     Emit (to_socket (id Scenario.bob)) (ride_started 7);
     RequestsDelete Scenario.k3j9x0q1z;
     Emit (to_room (passengerId Scenario.trip))
          (ride_accepted (driverId Scenario.carol_entry)
             (mkCoord (driver_lat Scenario.carol_entry)
                      (driver_lng Scenario.carol_entry)));
     Emit (to_socket (id Scenario.carol)) (ride_started 8);
     RequestsDelete Scenario.k3j9x0q1z].
Proof.
  repeat (split; [reflexivity|]).
  apply (@accept_race_two_winners Scenario.small_angle Scenario.pending
           Scenario.bob Scenario.carol Scenario.k3j9x0q1z Scenario.trip
           Scenario.bob_entry Scenario.carol_entry 7 8); reflexivity.
Defined.

(** When the first insert has settled before the second 'accept-ride'
    arrives, the race does not show: the entry is gone and the second
    accept does nothing. *)
Lemma accept_after_settled_is_noop w k response rideId rest socket :
  well_formed w ->
  error response = None ->
  data response = Some (rideId :: rest) ->
  let w' := run (insert_then k response) w in
  run (on_accept_ride socket (it_requestId k)) w' = w'.
Proof.
  intros [_ Hnd] He Hd. cbv zeta. unfold run at 1.
  rewrite accept_ride_no_request; [reflexivity|].
  unfold run. rewrite (insert_then_success w k response rideId rest He Hd).
  cbn [snd rideRequests]. now apply JSMapFacts.get_delete_eq.
Qed.

(* ================================================================= *)
(** ** Ride requests and their broadcast *)

Lemma all_emits_after_ledger_writes acts :
  forallb is_emit acts = true -> emits_after_ledger_writes acts = true.
Proof.
  induction acts as [|a acts IH]; simpl; [reflexivity|].
  intros Hall. apply andb_prop in Hall as [Ha Hrest].
  rewrite Ha, (IH Hrest), andb_true_r.
  clear IH. induction acts as [|b acts IH]; simpl; [reflexivity|].
  simpl in Hrest. apply andb_prop in Hrest as [Hb Hrest].
  rewrite (IH Hrest), andb_true_r. now destruct b.
Qed.

Section BroadcastFacts.
Context `{Libm}.

Lemma broadcast_all_emits requestId pickup dropoff fare drivers :
  forallb is_emit (broadcast requestId pickup dropoff fare drivers) = true.
Proof.
  unfold broadcast. induction (filter _ drivers); simpl; auto.
Qed.

Lemma notified_broadcast requestId pickup dropoff fare drivers :
  notified (broadcast requestId pickup dropoff fare drivers)
  = map fst (filter (fun kv => within_5km pickup (snd kv)) drivers).
Proof.
  unfold broadcast, notified.
  induction (filter _ drivers) as [|kv l IH]; simpl; [reflexivity|].
  now rewrite IH.
Qed.

Lemma performed_request_ride_resume k requestId w :
  performed (request_ride_resume k requestId) w =
  RequestsSet requestId (request_of k) ::
  broadcast requestId (ra_pickup k) (ra_dropoff k)
            (calculateFare (ra_distance k) (ra_duration k))
            (activeDrivers w) ++
  [Emit (to_socket (id (ra_socket k)))
        (request_sent requestId
           (calculateFare (ra_distance k) (ra_duration k)))].
Proof.
  apply performed_of_trace. unfold run.
  now rewrite request_ride_resume_run.
Qed.
End BroadcastFacts.

Lemma NoDup_keys_filter {V} (f : string * V -> bool) (m : JSMap.t V) :
  NoDup (JSMap.keys m) -> NoDup (map fst (filter f m)).
Proof.
  unfold JSMap.keys. induction m as [|kv m IH]; simpl; intros Hnd.
  - constructor.
  - inversion Hnd as [|? ? Hnotin Hnd']; subst.
    destruct (f kv); simpl; [|now apply IH].
    constructor; [|now apply IH].
    intros Hin. apply Hnotin. apply in_map_iff in Hin as [kv' [Hfst Hin]].
    apply filter_In in Hin as [Hin _]. rewrite <- Hfst. now apply in_map.
Qed.

(** C10: the continuation of 'request-ride' first stores the request in the
    ledger, then emits the 'new-ride-request' notifications, then emits
    'request-sent' to the passenger; no write to the ledger follows an
    emission, and the ledger holds the request under its id when the
    continuation is done. *)
Theorem request_stored_before_notifications `{Libm} w k requestId :
  performed (request_ride_resume k requestId) w =
  RequestsSet requestId (request_of k) ::
  broadcast requestId (ra_pickup k) (ra_dropoff k)
            (calculateFare (ra_distance k) (ra_duration k))
            (activeDrivers w) ++
  [Emit (to_socket (id (ra_socket k)))
        (request_sent requestId
           (calculateFare (ra_distance k) (ra_duration k)))] /\
  emits_after_ledger_writes (performed (request_ride_resume k requestId) w)
  = true /\
  JSMap.get requestId
            (rideRequests (run (request_ride_resume k requestId) w))
  = Some (request_of k).
Proof.
  split; [apply performed_request_ride_resume|]. split.
  - rewrite performed_request_ride_resume. cbn [emits_after_ledger_writes is_emit].
    apply all_emits_after_ledger_writes.
    rewrite forallb_app, broadcast_all_emits. reflexivity.
  - unfold run. rewrite request_ride_resume_run. simpl.
    apply JSMapFacts.get_set_eq.
Qed.

(** C4: when 'request-ride' resumes in a world [w] whose maps hold one entry
    per key, 'new-ride-request' is emitted to the room of a socket exactly
    when [activeDrivers] of [w] holds an entry for that socket whose
    distance to the pickup tests [< 5]; each such socket is addressed once;
    every such emission carries the request id, pickup, dropoff and fare;
    and a later 'driver-location' event emits none. *)
Theorem broadcast_reaches_exactly_nearby `{Libm} w k requestId :
  well_formed w ->
  let acts := performed (request_ride_resume k requestId) w in
  let notice :=
    new_ride_request requestId (ra_pickup k) (ra_dropoff k)
                     (calculateFare (ra_distance k) (ra_duration k)) in
  (forall sid,
      In sid (notified acts) <->
      exists driver,
        JSMap.get sid (activeDrivers w) = Some driver /\
        within_5km (ra_pickup k) driver = true) /\
  NoDup (notified acts) /\
  (forall target rid pickup dropoff fare,
      In (Emit target (new_ride_request rid pickup dropoff fare)) acts ->
      new_ride_request rid pickup dropoff fare = notice /\
      exists sid, target = to_room sid /\ In sid (notified acts)) /\
  (forall socket lat lng w',
      notified (performed (on_driver_location socket lat lng) w') = []).
Proof.
  intros [Hnd _]. cbv zeta.
  rewrite performed_request_ride_resume.
  set (fare := calculateFare _ _).
  assert (Hnot : notified
            (RequestsSet requestId (request_of k) ::
             broadcast requestId (ra_pickup k) (ra_dropoff k) fare
                       (activeDrivers w) ++
             [Emit (to_socket (id (ra_socket k))) (request_sent requestId fare)])
          = map fst (filter (fun kv => within_5km (ra_pickup k) (snd kv))
                            (activeDrivers w))).
  { unfold notified at 1. cbn [flat_map app]. rewrite flat_map_app.
    fold (notified (broadcast requestId (ra_pickup k) (ra_dropoff k) fare
                              (activeDrivers w))).
    rewrite notified_broadcast. cbn. now rewrite app_nil_r. }
  rewrite Hnot. split; [|split; [|split]].
  - intros sid. split.
    + intros Hin. apply in_map_iff in Hin as [[sid' d] [Hfst Hin]].
      simpl in Hfst. subst sid'. apply filter_In in Hin as [Hin Hw].
      exists d. split; [|assumption]. now apply JSMapFacts.In_get.
    + intros [d [Hg Hw]]. apply in_map_iff. exists (sid, d).
      split; [reflexivity|]. apply filter_In. split; [|assumption].
      now apply JSMapFacts.get_In.
  - now apply NoDup_keys_filter.
  - intros target rid pickup dropoff fare' [Heq|Hin]; [discriminate|].
    apply in_app_or in Hin as [Hin|[Heq|[]]]; [|discriminate].
    unfold broadcast in Hin. apply in_map_iff in Hin as [kv [Heq Hin]].
    inversion Heq; subst. split; [reflexivity|].
    exists (fst kv). split; [reflexivity|]. now apply in_map.
  - intros socket lat lng w'.
    rewrite (performed_of_trace _ w'
               [DriversSet (id socket)
                  (mkDriver (user_id socket) lat lng)]); reflexivity.
Qed.

(** C4 at work: alice's request resumes while bob, carol and dave are
    registered. *)
Lemma broadcast_reaches_exactly_nearby_witness :
  well_formed Scenario.registered /\
  NoDup (notified
           (performed
              (@request_ride_resume Scenario.small_angle Scenario.route
                 Scenario.k3j9x0q1z)
              Scenario.registered)).
Proof.
  assert (Hwf : well_formed Scenario.registered).
  { split; repeat constructor; simpl; intuition discriminate. }
  split; [exact Hwf|].
  exact (proj1 (proj2
    (@broadcast_reaches_exactly_nearby Scenario.small_angle
       Scenario.registered Scenario.route Scenario.k3j9x0q1z Hwf))).
Defined.

(** With the small-angle functions bob (0 km) and carol (about 1.1 km) are
    notified of alice's request, dave (about 111 km) is not. *)
Lemma scenario_broadcast :
  notified
    (performed
       (@request_ride_resume Scenario.small_angle Scenario.route
          Scenario.k3j9x0q1z)
       Scenario.registered)
  = [id Scenario.bob; id Scenario.carol].
Proof. vm_compute. reflexivity. Qed.

(** Two continuations that draw the same id: the second replaces the entry
    of the first and the ledger does not grow. *)
Lemma same_id_overwrites `{Libm} w k1 k2 requestId :
  let w1 := run (request_ride_resume k1 requestId) w in
  let w2 := run (request_ride_resume k2 requestId) w1 in
  JSMap.get requestId (rideRequests w1) = Some (request_of k1) /\
  JSMap.get requestId (rideRequests w2) = Some (request_of k2) /\
  JSMap.keys (rideRequests w2) = JSMap.keys (rideRequests w1).
Proof.
  cbv zeta. unfold run. rewrite !request_ride_resume_run. cbn [snd rideRequests].
  split; [apply JSMapFacts.get_set_eq|].
  split; [apply JSMapFacts.get_set_eq|].
  apply JSMapFacts.keys_set_present. now rewrite JSMapFacts.get_set_eq.
Qed.

(** C6 (as stated, refuted): the request id is whatever [Math.random]
    yields and is stored with a plain [set]. alice's and bob's requests draw
    the same id on an empty server: the second replaces the entry of the
    first, and the ledger ends with bob's request alone. *)
Lemma request_id_collision_overwrites :
  let w1 :=
    run (@request_ride_resume Scenario.small_angle Scenario.route
           Scenario.k3j9x0q1z) init in
  let w2 :=
    run (@request_ride_resume Scenario.small_angle Scenario.route_of_bob
           Scenario.k3j9x0q1z) w1 in
  rideRequests w1 = [(Scenario.k3j9x0q1z, request_of Scenario.route)] /\
  rideRequests w2 = [(Scenario.k3j9x0q1z, request_of Scenario.route_of_bob)] /\
  passengerId (request_of Scenario.route)
  <> passengerId (request_of Scenario.route_of_bob).
Proof.
  cbv zeta. unfold run. rewrite !request_ride_resume_run.
  cbn [snd rideRequests init JSMap.empty JSMap.set].
  rewrite String.eqb_refl.
  split; [reflexivity|]. split; [reflexivity|].
  unfold request_of, Scenario.route, Scenario.route_of_bob.
  cbn [passengerId ra_socket user_id Scenario.alice Scenario.bob].
  discriminate.
Qed.

(** C6 (amended): the continuation of 'request-ride' stores the request
    under the id drawn from [Math.random] and emits 'request-sent' with that
    id and the computed fare to the requesting socket; being in the ledger
    is being PENDING. When the drawn id is not yet a key of the ledger, the
    request gets a new entry, at the end, and every other entry is left as
    it was. *)
Theorem request_ride_stores_fresh_request `{Libm} w k requestId :
  JSMap.get requestId (rideRequests w) = None ->
  let w' := run (request_ride_resume k requestId) w in
  JSMap.get requestId (rideRequests w') = Some (request_of k) /\
  JSMap.keys (rideRequests w') = JSMap.keys (rideRequests w) ++ [requestId] /\
  (forall rid, rid <> requestId ->
     JSMap.get rid (rideRequests w') = JSMap.get rid (rideRequests w)) /\
  In (Emit (to_socket (id (ra_socket k)))
           (request_sent requestId (fare (request_of k))))
     (performed (request_ride_resume k requestId) w).
Proof.
  intros Hfresh. cbv zeta. rewrite performed_request_ride_resume.
  unfold run. rewrite request_ride_resume_run. cbn [snd rideRequests].
  split; [apply JSMapFacts.get_set_eq|].
  split; [now apply JSMapFacts.keys_set_absent|].
  split.
  - intros rid Hne. apply JSMapFacts.get_set_neq. congruence.
  - right. apply in_or_app. right. now left.
Qed.

(** The amended C6 at work: alice's request on the empty ledger. *)
Lemma request_ride_stores_fresh_request_witness :
  JSMap.get Scenario.k3j9x0q1z (rideRequests Scenario.registered) = None /\
  JSMap.get Scenario.k3j9x0q1z
    (rideRequests
       (run (@request_ride_resume Scenario.small_angle Scenario.route
               Scenario.k3j9x0q1z)
            Scenario.registered))
  = Some (request_of Scenario.route).
Proof.
  split; [reflexivity|].
  exact (proj1 (@request_ride_stores_fresh_request Scenario.small_angle
                  Scenario.registered Scenario.route Scenario.k3j9x0q1z
                  (eq_refl None))).
Defined.

(* ================================================================= *)
(** ** The driver registry *)

(** C7 (as stated, refuted): no reading of the stored entry gives the time
    of the report. The same report delivered at time 0 and at time 1 leaves
    the same entry. *)
Lemma registry_entry_carries_no_timestamp :
  ~ (exists stamp : Driver -> Z,
        forall now : Z,
          option_map stamp
            (JSMap.get (id Scenario.bob)
               (activeDrivers
                  (@deliver Scenario.small_angle now
                     (driver_location Scenario.bob (of_Z 1) (of_Z 1)) init)))
          = Some now).
Proof.
  intros [stamp Hs].
  pose proof (Hs 0) as H0. pose proof (Hs 1) as H1.
  cbn in H0, H1. congruence.
Qed.

Lemma report_all_frame socket reports w :
  rideRequests (report_all socket reports w) = rideRequests w /\
  awaiting (report_all socket reports w) = awaiting w /\
  inserting (report_all socket reports w) = inserting w /\
  (forall sid, sid <> id socket ->
     JSMap.get sid (activeDrivers (report_all socket reports w))
     = JSMap.get sid (activeDrivers w)) /\
  (NoDup (JSMap.keys (activeDrivers w)) ->
   NoDup (JSMap.keys (activeDrivers (report_all socket reports w)))).
Proof.
  unfold report_all. revert w.
  induction reports as [|[la lo] reports IH]; intros w; cbn [fold_left].
  - repeat split; auto.
  - destruct (IH (run (on_driver_location socket (fst (la, lo)) (snd (la, lo))) w))
      as (Hr & Ha & Hi & Hg & Hn).
    rewrite Hr, Ha, Hi. repeat split; try reflexivity.
    + intros sid Hne. rewrite (Hg sid Hne). cbn.
      apply JSMapFacts.get_set_neq. congruence.
    + intros Hnd. apply Hn. cbn. now apply JSMapFacts.NoDup_set.
Qed.

(** C7 (amended): a 'driver-location' event inserts or overwrites the one
    entry of the reporting socket with the driver id and the reported
    position; no time is stored. After any run of such events of one socket,
    from a world whose maps hold one entry per key, [activeDrivers] holds
    exactly one entry for the socket, with the position of the last report;
    the entries of the other sockets and the ledger are as before. *)
Theorem driver_location_keeps_latest w socket reports lat lng :
  well_formed w ->
  let w' := report_all socket (reports ++ [(lat, lng)]) w in
  JSMap.get (id socket) (activeDrivers w')
  = Some {| driverId := user_id socket; driver_lat := lat; driver_lng := lng |} /\
  JSMap.count (id socket) (activeDrivers w') = 1%nat /\
  (forall sid, sid <> id socket ->
     JSMap.get sid (activeDrivers w') = JSMap.get sid (activeDrivers w)) /\
  rideRequests w' = rideRequests w.
Proof.
  intros [Hnd _]. cbv zeta.
  destruct (report_all_frame socket reports w) as (Hr & _ & _ & Hg & Hn).
  unfold report_all in *. rewrite fold_left_app. cbn [fold_left fst snd].
  set (w1 := fold_left _ reports w) in *.
  cbn. repeat split.
  - apply JSMapFacts.get_set_eq.
  - apply JSMapFacts.count_set. now apply Hn.
  - intros sid Hne. rewrite JSMapFacts.get_set_neq by congruence.
    now apply Hg.
  - assumption.
Qed.

(** The amended C7 at work: bob reports twice while carol is registered. *)
Lemma driver_location_keeps_latest_witness :
  well_formed Scenario.pending /\
  JSMap.count (id Scenario.bob)
    (activeDrivers
       (report_all Scenario.bob [(of_Z 2, of_Z 2); (of_Z 3, of_Z 3)]
                   Scenario.pending))
  = 1%nat.
Proof.
  assert (Hwf : well_formed Scenario.pending).
  { split; repeat constructor; simpl; intuition discriminate. }
  split; [exact Hwf|].
  exact (proj1 (proj2
    (driver_location_keeps_latest Scenario.pending Scenario.bob
       [(of_Z 2, of_Z 2)] (of_Z 3) (of_Z 3) Hwf))).
Defined.

(* ================================================================= *)
(** ** More on the fare *)

Module LowerBoundFacts.

(** [0 <= x] holds exactly for the zeros and the Numbers of positive sign. *)
Lemma leb_zero x :
  leb (of_Z 0) x = true <->
  match x with
  | S754_zero _ => True
  | S754_finite s _ _ | S754_infinity s => s = false
  | S754_nan => False
  end.
Proof.
  change (of_Z 0) with (S754_zero false).
  destruct x as [s|s| |s m e]; try destruct s; cbn; intuition congruence.
Qed.

Lemma pow2_pos k : 0 <= k -> 0 < 2 ^ k.
Proof. intros. apply Z.pow_pos_nonneg; lia. Qed.

Lemma scaled_shift m e k :
  0 <= k -> -3000 <= e -> scaled (m * 2 ^ k) e = scaled m (e + k).
Proof.
  intros Hk He. unfold scaled.
  replace (e + k + 3000) with (k + (e + 3000)) by lia.
  rewrite (Z.pow_add_r 2 k (e + 3000)) by lia. ring.
Qed.

Lemma scaled_mono_exp m e e' :
  0 <= m -> -3000 <= e -> e <= e' -> scaled m e <= scaled m e'.
Proof.
  intros Hm He Hle. unfold scaled.
  apply Z.mul_le_mono_nonneg_l; [assumption|].
  apply Z.pow_le_mono_r; lia.
Qed.

Lemma scaled_mono m m' e : -3000 <= e -> m <= m' -> scaled m e <= scaled m' e.
Proof.
  intros He Hm. unfold scaled.
  apply Z.mul_le_mono_nonneg_r; [|assumption].
  apply Z.lt_le_incl, pow2_pos. lia.
Qed.

Lemma scaled_lt_inv m m' e : -3000 <= e -> scaled m e <= scaled m' e -> m <= m'.
Proof.
  intros He H. unfold scaled in H.
  apply Z.mul_le_mono_pos_r in H; [assumption|]. apply pow2_pos. lia.
Qed.

Lemma round_nearest_even_ge m l : m <= round_nearest_even m l.
Proof.
  destruct l as [|[]]; simpl; try lia. destruct (Z.even m); lia.
Qed.

(** Shifting right to the exponent of the format keeps the value at or
    above a normal Number it was at or above. *)
Lemma shr_fexp_at_least m e l mc ec :
  2 ^ 52 <= Z.pos mc < 2 ^ 53 -> -1074 <= ec ->
  0 < m -> -3000 <= e ->
  scaled (Z.pos mc) ec <= scaled m e ->
  let m1 := shr_m (fst (shr_fexp prec emax m e l)) in
  let e1 := snd (shr_fexp prec emax m e l) in
  -1074 <= e1 /\ e <= e1 /\ scaled (Z.pos mc) ec <= scaled m1 e1.
Proof.
  intros Hmc Hec Hm He Hv. cbv zeta.
  destruct (shr_fexp_spec m e l ltac:(lia)) as [-> ->].
  set (d := Zdigits2 m).
  set (n := fexp prec emax (d + e) - e).
  assert (Hfexp : fexp prec emax (d + e) = Z.max (d + e - 53) (-1074))
    by reflexivity.
  destruct (Z_le_gt_dec n 0) as [Hn|Hn].
  - rewrite Z.max_l by lia. rewrite Z.div_1_r, Z.add_0_r.
    repeat split; first [assumption | lia].
  - rewrite Z.max_r by lia.
    assert (He1 : e + n = Z.max (d + e - 53) (-1074)) by lia.
    split; [lia|]. split; [lia|].
    assert (Hp : 0 < 2 ^ n) by (apply pow2_pos; lia).
    destruct (Z_le_gt_dec (e + n) ec) as [Hle|Hgt].
    + (* the bound lies on the grid of the exponent *)
      set (K := Z.pos mc * 2 ^ (ec - (e + n))).
      assert (HK : scaled (Z.pos mc) ec = scaled K (e + n)).
      { unfold K. rewrite scaled_shift by lia. f_equal. lia. }
      rewrite HK in *.
      apply scaled_mono; [lia|].
      apply Z.div_le_lower_bound; [assumption|].
      apply (scaled_lt_inv _ _ e); [assumption|].
      rewrite Z.mul_comm. rewrite scaled_shift by lia. assumption.
    + (* the shifted mantissa has 53 bits *)
      assert (Hd : e + n = d + e - 53) by lia.
      assert (Hdig : 2 ^ (d - 1) <= m).
      { destruct m as [|p|p]; try lia. subst d. cbn [Zdigits2].
        pose proof (digits_le p) as Hl.
        replace (Z.pos (digits2_pos p)) with (Z.pos (digits2_pos p) - 1 + 1) in Hl by lia.
        rewrite Z.pow_add_r in Hl by lia. change (2 ^ 1) with 2 in Hl. lia. }
      assert (Hm1 : 2 ^ 52 <= m / 2 ^ n).
      { apply Z.div_le_lower_bound; [assumption|].
        rewrite <- Z.pow_add_r by lia. replace (n + 52) with (d - 1) by lia.
        assumption. }
      apply Z.le_trans with (scaled (2 ^ 53) ec).
      { apply scaled_mono; lia. }
      apply Z.le_trans with (scaled (2 ^ 52) (ec + 1)).
      { change (2 ^ 53) with (2 ^ 52 * 2 ^ 1). rewrite scaled_shift by lia. lia. }
      apply Z.le_trans with (scaled (2 ^ 52) (e + n)).
      { apply scaled_mono_exp; lia. }
      apply scaled_mono; lia.
Qed.

Lemma scaled_pos m e : 0 < m -> -3000 <= e -> 0 < scaled m e.
Proof.
  intros Hm He. unfold scaled. apply Z.mul_pos_pos; [assumption|].
  apply pow2_pos. lia.
Qed.

(** Rounding to nearest keeps the value at or above a normal Number it
    was at or above. *)
Lemma binary_round_aux_at_least m e l mc ec :
  2 ^ 52 <= Z.pos mc < 2 ^ 53 -> -1074 <= ec ->
  0 < m -> -3000 <= e ->
  scaled (Z.pos mc) ec <= scaled m e ->
  at_least mc ec (binary_round_aux prec emax false m e l).
Proof.
  intros Hmc Hec Hm He Hv.
  destruct (shr_fexp_at_least m e l mc ec Hmc Hec Hm He Hv) as (He1 & Hee1 & Hv1).
  pose proof (shr_fexp_digits m e l ltac:(lia)) as Hd1.
  unfold binary_round_aux.
  destruct (shr_fexp prec emax m e l) as [mrs' e']. cbn [fst snd] in *.
  set (m1 := shr_m mrs') in *.
  set (r := round_nearest_even m1 (loc_of_shr_record mrs')).
  assert (Hr1 : m1 <= r) by apply round_nearest_even_ge.
  assert (Hr2 : r <= m1 + 1) by apply round_nearest_even_le.
  assert (Hvr : scaled (Z.pos mc) ec <= scaled r e').
  { eapply Z.le_trans; [exact Hv1|]. apply scaled_mono; lia. }
  assert (Hcpos : 0 < scaled (Z.pos mc) ec) by (apply scaled_pos; lia).
  assert (Hrpos : 0 < r).
  { destruct (Z_lt_le_dec 0 r) as [|Hr0]; [assumption|]. exfalso.
    assert (scaled r e' <= scaled 0 e') by (apply scaled_mono; lia).
    unfold scaled at 2 in H. lia. }
  destruct (shr_fexp_spec r e' loc_Exact ltac:(lia)) as [Hm2 He2].
  destruct (shr_fexp prec emax r e' loc_Exact) as [mrs'' e''].
  cbn [fst snd] in Hm2, He2.
  assert (Hfexp : forall k, fexp prec emax k = Z.max (k - 53) (-1074))
    by reflexivity.
  assert (Hres : 0 < shr_m mrs'' < 2 ^ 53 /\ -1074 <= e'' /\
                 scaled r e' = scaled (shr_m mrs'') e'').
  { rewrite Hm2, He2, Hfexp.
    change (2 ^ prec) with (2 ^ 53) in Hd1.
    destruct (Z_lt_le_dec r (2 ^ 53)) as [Hlt|Hge].
    - assert (Hdig : Zdigits2 r <= 53)
        by (apply (proj2 (Zdigits2_bound r 53 ltac:(lia) ltac:(lia))); assumption).
      rewrite Z.max_l by lia. rewrite Z.div_1_r, Z.add_0_r.
      repeat split; lia.
    - assert (Hr : r = 2 ^ 53) by lia. rewrite Hr.
      change (Zdigits2 (2 ^ 53)) with 54.
      replace (Z.max (54 + e' - 53) (-1074) - e') with 1 by lia.
      change (Z.max 0 1) with 1. change (2 ^ 53 / 2 ^ 1) with (2 ^ 52).
      split; [split; [reflexivity | reflexivity]|]. split; [lia|].
      change (2 ^ 53) with (2 ^ 52 * 2 ^ 1). now rewrite scaled_shift by lia. }
  destruct Hres as (Hm2b & He2b & Hv2). rewrite Hv2 in Hvr.
  destruct (shr_m mrs'') as [|p|p]; try lia.
  destruct (e'' <=? emax - prec); [|exact I].
  cbn [at_least]. repeat split; try assumption. apply Hm2b.
Qed.

Lemma binary_round_aux_exponent m e l :
  0 <= m -> positive_or_zero (binary_round_aux prec emax false m e l).
Proof.
  intros Hm. unfold binary_round_aux.
  destruct (shr_fexp_spec m e l Hm) as [Hm1 He1].
  pose proof (shr_fexp_digits m e l Hm) as Hd1.
  destruct (shr_fexp prec emax m e l) as [mrs' e']. cbn [fst snd] in *.
  set (r := round_nearest_even (shr_m mrs') (loc_of_shr_record mrs')).
  assert (Hr : 0 <= r) by (apply round_nearest_even_nonneg; lia).
  destruct (shr_fexp_spec r e' loc_Exact Hr) as [Hm2 He2].
  pose proof (shr_fexp_digits r e' loc_Exact Hr) as Hd2.
  destruct (shr_fexp prec emax r e' loc_Exact) as [mrs'' e''].
  cbn [fst snd] in *.
  assert (He' : -1074 <= e').
  { rewrite He1. change (fexp prec emax (Zdigits2 m + e))
      with (Z.max (Zdigits2 m + e - 53) (-1074)). lia. }
  destruct (shr_m mrs'') as [|p|p]; [exact I| |lia].
  destruct (e'' <=? emax - prec); [|exact I].
  cbn [positive_or_zero]. lia.
Qed.

(** A Number at least a normal one compares so. *)
Lemma at_least_leb mc ec x :
  2 ^ 52 <= Z.pos mc < 2 ^ 53 -> -1074 <= ec ->
  at_least mc ec x -> leb (S754_finite false mc ec) x = true.
Proof.
  intros Hmc Hec Hx. destruct x as [s|[|]| |[|] m e]; try contradiction.
  - reflexivity.
  - destruct Hx as (Hm & He & Hv). change (2 ^ prec) with (2 ^ 53) in Hm.
    unfold leb, SFleb. cbn [SFcompare].
    destruct (Z.compare_spec ec e) as [Heq|Hlt|Hgt]; [|reflexivity|].
    + subst e. apply scaled_lt_inv in Hv; [|lia].
      rewrite Pos.compare_cont_spec. cbn [Pos.switch_Eq].
      destruct (Pos.compare_spec mc m) as [?|?|Hgt]; try reflexivity. lia.
    + exfalso.
      assert (scaled (Z.pos m) e <= scaled (2 ^ 53) e)
        by (apply scaled_mono; lia).
      assert (scaled (2 ^ 53) e = scaled (2 ^ 52) (e + 1)).
      { change (2 ^ 53) with (2 ^ 52 * 2 ^ 1).
        now rewrite scaled_shift by lia. }
      assert (scaled (2 ^ 52) (e + 1) <= scaled (2 ^ 52) ec)
        by (apply scaled_mono_exp; lia).
      assert (scaled (2 ^ 52) ec <= scaled (Z.pos mc) ec)
        by (apply scaled_mono; lia).
      assert (scaled (Z.pos m) e < scaled (2 ^ 53) e).
      { unfold scaled. apply Z.mul_lt_mono_pos_r; [|assumption].
        apply pow2_pos. lia. }
      lia.
Qed.

Lemma binary_normalize_at_least M e mc ec :
  2 ^ 52 <= Z.pos mc < 2 ^ 53 -> -1074 <= ec ->
  0 < M -> -1074 <= e ->
  scaled (Z.pos mc) ec <= scaled M e ->
  at_least mc ec (binary_normalize prec emax M e false).
Proof.
  intros Hmc Hec HM He Hv. destruct M as [|p|p]; try lia.
  cbn [binary_normalize]. unfold binary_round.
  set (target := fexp prec emax (Z.pos (digits2_pos p) + e)).
  assert (Ht : -1074 <= target).
  { subst target.
    change (fexp prec emax (Z.pos (digits2_pos p) + e))
      with (Z.max (Z.pos (digits2_pos p) + e - 53) (-1074)). lia. }
  destruct (shl_align_spec p e target) as (Hs & Hf & _).
  destruct (shl_align p e target) as [mz ez]. cbn [fst snd] in Hs, Hf.
  apply binary_round_aux_at_least; try assumption; try lia.
  rewrite Hf, Hs. rewrite scaled_shift by lia.
  replace (Z.min e target + (e - Z.min e target)) with e by lia. assumption.
Qed.

Lemma add_finite_at_least mx ex my ey mc ec :
  2 ^ 52 <= Z.pos mc < 2 ^ 53 -> -1074 <= ec ->
  -1074 <= ex -> -1074 <= ey ->
  scaled (Z.pos mc) ec <= scaled (Z.pos mx) ex + scaled (Z.pos my) ey ->
  at_least mc ec (S754_finite false mx ex + S754_finite false my ey)%num.
Proof.
  intros Hmc Hec Hex Hey Hv. cbn [add SFadd cond_Zopp].
  destruct (shl_align_spec mx ex (Z.min ex ey)) as (_ & Hfx & _).
  destruct (shl_align_spec my ey (Z.min ex ey)) as (_ & Hfy & _).
  replace (Z.min ex (Z.min ex ey)) with (Z.min ex ey) in Hfx by lia.
  replace (Z.min ey (Z.min ex ey)) with (Z.min ex ey) in Hfy by lia.
  apply binary_normalize_at_least; try assumption; try lia.
  rewrite Hfx, Hfy. unfold scaled at 2. rewrite Z.mul_add_distr_r.
  fold (scaled (Z.pos mx * 2 ^ (ex - Z.min ex ey)) (Z.min ex ey)).
  fold (scaled (Z.pos my * 2 ^ (ey - Z.min ex ey)) (Z.min ex ey)).
  rewrite !scaled_shift by lia.
  replace (Z.min ex ey + (ex - Z.min ex ey)) with ex by lia.
  replace (Z.min ex ey + (ey - Z.min ex ey)) with ey by lia.
  assumption.
Qed.

(** Adding a Number that is not negative keeps a lower bound. *)
Lemma add_at_least_l x y mc ec :
  2 ^ 52 <= Z.pos mc < 2 ^ 53 -> -1074 <= ec ->
  at_least mc ec x -> positive_or_zero y -> at_least mc ec (x + y)%num.
Proof.
  intros Hmc Hec Hx Hy.
  destruct x as [sx|[|]| |[|] mx ex]; try contradiction;
  destruct y as [sy|[|]| |[|] my ey]; try contradiction; try exact Hx;
    try exact I.
  destruct Hx as (Hmx & Hex & Hv). cbn [positive_or_zero] in Hy.
  apply add_finite_at_least; try assumption.
  assert (0 < scaled (Z.pos my) ey) by (apply scaled_pos; lia). lia.
Qed.

(** The sum of two Numbers that have lower bounds has the sum of the
    bounds as a lower bound. *)
Lemma add_at_least x y m1 e1 m2 e2 mc ec :
  2 ^ 52 <= Z.pos mc < 2 ^ 53 -> -1074 <= ec ->
  -3000 <= e1 -> -3000 <= e2 ->
  at_least m1 e1 x -> at_least m2 e2 y ->
  scaled (Z.pos mc) ec <= scaled (Z.pos m1) e1 + scaled (Z.pos m2) e2 ->
  at_least mc ec (x + y)%num.
Proof.
  intros Hmc Hec He1 He2 Hx Hy Hc.
  destruct x as [sx|[|]| |[|] mx ex]; try contradiction;
  destruct y as [sy|[|]| |[|] my ey]; try contradiction; try exact I.
  destruct Hx as (Hmx & Hex & Hvx). destruct Hy as (Hmy & Hey & Hvy).
  apply add_finite_at_least; try assumption. lia.
Qed.

(** Multiplying a Number that is not negative by a positive one. *)
Lemma mul_positive_or_zero x m e :
  leb (of_Z 0) x = true -> positive_or_zero (x * S754_finite false m e)%num.
Proof.
  intros Hx. apply leb_zero in Hx.
  destruct x as [s|s| |s mx ex]; try contradiction; subst; try exact I.
  cbn [mul SFmul xorb]. apply binary_round_aux_exponent. lia.
Qed.

Lemma positive_or_zero_leb x : positive_or_zero x -> leb (of_Z 0) x = true.
Proof.
  intros Hx. apply leb_zero.
  destruct x as [s|[|]| |[|] m e]; try contradiction; auto.
Qed.

End LowerBoundFacts.

Module FloorFacts.
Import LowerBoundFacts.

(** The Numbers 10, 50 and 60 as the format holds them. *)
Lemma ten : of_Z 10 = S754_finite false 5629499534213120 (-49).
Proof. reflexivity. Qed.
Lemma fifty : of_Z 50 = S754_finite false 7036874417766400 (-47).
Proof. reflexivity. Qed.
Lemma sixty : of_Z 60 = S754_finite false 8444249301319680 (-47).
Proof. reflexivity. Qed.

Lemma scaled_ten : scaled 5629499534213120 (-49) = 10 * 2 ^ 3000.
Proof.
  unfold scaled. change 5629499534213120 with (10 * 2 ^ 49).
  rewrite <- Z.mul_assoc, <- Z.pow_add_r by lia. reflexivity.
Qed.
Lemma scaled_fifty : scaled 7036874417766400 (-47) = 50 * 2 ^ 3000.
Proof.
  unfold scaled. change 7036874417766400 with (50 * 2 ^ 47).
  rewrite <- Z.mul_assoc, <- Z.pow_add_r by lia. reflexivity.
Qed.
Lemma scaled_sixty : scaled 8444249301319680 (-47) = 60 * 2 ^ 3000.
Proof.
  unfold scaled. change 8444249301319680 with (60 * 2 ^ 47).
  rewrite <- Z.mul_assoc, <- Z.pow_add_r by lia. reflexivity.
Qed.

(** A fifth of at least 50 is at least 10: the literal 0.2 is a little
    above 1/5. *)
Lemma commission_at_least x :
  at_least 7036874417766400 (-47) x ->
  at_least 5629499534213120 (-49) (x * COMMISSION_RATE)%num.
Proof.
  intros Hx. destruct x as [s|[|]| |[|] m e]; try contradiction; [exact I|].
  destruct Hx as (Hm & He & Hv). rewrite scaled_fifty in Hv.
  unfold COMMISSION_RATE, lit_0_2. cbn [mul SFmul xorb].
  apply binary_round_aux_at_least; try lia.
  rewrite scaled_ten. unfold scaled in *.
  replace (e + 3000) with (55 + (e + -55 + 3000)) in Hv by lia.
  rewrite Z.pow_add_r in Hv by lia.
  set (A := 2 ^ (e + -55 + 3000)) in *.
  assert (HA : 0 < A) by (apply pow2_pos; lia).
  set (B := 2 ^ 3000) in *.
  assert (HB : 0 < B) by (apply pow2_pos; lia).
  rewrite Pos2Z.inj_mul. change (2 ^ 55) with 36028797018963968 in Hv.
  set (X := Z.pos m * A).
  assert (HX : 50 * B <= 36028797018963968 * X) by (subst X; lia).
  replace (Z.pos m * 7205759403792794 * A) with (7205759403792794 * X)
    by (subst X; ring).
  lia.
Qed.

(** [Math.round] keeps the lower bound 60. *)
Lemma Math_round_at_least x :
  at_least 8444249301319680 (-47) x ->
  at_least 8444249301319680 (-47) (Math_round x).
Proof.
  intros Hx. destruct x as [s|[|]| |[|] m e]; try contradiction; [exact I|].
  pose proof Hx as (Hm & He & Hv). cbn [Math_round].
  destruct (Z.leb_spec 0 e) as [Hpos|Hneg]; [exact Hx|].
  rewrite scaled_sixty in Hv. unfold scaled in Hv.
  set (r := (2 * Z.pos m + 2 ^ (- e)) / 2 ^ (1 - e)).
  assert (Hp : 0 < 2 ^ (- e)) by (apply pow2_pos; lia).
  assert (Hm60 : 60 * 2 ^ (- e) <= Z.pos m).
  { replace 3000 with (- e + (e + 3000)) in Hv at 1 by lia.
    rewrite Z.pow_add_r in Hv by lia.
    rewrite Z.mul_assoc in Hv.
    apply Z.mul_le_mono_pos_r in Hv; [assumption|]. apply pow2_pos. lia. }
  assert (Hr : 60 <= r).
  { subst r. apply Z.div_le_lower_bound; [apply pow2_pos; lia|].
    replace (1 - e) with (1 + - e) by lia.
    rewrite Z.pow_add_r by lia. change (2 ^ 1) with 2. lia. }
  destruct (Z.eqb_spec r 0) as [H0|_]; [lia|].
  unfold of_Z. apply binary_normalize_at_least; try lia.
  rewrite scaled_sixty. unfold scaled. rewrite Z.add_0_l.
  apply Z.mul_le_mono_nonneg_r; [|assumption].
  apply Z.lt_le_incl, pow2_pos. lia.
Qed.

End FloorFacts.


(** X1: a trip whose pickup and dropoff are the same place, of latitude
    between -90 and 90 and finite longitude, has distance +0 and duration
    +0, and its fare is the base alone with its commission: base 50,
    distance charge 0, time charge 0, commission 10, total 60. *)
Theorem same_place_fare `{LibmLaws} place :
  valid (lat place) = true ->
  leb (abs (lat place)) (of_Z 90) = true ->
  is_finite (lng place) = true ->
  getRouteDistance place place = (pos_zero, pos_zero) /\
  calculateFare (fst (getRouteDistance place place))
                (snd (getRouteDistance place place))
  = {| base := of_Z 50; distance := pos_zero; time := pos_zero;
       commission := of_Z 10; total := of_Z 60 |}.
Proof.
  intros Hv Hb Hf.
  assert (Hfl : is_finite (lat place) = true).
  { destruct (lat place); try reflexivity; discriminate. }
  assert (E : getRouteDistance place place = (pos_zero, pos_zero)).
  { unfold getRouteDistance.
    rewrite (getDistance_same _ _ Hfl Hf (radians_finite _ Hv Hb)).
    reflexivity. }
  rewrite E. split; [reflexivity|]. vm_compute. reflexivity.
Qed.

(** X1 at work with the small-angle functions, at latitude -35 and
    longitude -56. *)
Lemma same_place_fare_witness :
  let place := mkCoord (of_Z (-35)) (of_Z (-56)) in
  valid (lat place) = true /\
  leb (abs (lat place)) (of_Z 90) = true /\
  is_finite (lng place) = true /\
  total (calculateFare
           (fst (@getRouteDistance Scenario.small_angle place place))
           (snd (@getRouteDistance Scenario.small_angle place place)))
  = of_Z 60.
Proof.
  cbv zeta. repeat (split; [reflexivity|]).
  exact (f_equal total
           (proj2 (@same_place_fare Scenario.small_angle small_angle_laws
                     (mkCoord (of_Z (-35)) (of_Z (-56)))
                     (eq_refl true) (eq_refl true) (eq_refl true)))).
Defined.

(** X2: the fare has a floor. When the distance and the duration are
    both [>= 0] (so neither is NaN), the distance charge and the time
    charge are [>= 0], the commission is [>= 10] and the total is [>= 60],
    in binary64 arithmetic and also when an amount overflows to +Infinity:
    no trip costs less than the trip of no length. *)
Theorem fare_of_nonnegative_trip_has_floor distanceKm durationMin :
  leb (of_Z 0) distanceKm = true ->
  leb (of_Z 0) durationMin = true ->
  let fare := calculateFare distanceKm durationMin in
  leb (of_Z 0) (distance fare) = true /\
  leb (of_Z 0) (time fare) = true /\
  leb (of_Z 10) (commission fare) = true /\
  leb (of_Z 60) (total fare) = true.
Proof.
  intros Hd Ht. cbv zeta. unfold calculateFare.
  cbn [distance time commission total].
  pose proof (LowerBoundFacts.mul_positive_or_zero
                distanceKm 5629499534213120 (-49) Hd) as Hdc.
  pose proof (LowerBoundFacts.mul_positive_or_zero
                durationMin 4503599627370496 (-51) Ht) as Htc.
  change (S754_finite false 5629499534213120 (-49)) with KM_RATE in Hdc.
  change (S754_finite false 4503599627370496 (-51)) with TIME_RATE in Htc.
  assert (N10 : 2 ^ 52 <= 5629499534213120 < 2 ^ 53)
    by (split; [discriminate | reflexivity]).
  assert (N50 : 2 ^ 52 <= 7036874417766400 < 2 ^ 53)
    by (split; [discriminate | reflexivity]).
  assert (N60 : 2 ^ 52 <= 8444249301319680 < 2 ^ 53)
    by (split; [discriminate | reflexivity]).
  assert (Hs : at_least 7036874417766400 (-47)
                 (BASE_FARE + distanceKm * KM_RATE + durationMin * TIME_RATE)%num).
  { apply LowerBoundFacts.add_at_least_l; [exact N50 | lia | | exact Htc].
    apply LowerBoundFacts.add_at_least_l; [exact N50 | lia | | exact Hdc].
    unfold BASE_FARE. rewrite FloorFacts.fifty. cbn [at_least].
    split; [reflexivity|]. split; [lia | apply Z.le_refl]. }
  pose proof (FloorFacts.commission_at_least _ Hs) as Hc.
  assert (Hsum : at_least 8444249301319680 (-47)
            ((BASE_FARE + distanceKm * KM_RATE + durationMin * TIME_RATE) +
             (BASE_FARE + distanceKm * KM_RATE + durationMin * TIME_RATE)
             * COMMISSION_RATE)%num).
  { apply (LowerBoundFacts.add_at_least _ _
             7036874417766400 (-47) 5629499534213120 (-49));
      [exact N60 | lia | lia | lia | exact Hs | exact Hc |].
    rewrite FloorFacts.scaled_sixty, FloorFacts.scaled_fifty, FloorFacts.scaled_ten.
    lia. }
  split; [now apply LowerBoundFacts.positive_or_zero_leb|].
  split; [now apply LowerBoundFacts.positive_or_zero_leb|].
  split.
  - rewrite FloorFacts.ten.
    apply LowerBoundFacts.at_least_leb; [exact N10 | lia | exact Hc].
  - rewrite FloorFacts.sixty.
    apply LowerBoundFacts.at_least_leb; [exact N60 | lia |].
    now apply FloorFacts.Math_round_at_least.
Qed.

(** X2 at work on a trip of 3.5 km and 7 minutes. *)
Lemma fare_of_nonnegative_trip_has_floor_witness :
  let km := (of_Z 7 / of_Z 2)%num in
  leb (of_Z 0) km = true /\
  leb (of_Z 0) (of_Z 7) = true /\
  leb (of_Z 60) (total (calculateFare km (of_Z 7))) = true.
Proof.
  cbv zeta. repeat (split; [reflexivity|]).
  exact (proj2 (proj2 (proj2
    (fare_of_nonnegative_trip_has_floor
       (of_Z 7 / of_Z 2)%num (of_Z 7) (eq_refl true) (eq_refl true))))).
Defined.

(** X23: the way back costs the same. Exchanging pickup and dropoff gives
    the same distance and the same duration, whatever the coordinates are,
    and so the same fare. *)
Theorem return_trip_costs_the_same `{LibmLaws} here there :
  getRouteDistance here there = getRouteDistance there here /\
  calculateFare (fst (getRouteDistance here there))
                (snd (getRouteDistance here there))
  = calculateFare (fst (getRouteDistance there here))
                  (snd (getRouteDistance there here)).
Proof.
  assert (E : getRouteDistance here there = getRouteDistance there here).
  { unfold getRouteDistance.
    now rewrite (getDistance_sym (lat here) (lng here) (lat there) (lng there)). }
  split; [exact E | now rewrite E].
Qed.

(** X23 at work with the small-angle functions, between (-35, -56) and
    (-34, -58). *)
Lemma return_trip_costs_the_same_witness :
  let here := mkCoord (of_Z (-35)) (of_Z (-56)) in
  let there := mkCoord (of_Z (-34)) (of_Z (-58)) in
  @getRouteDistance Scenario.small_angle here there
  = @getRouteDistance Scenario.small_angle there here.
Proof.
  exact (proj1 (@return_trip_costs_the_same Scenario.small_angle
                  small_angle_laws
                  (mkCoord (of_Z (-35)) (of_Z (-56)))
                  (mkCoord (of_Z (-34)) (of_Z (-58))))).
Defined.

(* ================================================================= *)
(** ** Whole runs of the event loop *)

Lemma nth_error_snoc {A} (l : list A) x :
  nth_error (l ++ [x]) (List.length l) = Some x.
Proof. induction l; simpl; auto. Qed.

Lemma remove_nth_snoc {A} (l : list A) x :
  remove_nth (List.length l) (l ++ [x]) = l.
Proof. induction l; simpl; congruence. Qed.

Lemma In_remove_nth {A} i (l : list A) x : In x (remove_nth i l) -> In x l.
Proof.
  revert i. induction l as [|y l IH]; intros [|i]; simpl; try tauto.
  intros [Heq|Hin]; [now left | right; eauto].
Qed.

Lemma In_snoc {A} (l : list A) x : In x (l ++ [x]).
Proof. apply in_or_app. right. now left. Qed.

Module JSMapMoreFacts.
Import JSMap.
Section Facts.
Context {V : Type}.
Implicit Types (m : JSMap.t V) (k : string) (v : V).

Lemma keys_set_incl k v m x : In x (keys m) -> In x (keys (set k v m)).
Proof.
  induction m as [|[k' v'] m IH]; simpl; [tauto|].
  destruct (String.eqb_spec k k') as [->|Hne]; simpl; tauto.
Qed.

Lemma keys_delete_other k m x :
  x <> k -> In x (keys m) -> In x (keys (delete k m)).
Proof.
  intros Hne. induction m as [|[k' v'] m IH]; simpl; [tauto|].
  destruct (String.eqb_spec k k') as [->|Hne']; simpl; [|tauto].
  intros [Heq|Hin]; [congruence|assumption].
Qed.

Lemma In_set k v m k' v' :
  In (k', v') (set k v m) -> (k', v') = (k, v) \/ In (k', v') m.
Proof.
  induction m as [|[k0 v0] m IH]; simpl.
  - intros [Heq|[]]. left. now symmetry.
  - destruct (String.eqb_spec k k0) as [->|Hne]; simpl.
    + intros [Heq|Hin]; [left; now symmetry | right; now right].
    + intros [Heq|Hin]; [right; now left|].
      destruct (IH Hin); [now left | right; now right].
Qed.

Lemma In_delete k m x : In x (delete k m) -> In x m.
Proof.
  induction m as [|[k0 v0] m IH]; simpl; [tauto|].
  destruct (String.eqb_spec k k0) as [->|Hne]; simpl; [tauto|].
  intros [Heq|Hin]; [now left | right; now apply IH].
Qed.
End Facts.
End JSMapMoreFacts.

Section EventLoopFacts.
Context `{Libm}.

Lemma steps_snoc es e w : steps (es ++ [e]) w = step e (steps es w).
Proof. unfold steps. now rewrite fold_left_app. Qed.

Lemma steps_reachable es : reachable (steps es init).
Proof.
  induction es as [|e es IH] using rev_ind.
  - constructor.
  - rewrite steps_snoc. now constructor.
Qed.

Lemma step_accept_ride w socket requestId request driver :
  JSMap.get requestId (rideRequests w) = Some request ->
  JSMap.get (id socket) (activeDrivers w) = Some driver ->
  step (accept_ride socket requestId) w =
  log (DbInsert (row_of request driver))
      (with_inserting
         (inserting w ++ [mkInsertThen socket requestId request driver]) w).
Proof.
  intros Hr Hd. cbn [step]. unfold run.
  now rewrite (accept_ride_inserts _ _ _ _ _ Hr Hd).
Qed.

(** A 'request-ride' event and the resumption of its handler. *)
Lemma steps_request_ride w socket pickup dropoff requestId :
  let distance :=
    getDistance (lat pickup) (lng pickup) (lat dropoff) (lng dropoff) in
  let duration := (distance * of_Z 2)%num in
  let fare := calculateFare distance duration in
  let request := mkRequest (user_id socket) pickup dropoff fare distance duration in
  steps [request_ride socket pickup dropoff;
         route_resolved (List.length (awaiting w)) requestId] w
  = mkWorld (activeDrivers w)
            (JSMap.set requestId request (rideRequests w))
            (awaiting w) (inserting w)
            (trace w ++
             RequestsSet requestId request ::
             broadcast requestId pickup dropoff fare (activeDrivers w) ++
             [Emit (to_socket (id socket)) (request_sent requestId fare)]).
Proof.
  cbv zeta. unfold steps. cbn [fold_left].
  change (step (request_ride socket pickup dropoff) w)
    with (with_awaiting
            (awaiting w ++
             [mkRouteAwait socket pickup dropoff
                (getDistance (lat pickup) (lng pickup) (lat dropoff) (lng dropoff))
                (getDistance (lat pickup) (lng pickup) (lat dropoff) (lng dropoff)
                 * of_Z 2)%num]) w).
  cbn [step awaiting with_awaiting].
  rewrite nth_error_snoc, remove_nth_snoc.
  unfold run. rewrite request_ride_resume_run. reflexivity.
Qed.

Lemma notified_request_ride_resume k requestId w :
  notified (performed (request_ride_resume k requestId) w)
  = map fst (filter (fun kv => within_5km (ra_pickup k) (snd kv))
                    (activeDrivers w)).
Proof.
  rewrite performed_request_ride_resume.
  unfold notified at 1. cbn [flat_map app]. rewrite flat_map_app.
  fold (notified (broadcast requestId (ra_pickup k) (ra_dropoff k)
                            (calculateFare (ra_distance k) (ra_duration k))
                            (activeDrivers w))).
  rewrite notified_broadcast. cbn. now rewrite app_nil_r.
Qed.

Lemma steps_registry_events es w :
  forallb registry_event es = true ->
  exists moves,
    trace (steps es w) = trace w ++ moves /\
    forallb (fun a => negb (is_emit a)) moves = true /\
    rideRequests (steps es w) = rideRequests w /\
    inserting (steps es w) = inserting w /\
    awaiting (steps es w) = awaiting w.
Proof.
  unfold steps. revert w. induction es as [|e es IH]; intros w Hes.
  - exists []. cbn. now rewrite app_nil_r.
  - cbn [forallb] in Hes. apply andb_prop in Hes as [He Hes].
    cbn [fold_left].
    destruct (IH (step e w) Hes) as (moves & Ht & Hm & Hr & Hi & Ha).
    destruct e as [s la lo|s p d|i rid|s rid|i resp|s]; try discriminate.
    + exists (DriversSet (id s) (mkDriver (user_id s) la lo) :: moves).
      rewrite Ht, Hr, Hi, Ha. cbn. rewrite <- app_assoc. now rewrite Hm.
    + exists (DriversDelete (id s) :: moves).
      rewrite Ht, Hr, Hi, Ha. cbn. rewrite <- app_assoc. now rewrite Hm.
Qed.

End EventLoopFacts.

(** X3: a 'request-ride' event handled to its end prices the trip by the
    haversine distance between pickup and dropoff and by twice that
    distance as its duration. It stores, under the drawn id, the request
    with the passenger's user id, the two places, that distance, duration
    and fare; it emits 'new-ride-request' with that fare to the drivers in
    reach and 'request-sent' with the same fare to the requesting socket,
    and leaves the registry and the inserts in flight as they were. *)
Theorem request_ride_end_to_end `{Libm} w socket pickup dropoff requestId :
  let distance :=
    getDistance (lat pickup) (lng pickup) (lat dropoff) (lng dropoff) in
  let duration := (distance * of_Z 2)%num in
  let fare := calculateFare distance duration in
  let request := mkRequest (user_id socket) pickup dropoff fare distance duration in
  let w' :=
    steps [request_ride socket pickup dropoff;
           route_resolved (List.length (awaiting w)) requestId] w in
  JSMap.get requestId (rideRequests w') = Some request /\
  trace w' =
    trace w ++
    RequestsSet requestId request ::
    broadcast requestId pickup dropoff fare (activeDrivers w) ++
    [Emit (to_socket (id socket)) (request_sent requestId fare)] /\
  activeDrivers w' = activeDrivers w /\
  awaiting w' = awaiting w /\
  inserting w' = inserting w.
Proof.
  cbv zeta. rewrite steps_request_ride.
  cbn [rideRequests trace activeDrivers awaiting inserting].
  split; [apply JSMapFacts.get_set_eq|]. repeat split.
Qed.

Section NaNFacts.
Context `{LibmNaN}.

Lemma add_nan_l x : (S754_nan + x)%num = S754_nan.
Proof. now destruct x. Qed.
Lemma add_nan_r x : (x + S754_nan)%num = S754_nan.
Proof. now destruct x. Qed.
Lemma sub_nan_l x : (S754_nan - x)%num = S754_nan.
Proof. now destruct x. Qed.
Lemma sub_nan_r x : (x - S754_nan)%num = S754_nan.
Proof. now destruct x. Qed.
Lemma mul_nan_l x : (S754_nan * x)%num = S754_nan.
Proof. now destruct x. Qed.
Lemma mul_nan_r x : (x * S754_nan)%num = S754_nan.
Proof. now destruct x. Qed.
Lemma div_nan_l x : (S754_nan / x)%num = S754_nan.
Proof. now destruct x. Qed.
Lemma ltb_nan_l x : (S754_nan <? x)%num = false.
Proof. now destruct x. Qed.
Lemma is_nan_eq x : is_nan x = true -> x = S754_nan.
Proof. now destruct x. Qed.

(** The distance is NaN as soon as one coordinate is. *)
Lemma getDistance_nan lat1 lon1 lat2 lon2 :
  is_nan lat1 || is_nan lon1 || is_nan lat2 || is_nan lon2 = true ->
  getDistance lat1 lon1 lat2 lon2 = S754_nan.
Proof.
  intros Hn. unfold getDistance.
  assert (Ha :
    (Math_sin ((lat2 - lat1) * Math_PI / of_Z 180 / of_Z 2) *
     Math_sin ((lat2 - lat1) * Math_PI / of_Z 180 / of_Z 2) +
     Math_cos (lat1 * Math_PI / of_Z 180) * Math_cos (lat2 * Math_PI / of_Z 180) *
     Math_sin ((lon2 - lon1) * Math_PI / of_Z 180 / of_Z 2) *
     Math_sin ((lon2 - lon1) * Math_PI / of_Z 180 / of_Z 2))%num = S754_nan).
  { apply orb_prop in Hn as [Hn|Hn]; [apply orb_prop in Hn as [Hn|Hn];
      [apply orb_prop in Hn as [Hn|Hn]|]|];
      apply is_nan_eq in Hn; subst.
    - now rewrite sub_nan_r, mul_nan_l, !div_nan_l, sin_nan, mul_nan_l, add_nan_l.
    - now rewrite sub_nan_r, mul_nan_l, !div_nan_l, sin_nan, !mul_nan_r, add_nan_r.
    - now rewrite sub_nan_l, mul_nan_l, !div_nan_l, sin_nan, mul_nan_l, add_nan_l.
    - now rewrite sub_nan_l, mul_nan_l, !div_nan_l, sin_nan, !mul_nan_r, add_nan_r. }
  cbv zeta. rewrite Ha.
  change (sqrt S754_nan) with S754_nan.
  now rewrite atan2_nan, !mul_nan_r.
Qed.

Lemma broadcast_nan_pickup requestId pickup dropoff fare drivers :
  is_nan (lat pickup) || is_nan (lng pickup) = true ->
  broadcast requestId pickup dropoff fare drivers = [].
Proof.
  intros Hp. unfold broadcast.
  induction drivers as [|[sid d] m IH]; [reflexivity|].
  cbn [filter snd]. unfold within_5km at 1.
  rewrite getDistance_nan, ltb_nan_l; [exact IH|].
  apply orb_prop in Hp as [Hp|Hp]; rewrite Hp; now rewrite ?orb_true_r.
Qed.
End NaNFacts.

Lemma small_angle_nan : @LibmNaN Scenario.small_angle.
Proof. split; [reflexivity | intros x; now destruct x]. Qed.

(** X4: the handler checks no coordinate. When a coordinate of the pickup
    or of the dropoff is NaN, the request is stored and acknowledged all the
    same, with distance NaN, duration NaN and a fare whose charges,
    commission and total are NaN; when it is a coordinate of the pickup, no
    driver is notified: the handler emits 'request-sent' and nothing
    else. *)
Theorem request_with_nan_coordinate `{LibmNaN}
    w socket pickup dropoff requestId :
  is_nan (lat pickup) || is_nan (lng pickup)
  || is_nan (lat dropoff) || is_nan (lng dropoff) = true ->
  let request :=
    mkRequest (user_id socket) pickup dropoff NaN_fare S754_nan S754_nan in
  let w' :=
    steps [request_ride socket pickup dropoff;
           route_resolved (List.length (awaiting w)) requestId] w in
  JSMap.get requestId (rideRequests w') = Some request /\
  In (Emit (to_socket (id socket)) (request_sent requestId NaN_fare))
     (trace w') /\
  (is_nan (lat pickup) || is_nan (lng pickup) = true ->
   trace w' =
     trace w ++
     [RequestsSet requestId request;
      Emit (to_socket (id socket)) (request_sent requestId NaN_fare)]).
Proof.
  intros Hn. cbv zeta. rewrite steps_request_ride.
  rewrite (getDistance_nan _ _ _ _ Hn).
  change (S754_nan * of_Z 2)%num with S754_nan.
  change (calculateFare S754_nan S754_nan) with NaN_fare.
  cbn [rideRequests trace].
  split; [apply JSMapFacts.get_set_eq|]. split.
  - apply in_or_app. right. right. apply in_or_app. right. now left.
  - intros Hp. now rewrite (broadcast_nan_pickup _ _ _ _ _ Hp).
Qed.

(** X4 at work: alice asks for a ride from a pickup without latitude while
    bob, carol and dave are registered. *)
Lemma request_with_nan_coordinate_witness :
  let pickup := mkCoord S754_nan (of_Z 1) in
  let dropoff := mkCoord (of_Z 1) (of_Z 2) in
  is_nan (lat pickup) || is_nan (lng pickup)
  || is_nan (lat dropoff) || is_nan (lng dropoff) = true /\
  JSMap.get Scenario.k3j9x0q1z
    (rideRequests
       (@steps Scenario.small_angle
          [request_ride Scenario.alice pickup dropoff;
           route_resolved 0 Scenario.k3j9x0q1z] Scenario.registered))
  = Some (mkRequest "alice"%string pickup dropoff NaN_fare S754_nan S754_nan).
Proof.
  cbv zeta. split; [reflexivity|].
  exact (proj1
    (@request_with_nan_coordinate Scenario.small_angle small_angle_nan
       Scenario.registered Scenario.alice
       (mkCoord S754_nan (of_Z 1)) (mkCoord (of_Z 1) (of_Z 2))
       Scenario.k3j9x0q1z (eq_refl true))).
Defined.

(* ================================================================= *)
(** ** More on accepting a ride *)

(** X5: when the insert of an accepted ride settles with an error, the
    callback returns at once. Nothing is emitted, to the driver or to the
    passenger; the request stays in the ledger and the registry is
    untouched, so the run leaves the insert in the trace and nothing else,
    and a further 'accept-ride' for the request passes both guards
    again. *)
Theorem failed_insert_keeps_request_pending `{Libm}
    w socket requestId request driver response err :
  JSMap.get requestId (rideRequests w) = Some request ->
  JSMap.get (id socket) (activeDrivers w) = Some driver ->
  error response = Some err ->
  let w' :=
    steps [accept_ride socket requestId;
           insert_settled (List.length (inserting w)) response] w in
  trace w' = trace w ++ [DbInsert (row_of request driver)] /\
  rideRequests w' = rideRequests w /\
  activeDrivers w' = activeDrivers w /\
  inserting w' = inserting w /\
  awaiting w' = awaiting w /\
  step (accept_ride socket requestId) w' =
  log (DbInsert (row_of request driver))
      (with_inserting
         (inserting w' ++ [mkInsertThen socket requestId request driver]) w').
Proof.
  intros Hr Hd He. cbv zeta. unfold steps. cbn [fold_left].
  rewrite (step_accept_ride w socket requestId request driver Hr Hd).
  set (k := mkInsertThen _ _ _ _).
  assert (E : step (insert_settled (List.length (inserting w)) response)
                (log (DbInsert (row_of request driver))
                     (with_inserting (inserting w ++ [k]) w))
              = log (DbInsert (row_of request driver)) w).
  { cbn [step inserting log with_inserting].
    rewrite nth_error_snoc, remove_nth_snoc.
    unfold run, insert_then. rewrite He. now destruct w. }
  rewrite E. cbn [log trace rideRequests activeDrivers inserting awaiting].
  repeat (split; [reflexivity|]).
  apply (step_accept_ride (log (DbInsert (row_of request driver)) w));
    assumption.
Qed.

(** X5 at work: bob accepts alice's trip and the insert times out. *)
Lemma failed_insert_keeps_request_pending_witness :
  let response := mkResponse None (Some "timeout"%string) in
  JSMap.get Scenario.k3j9x0q1z (rideRequests Scenario.pending)
  = Some Scenario.trip /\
  JSMap.get (id Scenario.bob) (activeDrivers Scenario.pending)
  = Some Scenario.bob_entry /\
  error response = Some "timeout"%string /\
  rideRequests
    (@steps Scenario.small_angle
       [accept_ride Scenario.bob Scenario.k3j9x0q1z;
        insert_settled 0 response] Scenario.pending)
  = rideRequests Scenario.pending.
Proof.
  cbv zeta. repeat (split; [reflexivity|]).
  exact (proj1 (proj2
    (@failed_insert_keeps_request_pending Scenario.small_angle
       Scenario.pending Scenario.bob Scenario.k3j9x0q1z Scenario.trip
       Scenario.bob_entry (mkResponse None (Some "timeout"%string))
       "timeout"%string (eq_refl _) (eq_refl _) (eq_refl _)))).
Defined.

(** X6: when the insert settles without error but with no row ([data] is
    [null] or an empty array), the callback emits 'ride-accepted' to the
    passenger's room and then throws a TypeError on [data[0].id]:
    'ride-started' is not emitted and the request is not deleted from the
    ledger. *)
Theorem insert_without_row_throws w k response :
  error response = None ->
  data response = None \/ data response = Some [] ->
  let accepted :=
    Emit (to_room (passengerId (it_request k)))
         (ride_accepted (driverId (it_driver k))
            (mkCoord (driver_lat (it_driver k)) (driver_lng (it_driver k)))) in
  fst (insert_then k response w) = Throw "TypeError" /\
  performed (insert_then k response) w = [accepted] /\
  rideRequests (run (insert_then k response) w) = rideRequests w /\
  activeDrivers (run (insert_then k response) w) = activeDrivers w.
Proof.
  intros He Hd. cbv zeta.
  assert (E : insert_then k response w =
              (Throw "TypeError",
               log (Emit (to_room (passengerId (it_request k)))
                      (ride_accepted (driverId (it_driver k))
                         (mkCoord (driver_lat (it_driver k))
                                  (driver_lng (it_driver k))))) w)).
  { unfold insert_then. rewrite He.
    destruct Hd as [-> | ->]; reflexivity. }
  split; [now rewrite E|].
  split; [|unfold run; now rewrite E].
  apply performed_of_trace. unfold run. now rewrite E.
Qed.

(** X6 at work: bob's insert for the trip settles with [data] null. *)
Lemma insert_without_row_throws_witness :
  let k := mkInsertThen Scenario.bob Scenario.k3j9x0q1z Scenario.trip
                        Scenario.bob_entry in
  let response := mkResponse None None in
  error response = None /\
  (data response = None \/ data response = Some []) /\
  fst (insert_then k response Scenario.pending) = Throw "TypeError".
Proof.
  cbv zeta. split; [reflexivity|]. split; [now left|].
  exact (proj1
    (insert_without_row_throws Scenario.pending
       (mkInsertThen Scenario.bob Scenario.k3j9x0q1z Scenario.trip
                     Scenario.bob_entry)
       (mkResponse None None) (eq_refl _) (or_introl (eq_refl _)))).
Defined.

(** X7: when the insert of the first accept settles with a row before the
    next 'accept-ride' for the same request arrives, there is one winner:
    the run inserts one row, emits 'ride-accepted' and 'ride-started' once
    and removes the request, and an 'accept-ride' of any socket for that
    request afterwards changes nothing. *)
Theorem settled_claim_shuts_out_later_accepts `{Libm}
    w s1 s2 requestId request d1 rideId rest response :
  well_formed w ->
  JSMap.get requestId (rideRequests w) = Some request ->
  JSMap.get (id s1) (activeDrivers w) = Some d1 ->
  error response = None ->
  data response = Some (rideId :: rest) ->
  let w1 :=
    steps [accept_ride s1 requestId;
           insert_settled (List.length (inserting w)) response] w in
  JSMap.get requestId (rideRequests w1) = None /\
  trace w1 =
    trace w ++
    [DbInsert (row_of request d1);
     Emit (to_room (passengerId request))
          (ride_accepted (driverId d1) (mkCoord (driver_lat d1) (driver_lng d1)));
     Emit (to_socket (id s1)) (ride_started rideId);
     RequestsDelete requestId] /\
  step (accept_ride s2 requestId) w1 = w1.
Proof.
  intros [_ Hnd] Hr Hd He Hdat. cbv zeta. unfold steps. cbn [fold_left].
  rewrite (step_accept_ride w s1 requestId request d1 Hr Hd).
  set (k := mkInsertThen _ _ _ _).
  assert (E : step (insert_settled (List.length (inserting w)) response)
                (log (DbInsert (row_of request d1))
                     (with_inserting (inserting w ++ [k]) w))
              = run (insert_then k response)
                    (log (DbInsert (row_of request d1)) w)).
  { cbn [step inserting log with_inserting].
    now rewrite nth_error_snoc, remove_nth_snoc. }
  rewrite E. clear E. unfold run.
  rewrite (insert_then_success _ k response rideId rest He Hdat).
  cbn [snd rideRequests trace log it_requestId it_request it_driver it_socket k].
  assert (Hgone : JSMap.get requestId (JSMap.delete requestId (rideRequests w))
                  = None) by now apply JSMapFacts.get_delete_eq.
  split; [exact Hgone|]. split; [now rewrite <- app_assoc|].
  cbn [step]. unfold run. now rewrite accept_ride_no_request.
Qed.

(** X7 at work: bob's insert for the trip has settled when carol
    accepts. *)
Lemma settled_claim_shuts_out_later_accepts_witness :
  well_formed Scenario.pending /\
  @step Scenario.small_angle (accept_ride Scenario.carol Scenario.k3j9x0q1z)
    (@steps Scenario.small_angle
       [accept_ride Scenario.bob Scenario.k3j9x0q1z;
        insert_settled 0 (Scenario.stored 7)] Scenario.pending)
  = @steps Scenario.small_angle
       [accept_ride Scenario.bob Scenario.k3j9x0q1z;
        insert_settled 0 (Scenario.stored 7)] Scenario.pending.
Proof.
  assert (Hwf : well_formed Scenario.pending).
  { split; repeat constructor; simpl; intuition discriminate. }
  split; [exact Hwf|].
  exact (proj2 (proj2
    (@settled_claim_shuts_out_later_accepts Scenario.small_angle
       Scenario.pending Scenario.bob Scenario.carol Scenario.k3j9x0q1z
       Scenario.trip Scenario.bob_entry 7 [] (Scenario.stored 7)
       Hwf (eq_refl _) (eq_refl _) (eq_refl _) (eq_refl _)))).
Defined.

(** X8: the callback of the insert works on the registry entry the handler
    read when 'accept-ride' arrived. Whatever 'driver-location' and
    'disconnect' events, of the accepting socket or of others, are handled
    before the insert settles, 'ride-accepted' carries the driver id and the
    position of that entry, 'ride-started' goes to the accepting socket, and
    the request is removed. *)
Theorem settled_insert_reports_position_at_accept `{Libm}
    w socket requestId request driver es response rideId rest :
  JSMap.get requestId (rideRequests w) = Some request ->
  JSMap.get (id socket) (activeDrivers w) = Some driver ->
  forallb registry_event es = true ->
  error response = None ->
  data response = Some (rideId :: rest) ->
  let w' :=
    steps (accept_ride socket requestId :: es ++
           [insert_settled (List.length (inserting w)) response]) w in
  exists moves,
    trace w' =
      trace w ++
      DbInsert (row_of request driver) :: moves ++
      [Emit (to_room (passengerId request))
            (ride_accepted (driverId driver)
               (mkCoord (driver_lat driver) (driver_lng driver)));
       Emit (to_socket (id socket)) (ride_started rideId);
       RequestsDelete requestId] /\
    forallb (fun a => negb (is_emit a)) moves = true.
Proof.
  intros Hr Hd Hes He Hdat. cbv zeta.
  unfold steps. cbn [fold_left]. rewrite fold_left_app. cbn [fold_left].
  rewrite (step_accept_ride w socket requestId request driver Hr Hd).
  set (k := mkInsertThen _ _ _ _). set (w1 := log _ _).
  destruct (steps_registry_events es w1 Hes) as (moves & Ht & Hm & _ & Hi & _).
  fold (steps es w1). set (w2 := steps es w1) in *.
  exists moves. split; [|exact Hm].
  cbn [step]. rewrite Hi. subst w1. cbn [inserting log with_inserting].
  rewrite nth_error_snoc. unfold run.
  rewrite (insert_then_success _ k response rideId rest He Hdat).
  cbn [snd trace with_inserting]. rewrite Ht. cbn [trace log with_inserting].
  subst k. cbn [it_request it_driver it_socket it_requestId].
  rewrite <- !app_assoc. reflexivity.
Qed.

(** X8 at work: bob accepts the trip at (1, 1), moves to (2, 2) and
    disconnects before his insert settles. *)
Lemma settled_insert_reports_position_at_accept_witness :
  exists moves,
    trace
      (@steps Scenario.small_angle
         (accept_ride Scenario.bob Scenario.k3j9x0q1z ::
          [driver_location Scenario.bob (of_Z 2) (of_Z 2);
           disconnect Scenario.bob] ++
          [insert_settled 0 (Scenario.stored 7)]) Scenario.pending)
    = trace Scenario.pending ++
      DbInsert (row_of Scenario.trip Scenario.bob_entry) :: moves ++
      [Emit (to_room (passengerId Scenario.trip))
            (ride_accepted (driverId Scenario.bob_entry)
               (mkCoord (driver_lat Scenario.bob_entry)
                        (driver_lng Scenario.bob_entry)));
       Emit (to_socket (id Scenario.bob)) (ride_started 7);
       RequestsDelete Scenario.k3j9x0q1z] /\
    forallb (fun a => negb (is_emit a)) moves = true.
Proof.
  exact (@settled_insert_reports_position_at_accept Scenario.small_angle
           Scenario.pending Scenario.bob Scenario.k3j9x0q1z Scenario.trip
           Scenario.bob_entry
           [driver_location Scenario.bob (of_Z 2) (of_Z 2);
            disconnect Scenario.bob]
           (Scenario.stored 7) 7 []
           (eq_refl _) (eq_refl _) (eq_refl _) (eq_refl _) (eq_refl _)).
Defined.

(** X9: a request leaves the ledger in one way only. If a turn of the event
    loop removes the key of a request, the turn is the settlement of an
    insert, without error and with a row, of an accept of that request: no
    'disconnect' (of the passenger or of a driver), no other socket event
    and no failed insert removes a request. *)
Theorem request_leaves_ledger_only_by_settled_insert `{Libm} e w requestId :
  In requestId (JSMap.keys (rideRequests w)) ->
  ~ In requestId (JSMap.keys (rideRequests (step e w))) ->
  exists i response k rideId rest,
    e = insert_settled i response /\
    nth_error (inserting w) i = Some k /\
    it_requestId k = requestId /\
    error response = None /\
    data response = Some (rideId :: rest).
Proof.
  intros Hin Hout.
  destruct e as [s la lo|s p d|i rid|s rid|i resp|s]; cbn [step] in Hout.
  - now contradict Hout.
  - contradict Hout. unfold on_request_ride.
    now destruct (getRouteDistance p d).
  - contradict Hout. destruct (nth_error (awaiting w) i); [|assumption].
    unfold run. rewrite request_ride_resume_run. cbn [snd rideRequests].
    now apply JSMapMoreFacts.keys_set_incl.
  - contradict Hout.
    unfold run, on_accept_ride, bind, rideRequests_get, activeDrivers_get.
    destruct (JSMap.get rid (rideRequests w)); [|assumption].
    now destruct (JSMap.get (id s) (activeDrivers w)).
  - destruct (nth_error (inserting w) i) as [k|] eqn:Hk; [|contradiction].
    destruct (error resp) as [err|] eqn:He.
    { contradict Hout. unfold run, insert_then. now rewrite He. }
    destruct (data resp) as [[|rideId rest]|] eqn:Hd.
    1, 3: contradict Hout; unfold run, insert_then; now rewrite He, Hd.
    destruct (string_dec (it_requestId k) requestId) as [Heq|Hne].
    + now exists i, resp, k, rideId, rest.
    + contradict Hout. unfold run.
      rewrite (insert_then_success _ k resp rideId rest He Hd).
      cbn [snd rideRequests with_inserting].
      apply JSMapMoreFacts.keys_delete_other; [congruence | assumption].
  - now contradict Hout.
Qed.

(** X9 at work: bob has accepted the trip and his insert settles with the
    row 7. *)
Lemma request_leaves_ledger_only_by_settled_insert_witness :
  let w := @steps Scenario.small_angle
             [accept_ride Scenario.bob Scenario.k3j9x0q1z] Scenario.pending in
  In Scenario.k3j9x0q1z (JSMap.keys (rideRequests w)) /\
  ~ In Scenario.k3j9x0q1z
       (JSMap.keys
          (rideRequests
             (@step Scenario.small_angle
                (insert_settled 0 (Scenario.stored 7)) w))) /\
  exists i response k rideId rest,
    insert_settled 0 (Scenario.stored 7) = insert_settled i response /\
    nth_error (inserting w) i = Some k /\
    it_requestId k = Scenario.k3j9x0q1z /\
    error response = None /\
    data response = Some (rideId :: rest).
Proof.
  assert (Hin : In Scenario.k3j9x0q1z
                   (JSMap.keys
                      (rideRequests
                         (@steps Scenario.small_angle
                            [accept_ride Scenario.bob Scenario.k3j9x0q1z]
                            Scenario.pending)))).
  { left. reflexivity. }
  assert (Hout : ~ In Scenario.k3j9x0q1z
                     (JSMap.keys
                        (rideRequests
                           (@step Scenario.small_angle
                              (insert_settled 0 (Scenario.stored 7))
                              (@steps Scenario.small_angle
                                 [accept_ride Scenario.bob Scenario.k3j9x0q1z]
                                 Scenario.pending))))).
  { intros []. }
  split; [exact Hin|]. split; [exact Hout|].
  exact (@request_leaves_ledger_only_by_settled_insert Scenario.small_angle
           _ _ _ Hin Hout).
Defined.

(* ================================================================= *)
(** ** More on the registry *)

(** X10: 'disconnect' removes the registry entry of the socket and nothing
    else: the entries of the other sockets, the ledger (the requests the
    socket made as a passenger included) and the inserts in flight are as
    before. Afterwards an 'accept-ride' of the socket changes nothing, and
    no 'request-ride' notifies the socket. *)
Theorem disconnect_unregisters_the_socket `{Libm} w socket :
  well_formed w ->
  let w' := step (disconnect socket) w in
  JSMap.get (id socket) (activeDrivers w') = None /\
  (forall sid, sid <> id socket ->
     JSMap.get sid (activeDrivers w') = JSMap.get sid (activeDrivers w)) /\
  rideRequests w' = rideRequests w /\
  inserting w' = inserting w /\
  awaiting w' = awaiting w /\
  (forall requestId, step (accept_ride socket requestId) w' = w') /\
  (forall k requestId,
     ~ In (id socket)
          (notified (performed (request_ride_resume k requestId) w'))).
Proof.
  intros [Hnd _]. cbv zeta. cbn [step]. unfold run, on_disconnect.
  cbn [activeDrivers_delete snd log with_activeDrivers activeDrivers
       rideRequests inserting awaiting].
  assert (Hgone : JSMap.get (id socket)
                    (JSMap.delete (id socket) (activeDrivers w)) = None)
    by now apply JSMapFacts.get_delete_eq.
  split; [exact Hgone|].
  split; [intros sid Hne; apply JSMapFacts.get_delete_neq; congruence|].
  repeat (split; [reflexivity|]).
  split.
  - intros requestId. cbn [step]. unfold run.
    now rewrite accept_ride_no_driver.
  - intros k requestId Hin. rewrite notified_request_ride_resume in Hin.
    cbn [activeDrivers] in Hin.
    apply in_map_iff in Hin as [[sid d] [Hfst Hin]]. simpl in Hfst. subst sid.
    apply filter_In in Hin as [Hin _].
    apply JSMapFacts.get_None_notin in Hgone. apply Hgone.
    unfold JSMap.keys. apply in_map_iff. now exists (id socket, d).
Qed.

(** X10 at work: bob disconnects while the trip is pending. *)
Lemma disconnect_unregisters_the_socket_witness :
  well_formed Scenario.pending /\
  JSMap.get (id Scenario.bob)
    (activeDrivers
       (@step Scenario.small_angle (disconnect Scenario.bob) Scenario.pending))
  = None.
Proof.
  assert (Hwf : well_formed Scenario.pending).
  { split; repeat constructor; simpl; intuition discriminate. }
  split; [exact Hwf|].
  exact (proj1 (@disconnect_unregisters_the_socket Scenario.small_angle
                  Scenario.pending Scenario.bob Hwf)).
Defined.

(** X11: after any events handled from the start of the server, in any
    order, the registry holds for a socket id exactly the last position
    reported under it since its last 'disconnect', with the user id of the
    reporting socket, and no entry when it has not reported since: no
    'request-ride', 'accept-ride' or settlement of an insert writes the
    registry. *)
Theorem registry_holds_last_report `{Libm} es sid :
  JSMap.get sid (activeDrivers (steps es init)) = last_report sid es.
Proof.
  induction es as [|e es IH] using rev_ind; [reflexivity|].
  rewrite steps_snoc. unfold last_report. rewrite fold_left_app.
  fold (last_report sid es). rewrite <- IH. cbn [fold_left].
  pose proof (reachable_well_formed _ (steps_reachable es)) as [Hnd _].
  set (w := steps es init) in *.
  destruct e as [s la lo|s p d|i rid|s rid|i resp|s]; cbn [step].
  - cbn. destruct (String.eqb_spec (id s) sid) as [<-|Hne].
    + apply JSMapFacts.get_set_eq.
    + now apply JSMapFacts.get_set_neq.
  - unfold on_request_ride. now destruct (getRouteDistance p d).
  - destruct (nth_error (awaiting w) i); [|reflexivity].
    unfold run. now rewrite request_ride_resume_run.
  - unfold run, on_accept_ride, bind, rideRequests_get, activeDrivers_get.
    destruct (JSMap.get rid (rideRequests w)); [|reflexivity].
    now destruct (JSMap.get (id s) (activeDrivers w)).
  - destruct (nth_error (inserting w) i) as [k|]; [|reflexivity].
    unfold run, insert_then.
    destruct (error resp); [reflexivity|].
    now destruct (data resp) as [[|r rest]|].
  - cbn. destruct (String.eqb_spec (id s) sid) as [<-|Hne].
    + now apply JSMapFacts.get_delete_eq.
    + now apply JSMapFacts.get_delete_neq.
Qed.

(** X20: a socket that reports a position with a NaN coordinate is
    registered all the same, and no 'request-ride' ever notifies it while
    that entry stands: its distance to any pickup is NaN, and [NaN < 5] is
    false. *)
Theorem driver_without_position_is_never_notified `{LibmNaN}
    w socket lat lng :
  well_formed w ->
  is_nan lat || is_nan lng = true ->
  let w' := step (driver_location socket lat lng) w in
  JSMap.get (id socket) (activeDrivers w')
  = Some (mkDriver (user_id socket) lat lng) /\
  forall k requestId,
    ~ In (id socket)
         (notified (performed (request_ride_resume k requestId) w')).
Proof.
  intros [Hnd _] Hn. cbv zeta. cbn [step]. unfold run, on_driver_location.
  cbn [activeDrivers_set snd log with_activeDrivers activeDrivers].
  split; [apply JSMapFacts.get_set_eq|].
  intros k requestId Hin. rewrite notified_request_ride_resume in Hin.
  cbn [activeDrivers] in Hin.
  apply in_map_iff in Hin as [[sid d] [Hfst Hin]]. simpl in Hfst. subst sid.
  apply filter_In in Hin as [Hin Hw]. cbn [snd] in Hw.
  cbn [log with_activeDrivers activeDrivers] in Hin.
  apply JSMapFacts.In_get in Hin; [|now apply JSMapFacts.NoDup_set].
  rewrite JSMapFacts.get_set_eq in Hin. inversion Hin; subst d.
  unfold within_5km in Hw. cbn [driver_lat driver_lng] in Hw.
  rewrite getDistance_nan in Hw; [discriminate|].
  apply orb_prop in Hn as [Hn|Hn]; rewrite Hn; now rewrite ?orb_true_r.
Qed.

(** X20 at work: bob reports a position without latitude. *)
Lemma driver_without_position_is_never_notified_witness :
  well_formed Scenario.pending /\
  is_nan S754_nan || is_nan (of_Z 1) = true /\
  JSMap.get (id Scenario.bob)
    (activeDrivers
       (@step Scenario.small_angle
          (driver_location Scenario.bob S754_nan (of_Z 1)) Scenario.pending))
  = Some (mkDriver "bob"%string S754_nan (of_Z 1)).
Proof.
  assert (Hwf : well_formed Scenario.pending).
  { split; repeat constructor; simpl; intuition discriminate. }
  split; [exact Hwf|]. split; [reflexivity|].
  exact (proj1 (@driver_without_position_is_never_notified
                  Scenario.small_angle small_angle_nan
                  Scenario.pending Scenario.bob S754_nan (of_Z 1)
                  Hwf (eq_refl true))).
Defined.

(** X24: a registered driver who stands at the pickup is notified. When
    'request-ride' resumes and the registry holds, under a socket id, an
    entry whose position is the pickup (of latitude between -90 and 90 and
    finite longitude), the handler emits 'new-ride-request', with the id,
    the places and the fare of the request, to the room of that socket:
    the distance is +0 and [+0 < 5] holds. *)
Theorem driver_at_the_pickup_is_notified `{LibmLaws} w k requestId sid driver :
  JSMap.get sid (activeDrivers w) = Some driver ->
  driver_lat driver = lat (ra_pickup k) ->
  driver_lng driver = lng (ra_pickup k) ->
  valid (lat (ra_pickup k)) = true ->
  leb (abs (lat (ra_pickup k))) (of_Z 90) = true ->
  is_finite (lng (ra_pickup k)) = true ->
  In (Emit (to_room sid)
           (new_ride_request requestId (ra_pickup k) (ra_dropoff k)
              (calculateFare (ra_distance k) (ra_duration k))))
     (performed (request_ride_resume k requestId) w).
Proof.
  intros Hg Hla Hlo Hv Hb Hf.
  rewrite performed_request_ride_resume.
  right. apply in_or_app. left. unfold broadcast.
  apply in_map_iff. exists (sid, driver). split; [reflexivity|].
  apply filter_In. split; [now apply JSMapFacts.get_In|].
  cbn [snd]. unfold within_5km. rewrite Hla, Hlo.
  assert (Hfl : is_finite (lat (ra_pickup k)) = true).
  { destruct (lat (ra_pickup k)); try reflexivity; discriminate. }
  now rewrite (getDistance_same _ _ Hfl Hf (radians_finite _ Hv Hb)).
Qed.

(** X24 at work: alice's pickup is where bob stands. *)
Lemma driver_at_the_pickup_is_notified_witness :
  JSMap.get "sock-bob"%string (activeDrivers Scenario.registered)
  = Some Scenario.bob_entry /\
  In (Emit (to_room "sock-bob"%string)
           (new_ride_request Scenario.k3j9x0q1z
              (ra_pickup Scenario.route) (ra_dropoff Scenario.route)
              (calculateFare (ra_distance Scenario.route)
                             (ra_duration Scenario.route))))
     (performed
        (@request_ride_resume Scenario.small_angle Scenario.route
           Scenario.k3j9x0q1z)
        Scenario.registered).
Proof.
  split; [reflexivity|].
  exact (@driver_at_the_pickup_is_notified Scenario.small_angle
           small_angle_laws Scenario.registered Scenario.route
           Scenario.k3j9x0q1z "sock-bob"%string Scenario.bob_entry
           (eq_refl _) (eq_refl _) (eq_refl _)
           (eq_refl _) (eq_refl _) (eq_refl _)).
Defined.

(* ================================================================= *)
(** ** Where the rows and the notifications come from *)

Section ProvenanceFacts.
Context `{Libm}.

Lemma reported_later es e sid d : reported es sid d -> reported (es ++ [e]) sid d.
Proof.
  intros (s & Hin & Hid & Hu). exists s. split; [|now split].
  apply in_or_app. now left.
Qed.

Lemma requested_later es e r : requested es r -> requested (es ++ [e]) r.
Proof.
  intros (s & Hin & Hrest). exists s. split; [|exact Hrest].
  apply in_or_app. now left.
Qed.

Lemma grounded_later es e w : grounded es w -> grounded (es ++ [e]) w.
Proof.
  intros [Hd Ha Hr Hi Ht]. split.
  - intros sid d Hin. apply reported_later; eauto.
  - intros k Hin. apply requested_later; eauto.
  - intros rid r Hin. apply requested_later; eauto.
  - intros k Hin. destruct (Hi k Hin).
    split; [now apply requested_later | now apply reported_later].
  - intros row Hin. destruct (Ht row Hin) as (r & sid & d & -> & Hq & Hp).
    exists r, sid, d. split; [reflexivity|].
    split; [now apply requested_later | now apply reported_later].
Qed.

Lemma grounded_step es e w : grounded es w -> grounded (es ++ [e]) (step e w).
Proof.
  intros G. pose proof (grounded_later es e w G) as [Hd Ha Hr Hi Ht].
  destruct e as [s la lo|s p d|i rid|s rid|i resp|s]; cbn [step].
  - (* driver-location *)
    split; cbn; try assumption.
    + intros sid d Hin. apply JSMapMoreFacts.In_set in Hin as [Heq|Hin]; [|eauto].
      inversion Heq; subst. exists s. cbn. split; [apply In_snoc | now split].
    + intros row Hin. apply in_app_or in Hin as [Hin|[Heq|[]]];
        [eauto | discriminate].
  - (* request-ride *)
    split; cbn; try assumption.
    intros k Hin. apply in_app_or in Hin as [Hin|[<-|[]]]; [eauto|].
    exists s. cbn. split; [apply In_snoc|]. repeat split.
  - (* the handler resumes *)
    destruct (nth_error (awaiting w) i) as [k|] eqn:Hk; [|now split].
    unfold run. rewrite request_ride_resume_run. split; cbn; try assumption.
    + intros k' Hin. apply In_remove_nth in Hin. eauto.
    + intros rid' r Hin.
      apply JSMapMoreFacts.In_set in Hin as [Heq|Hin]; [|eauto].
      inversion Heq; subst. apply Ha. now apply nth_error_In with i.
    + intros row Hin. apply in_app_or in Hin as [Hin|Hin]; [eauto|].
      destruct Hin as [Heq|Hin]; [discriminate|].
      apply in_app_or in Hin as [Hin|[Heq|[]]]; [|discriminate].
      unfold broadcast in Hin. apply in_map_iff in Hin as (kv & Heq & _).
      discriminate.
  - (* accept-ride *)
    unfold run, on_accept_ride, bind, rideRequests_get, activeDrivers_get.
    destruct (JSMap.get rid (rideRequests w)) as [r|] eqn:Hgr; [|now split].
    destruct (JSMap.get (id s) (activeDrivers w)) as [d|] eqn:Hgd; [|now split].
    apply JSMapFacts.get_In in Hgr, Hgd.
    split; cbn; try assumption.
    + intros k Hin. apply in_app_or in Hin as [Hin|[<-|[]]]; [eauto|].
      cbn. split; eauto.
    + intros row Hin. apply in_app_or in Hin as [Hin|[Heq|[]]]; [eauto|].
      inversion Heq; subst. exists r, (id s), d.
      split; [reflexivity|]. split; eauto.
  - (* the insert settles *)
    destruct (nth_error (inserting w) i) as [k|] eqn:Hk; [|now split].
    assert (Hi' : forall k', In k' (remove_nth i (inserting w)) ->
                  requested (es ++ [insert_settled i resp]) (it_request k') /\
                  reported (es ++ [insert_settled i resp])
                           (id (it_socket k')) (it_driver k')).
    { intros k' Hin. apply In_remove_nth in Hin. eauto. }
    unfold run, insert_then.
    destruct (error resp); [now split|].
    destruct (data resp) as [[|rideId rest]|].
    + split; cbn; try assumption.
      intros row Hin. apply in_app_or in Hin as [Hin|[Heq|[]]];
        [eauto | discriminate].
    + split; cbn; try assumption.
      * intros rid r Hin. apply JSMapMoreFacts.In_delete in Hin. eauto.
      * intros row Hin. rewrite <- !app_assoc in Hin.
        apply in_app_or in Hin as [Hin|[Heq|[Heq|[Heq|[]]]]];
          [eauto | discriminate..].
    + split; cbn; try assumption.
      intros row Hin. apply in_app_or in Hin as [Hin|[Heq|[]]];
        [eauto | discriminate].
  - (* disconnect *)
    split; cbn; try assumption.
    + intros sid d Hin. apply JSMapMoreFacts.In_delete in Hin. eauto.
    + intros row Hin. apply in_app_or in Hin as [Hin|[Heq|[]]];
        [eauto | discriminate].
Qed.

Lemma grounded_steps es : grounded es (steps es init).
Proof.
  induction es as [|e es IH] using rev_ind.
  - split; cbn; intros; contradiction.
  - rewrite steps_snoc. now apply grounded_step.
Qed.

End ProvenanceFacts.

(** X12: every row the server inserts into [rides], after any events
    handled from its start, has status 'accepted', names as passenger the
    user of a socket that sent 'request-ride' with the row's pickup and
    dropoff, names as driver the user of a socket that sent
    'driver-location', and carries the fare [calculateFare] gives for the
    haversine distance between pickup and dropoff and twice that distance
    as duration. *)
Theorem inserted_rows_stem_from_events `{Libm} es row :
  In (DbInsert row) (trace (steps es init)) ->
  row_status row = "accepted"%string /\
  (exists passenger,
      In (request_ride passenger (row_pickup row) (row_dropoff row)) es /\
      row_passenger_id row = user_id passenger) /\
  (exists driver lat lng,
      In (driver_location driver lat lng) es /\
      row_driver_id row = user_id driver) /\
  (let distance :=
     getDistance (lat (row_pickup row)) (lng (row_pickup row))
                 (lat (row_dropoff row)) (lng (row_dropoff row)) in
   row_fare row = calculateFare distance (distance * of_Z 2)%num).
Proof.
  intros Hin.
  destruct (grounded_rows _ _ (grounded_steps es) row Hin)
    as (r & sid & d & -> & (p & Hp & Hpu & Hdist & Hdur & Hfare)
        & (s & Hs & _ & Hsu)).
  cbn [row_of row_status row_pickup row_dropoff row_passenger_id
       row_driver_id row_fare].
  split; [reflexivity|].
  split; [now exists p|].
  split; [now exists s, (driver_lat d), (driver_lng d)|].
  cbv zeta. now rewrite Hfare, Hdur, Hdist.
Qed.

(** X12 at work: bob reports his position, alice asks for a ride and bob
    accepts it. *)
Lemma inserted_rows_stem_from_events_witness :
  let pickup := mkCoord (of_Z 1) (of_Z 1) in
  let dropoff := mkCoord (of_Z 1) (of_Z 109 / of_Z 100)%num in
  let es :=
    [driver_location Scenario.bob (of_Z 1) (of_Z 1);
     request_ride Scenario.alice pickup dropoff;
     route_resolved 0 Scenario.k3j9x0q1z;
     accept_ride Scenario.bob Scenario.k3j9x0q1z] in
  let distance :=
    @getDistance Scenario.small_angle (of_Z 1) (of_Z 1)
                 (of_Z 1) (of_Z 109 / of_Z 100)%num in
  let row :=
    {| row_passenger_id := "alice"%string; row_driver_id := "bob"%string;
       row_pickup := pickup; row_dropoff := dropoff;
       row_fare := calculateFare distance (distance * of_Z 2)%num;
       row_status := "accepted"%string |} in
  In (DbInsert row) (trace (@steps Scenario.small_angle es init)) /\
  exists driver lat lng,
    In (driver_location driver lat lng) es /\
    row_driver_id row = user_id driver.
Proof.
  cbv zeta.
  match goal with |- ?P /\ _ => assert (Hin : P) end.
  { vm_compute. do 4 right. left. reflexivity. }
  split; [exact Hin|].
  exact (proj1 (proj2 (proj2
    (@inserted_rows_stem_from_events Scenario.small_angle _ _ Hin)))).
Defined.

Lemma app_eq_mid {A} (l acts pre post : list A) x :
  l ++ acts = pre ++ x :: post ->
  (exists post', l = pre ++ x :: post') \/
  (exists pre', pre = l ++ pre' /\ acts = pre' ++ x :: post).
Proof.
  intros E. apply app_eq_app in E as [m [[E1 E2]|[E1 E2]]].
  - destruct m as [|y m].
    + right. exists []. rewrite app_nil_r in E1. cbn in E2. subst.
      split; [now rewrite app_nil_r | reflexivity].
    + left. cbn in E2. inversion E2; subst. now exists m.
  - right. exists m. now split.
Qed.

Lemma accepted_after_insert_app l acts :
  accepted_after_insert l ->
  (forall pre post target driver location,
      acts = pre ++ Emit target (ride_accepted driver location) :: post ->
      exists row,
        In (DbInsert row) (l ++ pre) /\
        target = to_room (row_passenger_id row) /\
        row_driver_id row = driver) ->
  accepted_after_insert (l ++ acts).
Proof.
  intros Hl Ha pre post target driver location E.
  apply app_eq_mid in E as [[post' E]|[pre' [-> E]]].
  - eapply Hl; eassumption.
  - eapply Ha; eassumption.
Qed.

Lemma no_accepted_in acts :
  (forall target driver location,
      ~ In (Emit target (ride_accepted driver location)) acts) ->
  forall l pre post target driver location,
    acts = pre ++ Emit target (ride_accepted driver location) :: post ->
    exists row,
      In (DbInsert row) (l ++ pre) /\
      target = to_room (row_passenger_id row) /\
      row_driver_id row = driver.
Proof.
  intros Hno l pre post target driver location E. exfalso.
  apply (Hno target driver location). rewrite E.
  apply in_or_app. right. now left.
Qed.

Section AcceptedFacts.
Context `{Libm}.

Lemma sent_and_ordered_step e w :
  sent_and_ordered w -> sent_and_ordered (step e w).
Proof.
  intros [Hs Ho].
  destruct e as [s la lo|s p d|i rid|s rid|i resp|s]; cbn [step].
  - split; cbn.
    + intros k Hin. apply in_or_app. left. auto.
    + apply accepted_after_insert_app; [assumption|]. apply no_accepted_in.
      intros t dr lo' [Heq|[]]. discriminate.
  - unfold on_request_ride. destruct (getRouteDistance p d). now split.
  - destruct (nth_error (awaiting w) i) as [k|]; [|now split].
    unfold run. rewrite request_ride_resume_run. split; cbn.
    + intros k' Hin. apply in_or_app. left. auto.
    + apply accepted_after_insert_app; [assumption|]. apply no_accepted_in.
      intros t dr lo' [Heq|Hin]; [discriminate|].
      apply in_app_or in Hin as [Hin|[Heq|[]]]; [|discriminate].
      unfold broadcast in Hin. apply in_map_iff in Hin as (kv & Heq & _).
      discriminate.
  - unfold run, on_accept_ride, bind, rideRequests_get, activeDrivers_get.
    destruct (JSMap.get rid (rideRequests w)) as [r|]; [|now split].
    destruct (JSMap.get (id s) (activeDrivers w)) as [d|]; [|now split].
    split; cbn.
    + intros k Hin. apply in_or_app.
      apply in_app_or in Hin as [Hin|[<-|[]]]; [left; auto|].
      right. now left.
    + apply accepted_after_insert_app; [assumption|]. apply no_accepted_in.
      intros t dr lo' [Heq|[]]. discriminate.
  - destruct (nth_error (inserting w) i) as [k|] eqn:Hk; [|now split].
    assert (Hsent : In (DbInsert (row_of (it_request k) (it_driver k))) (trace w)).
    { apply Hs. now apply nth_error_In with i. }
    assert (Hs' : forall k', In k' (remove_nth i (inserting w)) ->
                    In (DbInsert (row_of (it_request k') (it_driver k'))) (trace w)).
    { intros k' Hin. apply Hs. now apply In_remove_nth with i. }
    assert (Hacc : forall rest pre post target driver location,
              Emit (to_room (passengerId (it_request k)))
                   (ride_accepted (driverId (it_driver k))
                      (mkCoord (driver_lat (it_driver k))
                               (driver_lng (it_driver k)))) :: rest
              = pre ++ Emit target (ride_accepted driver location) :: post ->
              (forall t dr lo', ~ In (Emit t (ride_accepted dr lo')) rest) ->
              exists row,
                In (DbInsert row) (trace w ++ pre) /\
                target = to_room (row_passenger_id row) /\
                row_driver_id row = driver).
    { intros rest pre post target driver location E Hrest.
      destruct pre as [|a pre]; cbn in E; inversion E; subst.
      - exists (row_of (it_request k) (it_driver k)).
        rewrite app_nil_r. now repeat split.
      - exfalso. apply (Hrest target driver location).
        apply in_or_app. right. now left. }
    unfold run, insert_then.
    destruct (error resp); [now split|].
    destruct (data resp) as [[|rideId rest]|]; split; cbn.
    + intros k' Hin. apply in_or_app. left. auto.
    + apply accepted_after_insert_app; [assumption|].
      intros pre post target driver location E.
      apply (Hacc [] pre post target driver location E). intros t dr lo' [].
    + intros k' Hin. rewrite <- !app_assoc. apply in_or_app. left. auto.
    + rewrite <- !app_assoc. apply accepted_after_insert_app; [assumption|].
      intros pre post target driver location E.
      apply (Hacc _ pre post target driver location E).
      intros t dr lo' [Heq|[Heq|[]]]; discriminate.
    + intros k' Hin. apply in_or_app. left. auto.
    + apply accepted_after_insert_app; [assumption|].
      intros pre post target driver location E.
      apply (Hacc [] pre post target driver location E). intros t dr lo' [].
  - split; cbn.
    + intros k Hin. apply in_or_app. left. auto.
    + apply accepted_after_insert_app; [assumption|]. apply no_accepted_in.
      intros t dr lo' [Heq|[]]. discriminate.
Qed.

Lemma sent_and_ordered_steps es : sent_and_ordered (steps es init).
Proof.
  induction es as [|e es IH] using rev_ind.
  - split; [intros k []|]. intros [|a pre] post t dr lo E; discriminate.
  - rewrite steps_snoc. now apply sent_and_ordered_step.
Qed.
End AcceptedFacts.

(** X13: in every run of the server, a 'ride-accepted' is emitted only
    after the insert of a row for it has been sent: the emission is
    addressed to the room named by the row's passenger and names the row's
    driver, and the insert comes earlier in the trace. *)
Theorem ride_accepted_follows_its_insert `{Libm}
    es pre post target driver location :
  trace (steps es init)
  = pre ++ Emit target (ride_accepted driver location) :: post ->
  exists row,
    In (DbInsert row) pre /\
    target = to_room (row_passenger_id row) /\
    row_driver_id row = driver.
Proof. apply (proj2 (sent_and_ordered_steps es)). Qed.

(** X13 at work: bob reports his position, alice asks for a ride, bob
    accepts it and his insert settles with the row 7. *)
Lemma ride_accepted_follows_its_insert_witness :
  let es :=
    [driver_location Scenario.bob (of_Z 1) (of_Z 1);
     request_ride Scenario.alice (mkCoord (of_Z 1) (of_Z 1))
                  (mkCoord (of_Z 1) (of_Z 2));
     route_resolved 0 Scenario.k3j9x0q1z;
     accept_ride Scenario.bob Scenario.k3j9x0q1z;
     insert_settled 0 (Scenario.stored 7)] in
  let acts := trace (@steps Scenario.small_angle es init) in
  acts = firstn 5 acts ++
         Emit (to_room "alice"%string)
              (ride_accepted "bob"%string (mkCoord (of_Z 1) (of_Z 1))) ::
         skipn 6 acts /\
  exists row,
    In (DbInsert row) (firstn 5 acts) /\
    to_room "alice"%string = to_room (row_passenger_id row) /\
    row_driver_id row = "bob"%string.
Proof.
  cbv zeta.
  match goal with |- ?P /\ _ => assert (Heq : P) end.
  { vm_compute. reflexivity. }
  split; [exact Heq|].
  exact (@ride_accepted_follows_its_insert Scenario.small_angle _ _ _ _ _ _ Heq).
Defined.

Section AddressFacts.
Context `{Libm}.

Lemma addressed_step es e w :
  grounded es w -> addressed es w -> addressed (es ++ [e]) (step e w).
Proof.
  intros G Ha.
  assert (Ha' : addressed (es ++ [e]) w).
  { intros t d l Hin. destruct (Ha t d l Hin) as (r & Hr & Ht).
    exists r. split; [now apply requested_later | assumption]. }
  pose proof (grounded_later es e w G) as [_ _ _ Hi _].
  destruct e as [s la lo|s p d|i rid|s rid|i resp|s]; cbn [step].
  - intros t dr l Hin. cbn in Hin.
    apply in_app_or in Hin as [Hin|[Heq|[]]]; [eauto | discriminate].
  - unfold on_request_ride. destruct (getRouteDistance p d). exact Ha'.
  - destruct (nth_error (awaiting w) i) as [k|]; [|exact Ha'].
    unfold run. rewrite request_ride_resume_run.
    intros t dr l Hin. cbn in Hin.
    apply in_app_or in Hin as [Hin|Hin]; [eauto|].
    destruct Hin as [Heq|Hin]; [discriminate|].
    apply in_app_or in Hin as [Hin|[Heq|[]]]; [|discriminate].
    unfold broadcast in Hin. apply in_map_iff in Hin as (kv & Heq & _).
    discriminate.
  - unfold run, on_accept_ride, bind, rideRequests_get, activeDrivers_get.
    destruct (JSMap.get rid (rideRequests w)) as [r|]; [|exact Ha'].
    destruct (JSMap.get (id s) (activeDrivers w)) as [d|]; [|exact Ha'].
    intros t dr l Hin. cbn in Hin.
    apply in_app_or in Hin as [Hin|[Heq|[]]]; [eauto | discriminate].
  - destruct (nth_error (inserting w) i) as [k|] eqn:Hk; [|exact Ha'].
    assert (Hreq : requested (es ++ [insert_settled i resp]) (it_request k)).
    { apply Hi. now apply nth_error_In with i. }
    unfold run, insert_then.
    destruct (error resp); [exact Ha'|].
    destruct (data resp) as [[|rideId rest]|]; intros t dr l Hin; cbn in Hin.
    + apply in_app_or in Hin as [Hin|[Heq|[]]]; [eauto|].
      inversion Heq; subst. now exists (it_request k).
    + rewrite <- !app_assoc in Hin.
      apply in_app_or in Hin as [Hin|[Heq|[Heq|[Heq|[]]]]];
        [eauto | | discriminate..].
      inversion Heq; subst. now exists (it_request k).
    + apply in_app_or in Hin as [Hin|[Heq|[]]]; [eauto|].
      inversion Heq; subst. now exists (it_request k).
  - intros t dr l Hin. cbn in Hin.
    apply in_app_or in Hin as [Hin|[Heq|[]]]; [eauto | discriminate].
Qed.

Lemma addressed_steps es : addressed es (steps es init).
Proof.
  induction es as [|e es IH] using rev_ind.
  - intros t d l [].
  - rewrite steps_snoc. apply addressed_step; [apply grounded_steps | exact IH].
Qed.
End AddressFacts.

(** X21: every 'ride-accepted' the server emits, in any run, is addressed
    to the room named by the user id of a passenger who sent 'request-ride'.
    A socket is in the room of its own socket id only, so a socket is among
    the receivers of that emission only if its socket id is that user
    id. *)
Theorem ride_accepted_is_addressed_by_user_id `{Libm}
    es target driver location :
  In (Emit target (ride_accepted driver location)) (trace (steps es init)) ->
  exists passenger pickup dropoff,
    In (request_ride passenger pickup dropoff) es /\
    target = to_room (user_id passenger) /\
    forall socket,
      receives socket target = true -> id socket = user_id passenger.
Proof.
  intros Hin.
  destruct (addressed_steps es target driver location Hin)
    as (r & (p & Hp & Hu & _) & ->).
  exists p, (pickup r), (dropoff r). split; [exact Hp|].
  split; [now rewrite Hu|].
  intros socket Hrec. cbn in Hrec. rewrite orb_false_r in Hrec.
  apply String.eqb_eq in Hrec. now rewrite <- Hrec, Hu.
Qed.

(** X21 at work: bob reports his position, alice asks for a ride, bob
    accepts it and his insert settles; 'ride-accepted' goes to the room
    "alice", which alice's socket "sock-alice" is not in. *)
Lemma ride_accepted_is_addressed_by_user_id_witness :
  let es :=
    [driver_location Scenario.bob (of_Z 1) (of_Z 1);
     request_ride Scenario.alice (mkCoord (of_Z 1) (of_Z 1))
                  (mkCoord (of_Z 1) (of_Z 2));
     route_resolved 0 Scenario.k3j9x0q1z;
     accept_ride Scenario.bob Scenario.k3j9x0q1z;
     insert_settled 0 (Scenario.stored 7)] in
  let accepted :=
    Emit (to_room "alice"%string)
         (ride_accepted "bob"%string (mkCoord (of_Z 1) (of_Z 1))) in
  In accepted (trace (@steps Scenario.small_angle es init)) /\
  receives Scenario.alice (to_room "alice"%string) = false /\
  exists passenger pickup dropoff,
    In (request_ride passenger pickup dropoff) es /\
    to_room "alice"%string = to_room (user_id passenger) /\
    forall socket,
      receives socket (to_room "alice"%string) = true ->
      id socket = user_id passenger.
Proof.
  cbv zeta.
  match goal with |- ?P /\ _ => assert (Hin : P) end.
  { vm_compute. do 5 right. left. reflexivity. }
  split; [exact Hin|]. split; [reflexivity|].
  exact (@ride_accepted_is_addressed_by_user_id Scenario.small_angle
           _ _ _ _ Hin).
Defined.

(* ================================================================= *)
(** ** The REST routes and the middlewares *)

Module RestFacts.
Import Rest.
Local Open Scope string_scope.

Lemma split_no_sep sep s :
  forallb (fun c => negb (Ascii.eqb c sep)) (list_ascii_of_string s) = true ->
  split sep s = [s].
Proof.
  induction s as [|c s IH]; [reflexivity|].
  cbn [list_ascii_of_string forallb split].
  intros Hs. apply andb_prop in Hs as [Hc Hs].
  apply negb_true_iff in Hc. rewrite Hc. now rewrite (IH Hs).
Qed.

Lemma split_cons sep a b :
  forallb (fun c => negb (Ascii.eqb c sep)) (list_ascii_of_string a) = true ->
  split sep (a ++ String sep b) = a :: split sep b.
Proof.
  induction a as [|c a IH]; cbn [list_ascii_of_string forallb split append].
  - intros _. now rewrite Ascii.eqb_refl.
  - intros Hs. apply andb_prop in Hs as [Hc Hs].
    apply negb_true_iff in Hc. rewrite Hc. now rewrite (IH Hs).
Qed.

Section RouteFacts.
Context {DB : Type} `{Supabase DB}.

(** What [verifyToken] lets through. *)
Lemma verifyToken_run req next (s : Server DB) :
  verifyToken req next s =
  match bearer (headers_authorization req) with
  | None | Some "" =>
      (Normal {| status := 401;
                 json := Object [("error", Str "No token provided")] |}, s)
  | Some token =>
      let r := fst (auth_getUser token (db s)) in
      let s' := {| db := snd (auth_getUser token (db s));
                   calls := (calls s ++ [Auth token])%list |} in
      match auth_error r with
      | Some _ =>
          (Normal {| status := 401;
                     json := Object [("error", Str "Invalid token")] |}, s')
      | None =>
          next {| headers_authorization := headers_authorization req;
                  body := body req;
                  params_id := params_id req;
                  user := auth_user r;
                  token := Some token |} s'
      end
  end.
Proof.
  unfold verifyToken.
  destruct (bearer (headers_authorization req)) as [[|c t]|]; try reflexivity.
  unfold bind, supabase_auth_getUser.
  destruct (auth_getUser (String c t) (db s)) as [r db']. cbn [fst snd].
  now destruct (auth_error r).
Qed.

Lemma supabase_from_run q (s : Server DB) :
  supabase_from q s =
  (Normal (fst (execute q (db s))),
   {| db := snd (execute q (db s)); calls := (calls s ++ [Table q])%list |}).
Proof. unfold supabase_from. now destruct (execute q (db s)). Qed.

End RouteFacts.
End RestFacts.

Section RestTheorems.
Import Rest.
Import RestFacts.
Local Open Scope string_scope.

(** X14: the token the app sends is the token the server verifies. The
    app sends the header [`Bearer ${token}`] and [verifyToken] reads the
    second of the fields of the header that single spaces separate: for a
    token without a space this is the token itself; for the [undefined]
    token of an app without a session it is the word "undefined"; a header
    without a space yields no token at all, as does a missing header. *)
Theorem bearer_reads_the_token_of_the_app :
  (forall token,
      no_space token = true ->
      bearer (Some (Authorization (Some token))) = Some token) /\
  bearer (Some (Authorization None)) = Some "undefined" /\
  (forall header,
      no_space header = true -> bearer (Some header) = None) /\
  bearer None = None.
Proof.
  split; [|split; [reflexivity|split; [|reflexivity]]].
  - intros token Ht. unfold bearer, Authorization.
    change ("Bearer " ++ token) with ("Bearer" ++ String " " token).
    rewrite split_cons by reflexivity.
    now rewrite (split_no_sep _ _ Ht).
  - intros header Hh. unfold bearer.
    now rewrite (split_no_sep _ _ Hh).
Qed.

(** X14 at work on a token of three dot-separated parts. *)
Lemma bearer_reads_the_token_of_the_app_witness :
  no_space "eyJhbGciOi.eyJzdWIi.SflKxwRJ" = true /\
  bearer (Some "Bearer eyJhbGciOi.eyJzdWIi.SflKxwRJ")
  = Some "eyJhbGciOi.eyJzdWIi.SflKxwRJ".
Proof.
  split; [reflexivity|].
  exact (proj1 bearer_reads_the_token_of_the_app
           "eyJhbGciOi.eyJzdWIi.SflKxwRJ" (eq_refl true)).
Defined.

(** X15: each of the four routes answers 401 unless the request carries a
    token that [supabase.auth.getUser] accepts. Without a token (no header,
    no second field, or an empty one) the reply is 401 'No token provided'
    and supabase is not called at all; with a token that [getUser] answers
    with an error the reply is 401 'Invalid token' and [getUser] is the
    only call made: no table is read or written. *)
Theorem routes_answer_401_without_verified_token
    {DB} `{Supabase DB} now endpoint req (s : Server DB) :
  (falsy (bearer (headers_authorization req)) = true ->
   app now endpoint req s =
   (Normal {| status := 401;
              json := Object [("error", Str "No token provided")] |}, s)) /\
  (forall token,
      bearer (headers_authorization req) = Some token ->
      falsy (Some token) = false ->
      auth_error (fst (auth_getUser token (db s))) <> None ->
      app now endpoint req s =
      (Normal {| status := 401;
                 json := Object [("error", Str "Invalid token")] |},
       {| db := snd (auth_getUser token (db s));
          calls := (calls s ++ [Auth token])%list |})).
Proof.
  unfold app. rewrite verifyToken_run. split.
  - intros Hf. destruct (bearer (headers_authorization req)) as [[|c t]|];
      try reflexivity. discriminate.
  - intros token -> Hf Herr. destruct token as [|c t]; [discriminate|].
    cbv zeta. destruct (auth_error _); [reflexivity | congruence].
Qed.

(** X15 at work: a request to complete the ride r1 with a token the
    backend does not know. *)
Lemma routes_answer_401_without_verified_token_witness :
  let req := RestScenario.request (Some "t-mallory") "r1" in
  bearer (headers_authorization req) = Some "t-mallory" /\
  falsy (Some "t-mallory") = false /\
  @app _ RestScenario.memory 0 POST_rides_complete req RestScenario.start =
  (Normal {| status := 401;
             json := Object [("error", Str "Invalid token")] |},
   {| db := RestScenario.tables; calls := [Auth "t-mallory"] |}).
Proof.
  cbv zeta. repeat (split; [reflexivity|]).
  exact (proj2 (@routes_answer_401_without_verified_token _ RestScenario.memory
                  0 POST_rides_complete
                  (RestScenario.request (Some "t-mallory") "r1")
                  RestScenario.start)
           "t-mallory" (eq_refl _) (eq_refl _)
           (fun E => eq_ind (Some (mkError "invalid JWT"))
                       (fun o => match o with Some _ => True | None => False end)
                       I None E)).
Defined.

(** X16: only the driver of a ride completes it. If the route
    '/rides/:id/complete' sends an update at all, then the request carried a
    token that [getUser] accepted, the ride with the id of the path was
    fetched without error, its [driver_id] is the id of the authenticated
    user, and the update is the one that sets [status] to 'completed' and
    [ended_at] to the current time on the ride with that id. *)
Theorem only_its_driver_completes_a_ride
    {DB} `{Supabase DB} now req (s : Server DB) table values ride_id :
  In (Table (update_single table values ride_id))
     (issued (app now POST_rides_complete req) s) ->
  exists token caller driver_id,
    bearer (headers_authorization req) = Some token /\
    let verified := auth_getUser token (db s) in
    let fetched :=
      execute (select_single "rides" (params_id req)) (snd verified) in
    auth_error (fst verified) = None /\
    auth_user (fst verified) = Some caller /\
    error (fst fetched) = None /\
    get_property (data (fst fetched)) "driver_id" = Normal (Str driver_id) /\
    driver_id = id caller /\
    table = "rides" /\
    ride_id = params_id req /\
    values = [("status", Str "completed"); ("ended_at", Date now)].
Proof.
  unfold issued, app. rewrite verifyToken_run.
  destruct (bearer (headers_authorization req)) as [[|c t]|] eqn:Hb;
    try (rewrite skipn_all; intros []).
  set (token := String c t) in *. cbv zeta.
  destruct (auth_error (fst (auth_getUser token (db s)))) eqn:He.
  { cbn [snd calls]. rewrite skipn_length_app. intros [Heq|[]]. discriminate. }
  unfold post_rides_complete, bind. rewrite supabase_from_run.
  cbn [db calls params_id user fst snd].
  set (verified := auth_getUser token (db s)) in *.
  set (fetched := execute (select_single "rides" (params_id req)) (snd verified)).
  destruct (error (fst fetched)) eqn:Hf.
  { cbn [res_status_json ret snd calls]. rewrite <- app_assoc, skipn_length_app.
    intros [Heq|[Heq|[]]]; discriminate. }
  unfold lift.
  destruct (get_property (data (fst fetched)) "driver_id") as [v|err] eqn:Hp.
  2: { cbn [snd calls]. rewrite <- app_assoc, skipn_length_app.
       intros [Heq|[Heq|[]]]; discriminate. }
  unfold req_user_id. cbn [user].
  destruct (auth_user (fst verified)) as [caller|] eqn:Hu.
  2: { cbn [lift snd calls]. rewrite <- app_assoc, skipn_length_app.
       intros [Heq|[Heq|[]]]; discriminate. }
  cbn [ret].
  destruct (strict_neq v (id caller)) eqn:Hs.
  { cbn [res_status_json ret snd calls]. rewrite <- app_assoc, skipn_length_app.
    intros [Heq|[Heq|[]]]; discriminate. }
  rewrite supabase_from_run. cbn [db calls fst snd].
  intros Hin.
  assert (Hupd : Table (update_single table values ride_id) =
                 Table (update_single "rides"
                          [("status", Str "completed"); ("ended_at", Date now)]
                          (params_id req))).
  { destruct (error (fst (execute _ (snd fetched))));
      cbn [res_status_json res_json ret snd calls] in Hin;
      rewrite <- !app_assoc, skipn_length_app in Hin;
      destruct Hin as [Heq|[Heq|[Heq|[]]]]; try discriminate;
      now symmetry. }
  inversion Hupd; subst.
  destruct v as [| |b|n|driver_id|ms|items|fields]; try discriminate.
  cbn [strict_neq] in Hs. apply negb_false_iff, String.eqb_eq in Hs.
  exists token, caller, driver_id. repeat split; assumption.
Qed.

(** X16 at work: bob, the driver of the ride r1, completes it. *)
Lemma only_its_driver_completes_a_ride_witness :
  let req := RestScenario.request (Some "t-bob") "r1" in
  let update :=
    update_single "rides"
      [("status", Str "completed"); ("ended_at", Date 1700000000000)] "r1" in
  In (Table update)
     (issued (@app _ RestScenario.memory 1700000000000 POST_rides_complete req)
             RestScenario.start) /\
  exists token caller driver_id,
    bearer (headers_authorization req) = Some token /\
    let verified := @auth_getUser _ RestScenario.memory token
                      (db RestScenario.start) in
    let fetched :=
      @execute _ RestScenario.memory
         (select_single "rides" (params_id req)) (snd verified) in
    auth_error (fst verified) = None /\
    auth_user (fst verified) = Some caller /\
    error (fst fetched) = None /\
    get_property (data (fst fetched)) "driver_id" = Normal (Str driver_id) /\
    driver_id = id caller /\
    "rides" = "rides" /\
    "r1" = params_id req /\
    [("status", Str "completed"); ("ended_at", Date 1700000000000)]
    = [("status", Str "completed"); ("ended_at", Date 1700000000000)].
Proof.
  cbv zeta.
  match goal with |- ?P /\ _ => assert (Hin : P) end.
  { right. right. left. reflexivity. }
  split; [exact Hin|].
  exact (@only_its_driver_completes_a_ride _ RestScenario.memory
           _ _ _ _ _ _ Hin).
Defined.

(** X17: the routes '/profile', '/switch-role' and '/rides' work on rows
    of the caller only. Every table query one of them sends is sent for a
    user that [getUser] returned for the token of the request, and is
    scoped to that user: the profile row with the user's id, read or
    updated in its [current_role] alone, or the rides that name the user as
    passenger or as driver. *)
Theorem routes_touch_only_rows_of_the_caller
    {DB} `{Supabase DB} now endpoint req (s : Server DB) q :
  endpoint <> POST_rides_complete ->
  In (Table q) (issued (app now endpoint req) s) ->
  exists token caller,
    bearer (headers_authorization req) = Some token /\
    auth_error (fst (auth_getUser token (db s))) = None /\
    auth_user (fst (auth_getUser token (db s))) = Some caller /\
    scoped_to (id caller) q.
Proof.
  intros Hep. unfold issued, app. rewrite verifyToken_run.
  destruct (bearer (headers_authorization req)) as [[|c t]|] eqn:Hb;
    try (rewrite skipn_all; intros []).
  set (token := String c t) in *. cbv zeta.
  destruct (auth_error (fst (auth_getUser token (db s)))) eqn:He.
  { cbn [snd calls]. rewrite skipn_length_app. intros [Heq|[]]. discriminate. }
  set (verified := auth_getUser token (db s)) in *.
  destruct endpoint; [| | |contradiction].
  - (* /profile *)
    unfold get_profile, bind, req_user_id. cbn [user].
    destruct (auth_user (fst verified)) as [caller|] eqn:Hu.
    2: { cbn [lift snd calls]. rewrite skipn_length_app.
         intros [Heq|[]]; discriminate. }
    cbn [ret]. rewrite supabase_from_run. cbn [db calls fst snd].
    intros Hin. exists token, caller.
    repeat (split; [assumption || reflexivity|]).
    destruct (error (fst (execute _ (snd verified))));
      cbn [res_status_json res_json ret snd calls] in Hin;
      rewrite <- !app_assoc, skipn_length_app in Hin;
      destruct Hin as [Heq|[Heq|[]]]; try discriminate;
      inversion Heq; subst; now split.
  - (* /switch-role *)
    unfold post_switch_role, bind, lift.
    cbn [body].
    destruct (get_property (body req) "role") as [role|err].
    2: { cbn [snd calls]. rewrite skipn_length_app.
         intros [Heq|[]]; discriminate. }
    unfold req_user_id. cbn [user].
    destruct (auth_user (fst verified)) as [caller|] eqn:Hu.
    2: { cbn [lift snd calls]. rewrite skipn_length_app.
         intros [Heq|[]]; discriminate. }
    cbn [ret]. rewrite supabase_from_run. cbn [db calls fst snd].
    intros Hin. exists token, caller.
    repeat (split; [assumption || reflexivity|]).
    destruct (error (fst (execute _ (snd verified))));
      cbn [res_status_json res_json ret snd calls] in Hin;
      rewrite <- !app_assoc, skipn_length_app in Hin;
      destruct Hin as [Heq|[Heq|[]]]; try discriminate;
      inversion Heq; subst; now repeat split.
  - (* /rides *)
    unfold get_rides, bind, req_user_id. cbn [user].
    destruct (auth_user (fst verified)) as [caller|] eqn:Hu.
    2: { cbn [lift snd calls]. rewrite skipn_length_app.
         intros [Heq|[]]; discriminate. }
    cbn [ret]. rewrite supabase_from_run. cbn [db calls fst snd].
    intros Hin. exists token, caller.
    repeat (split; [assumption || reflexivity|]).
    destruct (error (fst (execute _ (snd verified))));
      cbn [res_status_json res_json ret snd calls] in Hin;
      rewrite <- !app_assoc, skipn_length_app in Hin;
      destruct Hin as [Heq|[Heq|[]]]; try discriminate;
      inversion Heq; subst; now split.
Qed.

(** X17 at work: carol switches her role. *)
Lemma routes_touch_only_rows_of_the_caller_witness :
  let req := RestScenario.request (Some "t-carol") "" in
  let update :=
    update_single "profiles" [("current_role", Str "driver")] "carol" in
  POST_switch_role <> POST_rides_complete /\
  In (Table update)
     (issued (@app _ RestScenario.memory 0 POST_switch_role req)
             RestScenario.start) /\
  exists token caller,
    bearer (headers_authorization req) = Some token /\
    auth_error (fst (@auth_getUser _ RestScenario.memory token
                       (db RestScenario.start))) = None /\
    auth_user (fst (@auth_getUser _ RestScenario.memory token
                      (db RestScenario.start))) = Some caller /\
    scoped_to (id caller) update.
Proof.
  cbv zeta.
  assert (Hne : POST_switch_role <> POST_rides_complete) by discriminate.
  split; [exact Hne|].
  match goal with |- ?P /\ _ => assert (Hin : P) end.
  { right. left. reflexivity. }
  split; [exact Hin|].
  exact (@routes_touch_only_rows_of_the_caller _ RestScenario.memory
           _ _ _ _ _ Hne Hin).
Defined.

(** X18: a socket is connected only with a verified user. If a connection
    attempt ends with the handlers of the dispatch core registered on a
    socket, then the handshake carried a non-empty token, [getUser] was
    called once, with that token, and answered without error with a user,
    and the user id the handlers work with is the id of that user. *)
Theorem connection_carries_verified_user
    {DB} `{Supabase DB} socket_id token (s : Server DB) socket :
  fst (connect socket_id token s) = Normal (Some socket) ->
  exists t u,
    token = Some t /\ t <> "" /\
    auth_error (fst (auth_getUser t (db s))) = None /\
    auth_user (fst (auth_getUser t (db s))) = Some u /\
    socket = mkSocket socket_id (id u) /\
    issued (connect socket_id token) s = [Auth t].
Proof.
  unfold issued, connect, io_use, bind.
  destruct token as [[|c t]|]; try discriminate.
  unfold supabase_auth_getUser.
  destruct (auth_getUser (String c t) (db s)) as [r db'] eqn:Hr.
  destruct (auth_error r) eqn:He; [discriminate|].
  destruct (auth_user r) as [u|] eqn:Hu; [|discriminate].
  cbn [ret fst snd calls]. intros [= <-].
  exists (String c t), u. rewrite skipn_length_app, Hr. cbn [fst].
  repeat split; try assumption; discriminate.
Qed.

(** X18 at work: bob's app connects with his token. *)
Lemma connection_carries_verified_user_witness :
  fst (@connect _ RestScenario.memory "sock-bob" (Some "t-bob")
         RestScenario.start)
  = Normal (Some Scenario.bob) /\
  exists t u,
    Some "t-bob" = Some t /\ t <> "" /\
    auth_error (fst (@auth_getUser _ RestScenario.memory t
                       (db RestScenario.start))) = None /\
    auth_user (fst (@auth_getUser _ RestScenario.memory t
                      (db RestScenario.start))) = Some u /\
    Scenario.bob = mkSocket "sock-bob" (id u) /\
    issued (@connect _ RestScenario.memory "sock-bob" (Some "t-bob"))
           RestScenario.start = [Auth t].
Proof.
  assert (Hc : fst (@connect _ RestScenario.memory "sock-bob" (Some "t-bob")
                      RestScenario.start)
               = Normal (Some Scenario.bob)) by reflexivity.
  split; [exact Hc|].
  exact (@connection_carries_verified_user _ RestScenario.memory
           _ _ _ _ Hc).
Defined.

(** X22: the middleware of [io.use] refuses a handshake without a
    verified token, and the 'connection' listener does not run for it.
    Without a token (none, or an empty one) the socket is refused with
    'Authentication required' and supabase is not called; with a token that
    [getUser] answers with an error the socket is refused with that error,
    [getUser] being the only call made. In both cases no handler of the
    dispatch core is registered. *)
Theorem handshake_without_verified_token_is_refused
    {DB} `{Supabase DB} socket_id token (s : Server DB) :
  (falsy token = true ->
   io_use token s =
   (Normal (refused {| message := "Authentication required" |}), s) /\
   connect socket_id token s = (Normal None, s)) /\
  (forall t e,
      token = Some t -> falsy token = false ->
      auth_error (fst (auth_getUser t (db s))) = Some e ->
      let s' := {| db := snd (auth_getUser t (db s));
                   calls := (calls s ++ [Auth t])%list |} in
      io_use token s = (Normal (refused e), s') /\
      connect socket_id token s = (Normal None, s')).
Proof.
  split.
  - intros Hf. unfold connect, bind, io_use.
    destruct token as [[|c t]|]; try discriminate; now split.
  - intros t e -> Hf He. destruct t as [|c t]; [discriminate|].
    cbv zeta.
    assert (E : io_use (Some (String c t)) s =
                (Normal (refused e),
                 {| db := snd (auth_getUser (String c t) (db s));
                    calls := (calls s ++ [Auth (String c t)])%list |})).
    { unfold io_use, bind, supabase_auth_getUser.
      destruct (auth_getUser (String c t) (db s)) as [r db'].
      cbn [fst snd] in *. now rewrite He. }
    split; [exact E|]. unfold connect, bind. now rewrite E.
Qed.

(** X22 at work: a handshake with a token the backend does not know. *)
Lemma handshake_without_verified_token_is_refused_witness :
  falsy (Some "t-mallory") = false /\
  @connect _ RestScenario.memory "sock-mallory" (Some "t-mallory")
    RestScenario.start
  = (Normal None,
     {| db := RestScenario.tables; calls := [Auth "t-mallory"] |}).
Proof.
  split; [reflexivity|].
  exact (proj2
    (proj2 (@handshake_without_verified_token_is_refused
              _ RestScenario.memory "sock-mallory" (Some "t-mallory")
              RestScenario.start)
       "t-mallory" (mkError "invalid JWT")
       (eq_refl _) (eq_refl _) (eq_refl _))).
Defined.

(** X19: a route replies 200 only with the data of a query that answered
    without error. If one of the four routes replies with status 200, then
    the last call it made is a table query that supabase answered without
    error, and the body of the reply is the [data] of that answer: no route
    reports success after a failed query or without having asked. *)
Theorem ok_reply_carries_the_data_of_a_query
    {DB} `{Supabase DB} now endpoint req (s : Server DB) reply :
  fst (app now endpoint req s) = Normal reply ->
  status reply = 200 ->
  exists q before d,
    snd (app now endpoint req s) =
      {| db := snd (execute q d);
         calls := (calls s ++ before ++ [Table q])%list |} /\
    error (fst (execute q d)) = None /\
    json reply = data (fst (execute q d)).
Proof.
  unfold app. rewrite verifyToken_run.
  destruct (bearer (headers_authorization req)) as [[|c t]|] eqn:Hb;
    try (cbn [fst]; intros [= <-]; discriminate).
  set (token := String c t) in *. cbv zeta.
  destruct (auth_error (fst (auth_getUser token (db s)))) eqn:He;
    [cbn [fst]; intros [= <-]; discriminate|].
  set (verified := auth_getUser token (db s)) in *.
  destruct endpoint.
  - (* /profile *)
    unfold get_profile, bind, req_user_id. cbn [user].
    destruct (auth_user (fst verified)) as [caller|]; [|now cbn [lift fst]].
    cbn [ret]. rewrite supabase_from_run. cbn [db calls fst snd].
    set (q := select_single "profiles" (id caller)).
    destruct (error (fst (execute q (snd verified)))) eqn:Hq;
      cbn [res_status_json res_json ret fst snd]; intros [= <-];
      [discriminate|]. intros _.
    exists q, [Auth token], (snd verified).
    rewrite <- app_assoc. now repeat split.
  - (* /switch-role *)
    unfold post_switch_role, bind, lift. cbn [body].
    destruct (get_property (body req) "role") as [role|err];
      [|now cbn [lift fst]].
    unfold req_user_id. cbn [user].
    destruct (auth_user (fst verified)) as [caller|]; [|now cbn [lift fst]].
    cbn [ret]. rewrite supabase_from_run. cbn [db calls fst snd].
    set (q := update_single "profiles" [("current_role", role)] (id caller)).
    destruct (error (fst (execute q (snd verified)))) eqn:Hq;
      cbn [res_status_json res_json ret fst snd]; intros [= <-];
      [discriminate|]. intros _.
    exists q, [Auth token], (snd verified).
    rewrite <- app_assoc. now repeat split.
  - (* /rides *)
    unfold get_rides, bind, req_user_id. cbn [user].
    destruct (auth_user (fst verified)) as [caller|]; [|now cbn [lift fst]].
    cbn [ret]. rewrite supabase_from_run. cbn [db calls fst snd].
    set (q := select_or_order "rides" _ "created_at" false).
    destruct (error (fst (execute q (snd verified)))) eqn:Hq;
      cbn [res_status_json res_json ret fst snd]; intros [= <-];
      [discriminate|]. intros _.
    exists q, [Auth token], (snd verified).
    rewrite <- app_assoc. now repeat split.
  - (* /rides/:id/complete *)
    unfold post_rides_complete, bind. rewrite supabase_from_run.
    cbn [db calls params_id user fst snd].
    set (fetch := select_single "rides" (params_id req)).
    set (fetched := execute fetch (snd verified)).
    destruct (error (fst fetched));
      [cbn [res_status_json ret fst]; intros [= <-]; discriminate|].
    unfold lift.
    destruct (get_property (data (fst fetched)) "driver_id") as [v|err];
      [|now cbn [lift fst]].
    unfold req_user_id. cbn [user].
    destruct (auth_user (fst verified)) as [caller|]; [|now cbn [lift fst]].
    cbn [ret].
    destruct (strict_neq v (id caller));
      [cbn [res_status_json ret fst]; intros [= <-]; discriminate|].
    rewrite supabase_from_run. cbn [db calls fst snd].
    set (q := update_single "rides" _ (params_id req)).
    destruct (error (fst (execute q (snd fetched)))) eqn:Hq;
      cbn [res_status_json res_json ret fst snd]; intros [= <-];
      [discriminate|]. intros _.
    exists q, [Auth token; Table fetch], (snd fetched).
    rewrite <- !app_assoc. now repeat split.
Qed.

(** X19 at work: bob completes the ride r1 and is answered 200. *)
Lemma ok_reply_carries_the_data_of_a_query_witness :
  let run :=
    @app _ RestScenario.memory 1700000000000 POST_rides_complete
      (RestScenario.request (Some "t-bob") "r1") RestScenario.start in
  let reply :=
    match fst run with
    | Normal reply => reply
    | Throw _ => mkReply 0 Undefined
    end in
  fst run = Normal reply /\
  status reply = 200 /\
  exists q before d,
    snd run =
      {| db := snd (@execute _ RestScenario.memory q d);
         calls := (calls RestScenario.start ++ before ++ [Table q])%list |} /\
    error (fst (@execute _ RestScenario.memory q d)) = None /\
    json reply = data (fst (@execute _ RestScenario.memory q d)).
Proof.
  cbv zeta.
  match goal with |- ?P /\ _ => assert (Hrun : P) by reflexivity end.
  match goal with |- _ /\ ?P /\ _ => assert (Hok : P) by reflexivity end.
  split; [exact Hrun|]. split; [exact Hok|].
  exact (@ok_reply_carries_the_data_of_a_query _ RestScenario.memory
           _ _ _ _ _ Hrun Hok).
Defined.

End RestTheorems.
